(** * beets-rym: genre hierarchy index, release matcher and tag resolver

    A shallow embedding of [beetsplug/rym_genre_hierarchy.py] and of the
    matching and grouping code of [beetsplug/rym_genres.py], followed by
    the properties proved about them.

    Python values are modelled as follows.
    - A [str] is the list of its Unicode code points ([list N]); comparing
      two such lists with the lexicographic order on code points is what
      Python's [<] on [str] does.
    - A [set] is a [gset], a [dict] a [gmap]; the set of ancestor tuples of
      a genre is a [gset (list str)].
    - A [float] score is an exact rational ([Q]); every score computed here
      is a quotient of two small integers or the mean of two such quotients.
    - An exception raised inside a method is an [outcome]; the object state
      reached when it was raised is kept, as it is in Python. *)

From stdpp Require Import gmap list strings sorting lexico.
From Stdlib Require Import QArith Qminmax Lqa.

Local Open Scope Z_scope.
Local Open Scope nat_scope.

#[local] Set Warnings "-clear-no-such-hyp".

(** ** Text *)

Abbreviation str := (list N).

(** A Python literal made of ASCII characters. *)
Definition py (s : string) : str := Ascii.N_of_ascii <$> String.list_ascii_of_string s.

Module Text.

(** The Unicode tables the program reads through [str.lower],
    [unicodedata.normalize] and the classes [\w] and [\d] of [re].  They are
    not part of the repository; the definitions below take them as given.
    The scanners written for the patterns rely on three facts of those
    tables: a decimal digit is a word character, is not whitespace and is
    not a colon. *)
Class UnicodeData : Type := {
  str_lower : str → str;
  normalize_NFKC : str → str;
  normalize_NFD : str → str;
  is_word : N → bool;
  is_digit : N → bool
}.

(** [str.isspace] on one character, which is also [\s] of [re] and what
    [str.strip()] removes. *)
Definition isspace (c : N) : bool :=
  ((9 <=? c) && (c <=? 13) || (28 <=? c) && (c <=? 32)
   || (c =? 133) || (c =? 160) || (c =? 5760)
   || (8192 <=? c) && (c <=? 8202)
   || (c =? 8232) || (c =? 8233) || (c =? 8239) || (c =? 8287) || (c =? 12288))%N.

Definition LF : N := 10.
Definition SPACE : N := 32.
Definition LPAREN : N := 40.
Definition RPAREN : N := 41.
Definition COLON : N := 58.
Definition LBRACKET : N := 91.
Definition RBRACKET : N := 93.
Definition ETHIOPIC_WORDSPACE : N := 4961.  (* the character in [r'፡'] *)

Fixpoint take_while (f : N → bool) (s : str) : str :=
  match s with
  | c :: s' => if f c then c :: take_while f s' else []
  | [] => []
  end.

Fixpoint drop_while (f : N → bool) (s : str) : str :=
  match s with
  | c :: s' => if f c then drop_while f s' else s
  | [] => []
  end.

Definition lstrip (s : str) : str := drop_while isspace s.
Definition rstrip (s : str) : str := reverse (drop_while isspace (reverse s)).

(** [s.strip()] *)
Definition strip (s : str) : str := rstrip (lstrip s).

(** [re.sub(pattern, repl, s)] for a pattern that never matches the empty
    string.  [m prev rest] is the length of the match of the pattern at the
    current position, where [rest] is the text from that position on and
    [prev] the character before it; the scan goes left to right and resumes
    after each match.  Every turn consumes a character, so [length s] turns
    are enough (see [re_sub_loop_turns]). *)
Fixpoint re_sub_loop (turns : nat) (m : option N → str → option nat) (repl : str)
    (prev : option N) (s : str) : str :=
  match turns, s with
  | S turns', c :: s' =>
      match m prev s with
      | Some len =>
          repl ++ re_sub_loop turns' m repl (last (take len s)) (drop len s)
      | None => c :: re_sub_loop turns' m repl (Some c) s'
      end
  | _, _ => s
  end.

Definition re_sub (m : option N → str → option nat) (repl : str) (s : str) : str :=
  re_sub_loop (length s) m repl None s.

(** A scanner that never matches the empty string. *)
Definition consuming (m : option N → str → option nat) : Prop :=
  ∀ prev rest len, m prev rest = Some len → 0 < len.

(** The text between an opening delimiter just read and the first closing
    delimiter, for [.*?]: [.] does not match a line feed. *)
Definition lazy_body (close : N) (r : str) : option str :=
  let body := take_while (λ x, negb (x =? close)%N && negb (x =? LF)%N) r in
  match drop (length body) r with
  | d :: _ => if (d =? close)%N then Some body else None
  | [] => None
  end.

(** The same for a negated class such as [[^)]*], which matches line feeds. *)
Definition class_body (close : N) (r : str) : option str :=
  let body := take_while (λ x, negb (x =? close)%N) r in
  match drop (length body) r with
  | _ :: _ => Some body
  | [] => None
  end.

(** [\s*OPEN body CLOSE\s*] at the current position. *)
Definition match_delimited (body_of : N → str → option str) (open close : N)
    (_ : option N) (rest : str) : option nat :=
  let ws := take_while isspace rest in
  match drop (length ws) rest with
  | c :: r =>
      if (c =? open)%N then
        match body_of close r with
        | Some body =>
            Some (length ws + 1 + length body + 1
                  + length (take_while isspace (drop (S (length body)) r)))
        | None => None
        end
      else None
  | [] => None
  end.

(** [re.search(r'OPEN(.*?)CLOSE', s)], group 1 of the leftmost match. *)
Fixpoint search_group (open close : N) (s : str) : option str :=
  match s with
  | [] => None
  | c :: r =>
      if (c =? open)%N then
        match lazy_body close r with
        | Some body => Some body
        | None => search_group open close r
        end
      else search_group open close r
  end.

(** [\s*:\s*] at the current position. *)
Definition match_colon (_ : option N) (rest : str) : option nat :=
  let ws := take_while isspace rest in
  match drop (length ws) rest with
  | c :: r =>
      if (c =? COLON)%N then Some (length ws + 1 + length (take_while isspace r)) else None
  | [] => None
  end.

(** [\s+] at the current position. *)
Definition match_spaces (_ : option N) (rest : str) : option nat :=
  match take_while isspace rest with
  | [] => None
  | ws => Some (length ws)
  end.

Section WithUnicode.
Context {U : UnicodeData}.

(** [\b\d+\s*:\s*] at the current position. *)
Definition match_volume (prev : option N) (rest : str) : option nat :=
  let prev_word := match prev with Some p => is_word p | None => false end in
  let cur_word := match rest with c :: _ => is_word c | [] => false end in
  if xorb prev_word cur_word then
    match take_while is_digit rest with
    | [] => None
    | digits =>
        match match_colon None (drop (length digits) rest) with
        | Some len => Some (length digits + len)
        | None => None
        end
    end
  else None.

(** [re.sub(r'[^\w\s]', ' ', s)] *)
Definition blank_punctuation (s : str) : str :=
  (λ c, if is_word c || isspace c then c else SPACE) <$> s.

End WithUnicode.

(** [re.sub(r'፡', ':', s)] *)
Definition replace_wordspace (s : str) : str :=
  (λ c, if (c =? ETHIOPIC_WORDSPACE)%N then COLON else c) <$> s.

(** The Unicode tables restricted to ASCII text, for the examples: on code
    points below 128 both normal forms leave the text as it is, [lower]
    touches the 26 capital letters only, [\w] is [[A-Za-z0-9_]] and [\d] is
    [[0-9]]. *)
Definition ascii_lower_char (c : N) : N :=
  if ((65 <=? c) && (c <=? 90))%N then (c + 32)%N else c.

Definition ascii_tables : UnicodeData := {|
  str_lower := fmap ascii_lower_char;
  normalize_NFKC := id;
  normalize_NFD := id;
  is_word := λ c, ((48 <=? c) && (c <=? 57) || (65 <=? c) && (c <=? 90)
                   || (c =? 95) || (97 <=? c) && (c <=? 122))%N;
  is_digit := λ c, ((48 <=? c) && (c <=? 57))%N
|}.

End Text.

(** ** rym_genre_hierarchy.py *)

Module Hierarchy.

(** A value found where the taxonomy document should hold a genre node: a
    JSON object whose ['name'] and ['children'] members may be absent, or a
    value that is not an object at all.  [children = None] stands for a
    missing or falsy ['children'] member. *)
#[warnings="-register-all"]
Inductive node : Type :=
  | Obj (name : option str) (children : option (list node))
  | NotObj.

(** What [json.load] and the subscript [data['genreHierarchy']] find. *)
Inductive taxonomy_file : Type :=
  | Missing                              (* os.path.exists is False *)
  | Unparsable                           (* json.load raises *)
  | Parsed (root : option (list node)).  (* None: no 'genreHierarchy' key *)

Inductive outcome : Type := Done | Raised.

(** The three attributes of [RYMGenreHierarchy] that the methods touch. *)
Record index : Type := Index {
  genre_to_parents : gmap str (gset (list str));
  all_genres : gset str;
  excluded_genres : gset str
}.

Definition empty_index : index := Index ∅ ∅ ∅.

(** [self.all_genres.add(genre_name)] *)
Definition register (g : str) (h : index) : index :=
  Index (genre_to_parents h) ({[ g ]} ∪ all_genres h) (excluded_genres h).

(** [if genre_name not in self.genre_to_parents: self.genre_to_parents[genre_name] = set()] *)
Definition ensure_entry (g : str) (h : index) : index :=
  match genre_to_parents h !! g with
  | Some _ => h
  | None => Index (<[ g := ∅ ]> (genre_to_parents h)) (all_genres h) (excluded_genres h)
  end.

(** [self.genre_to_parents[genre_name].add(ancestor_path)]; the entry exists
    when this runs, a missing key would be a [KeyError]. *)
Definition add_path (g : str) (p : list str) (h : index) : index :=
  Index (alter (λ s, {[ p ]} ∪ s) g (genre_to_parents h)) (all_genres h) (excluded_genres h).

(** [for i in range(len(parent_path)): ... add(tuple(parent_path[:i+1]))] *)
Definition add_ancestor_paths (g : str) (parent_path : list str) (h : index) : index :=
  foldl (λ h' i, add_path g (take (S i) parent_path) h') h (seq 0 (length parent_path)).

(** The body of the [for node in nodes] loop of [_parse_tree], and the loop
    itself on the children.  A node without ['name'], or that is not an
    object, raises at [node['name']]; everything registered before stays. *)
Fixpoint parse_node (parent_path : list str) (n : node) (h : index) {struct n}
  : outcome * index :=
  match n with
  | NotObj => (Raised, h)
  | Obj None _ => (Raised, h)
  | Obj (Some genre_name) children =>
      let current_path := parent_path ++ [genre_name] in
      let h1 := register genre_name h in
      let h2 := ensure_entry genre_name h1 in
      let h3 := add_ancestor_paths genre_name parent_path h2 in
      match children with
      | Some ((_ :: _) as kids) =>
          (fix loop (ns : list node) (h' : index) {struct ns} : outcome * index :=
             match ns with
             | [] => (Done, h')
             | k :: ns' =>
                 match parse_node current_path k h' with
                 | (Done, h'') => loop ns' h''
                 | (Raised, h'') => (Raised, h'')
                 end
             end) kids h3
      | _ => (Done, h3)
      end
  end.

(** [_parse_tree(nodes, parent_path)] *)
Fixpoint parse_tree (nodes : list node) (parent_path : list str) (h : index)
  : outcome * index :=
  match nodes with
  | [] => (Done, h)
  | n :: nodes' =>
      match parse_node parent_path n h with
      | (Done, h') => parse_tree nodes' parent_path h'
      | (Raised, h') => (Raised, h')
      end
  end.

(** [try: body except Exception: print(...)]: the exception is swallowed,
    the state is whatever the body left. *)
Definition try_except (r : outcome * index) : outcome * index := (Done, r.2).

(** [load_hierarchy] *)
Definition load_hierarchy (f : taxonomy_file) (h : index) : outcome * index :=
  match f with
  | Missing => (Done, h)
  | Unparsable => try_except (Raised, h)
  | Parsed None => try_except (Raised, h)
  | Parsed (Some nodes) => try_except (parse_tree nodes [] h)
  end.

(** [load_excluded_genres]: [None] when reading the exclusion document
    failed, otherwise its ['excluded_meta_genres'] list. *)
Definition load_excluded_genres (excl : option (list str)) (h : index) : index :=
  Index (genre_to_parents h) (all_genres h)
        (match excl with Some l => list_to_set l | None => ∅ end).

(** [RYMGenreHierarchy.__init__] *)
Definition build (excl : option (list str)) (f : taxonomy_file) : outcome * index :=
  load_hierarchy f (load_excluded_genres excl empty_index).

(** [get_all_parent_genres] *)
Definition get_all_parent_genres (h : index) (genre_name : str) : gset str :=
  match genre_to_parents h !! genre_name with
  | None => ∅
  | Some paths => ⋃ (list_to_set <$> elements paths)
  end.

(** One turn of the loop of [expand_genres_hierarchically]. *)
Definition expand_step (h : index) (expanded : gset str) (genre : str) : gset str :=
  if decide (genre ∈ all_genres h) then
    let expanded1 :=
      if decide (genre ∈ excluded_genres h) then expanded else {[ genre ]} ∪ expanded in
    filter (λ parent, parent ∉ excluded_genres h) (get_all_parent_genres h genre) ∪ expanded1
  else
    if decide (genre ∈ excluded_genres h) then expanded else {[ genre ]} ∪ expanded.

(** [expand_genres_hierarchically] *)
Definition expand_genres_hierarchically (h : index) (genres : list str) : gset str :=
  foldl (expand_step h) ∅ genres.

(** A forest in which every node is an object with a name. *)
Fixpoint well_formed (n : node) : bool :=
  match n with
  | NotObj => false
  | Obj None _ => false
  | Obj (Some _) None => true
  | Obj (Some _) (Some kids) => forallb well_formed kids
  end.

(** Every name of every stored ancestor path is a registered genre. *)
Definition paths_registered (h : index) : Prop :=
  ∀ g paths p a, genre_to_parents h !! g = Some paths → p ∈ paths → a ∈ p → a ∈ all_genres h.

(** Induction on taxonomy nodes that reaches the children. *)
Fixpoint node_ind' (P : node → Prop)
    (HN : P NotObj)
    (HO : ∀ name children,
        (∀ kids, children = Some kids → Forall P kids) → P (Obj name children))
    (n : node) {struct n} : P n :=
  match n with
  | NotObj => HN
  | Obj name children =>
      HO name children
        (match children as c return ∀ kids, c = Some kids → Forall P kids with
         | None => λ kids E, match E with end
         | Some l => λ kids E,
             match E in _ = o return match o with Some k => Forall P k | None => True end with
             | eq_refl =>
                 (fix go (l : list node) : Forall P l :=
                    match l with
                    | [] => Forall_nil_2 P
                    | k :: l' => Forall_cons_2 P k l' (node_ind' P HN HO k) (go l')
                    end) l
             end
         end)
  end.

(** [is_valid_genre] *)
Definition is_valid_genre (h : index) (genre_name : str) : bool :=
  bool_decide (genre_name ∈ all_genres h).

(** [is_excluded_genre] *)
Definition is_excluded_genre (h : index) (genre_name : str) : bool :=
  bool_decide (genre_name ∈ excluded_genres h).

(** [filter_valid_genres]: the pair [(valid, invalid)]. *)
Definition filter_valid_genres (h : index) (genres : list str) : list str * list str :=
  foldl (λ (acc : list str * list str) genre,
           if is_valid_genre h genre then (acc.1 ++ [genre], acc.2)
           else (acc.1, acc.2 ++ [genre]))
        ([], []) genres.

(** [filter_excluded_genres]: the pair [(included, excluded)]. *)
Definition filter_excluded_genres (h : index) (genres : list str) : list str * list str :=
  foldl (λ (acc : list str * list str) genre,
           if is_excluded_genre h genre then (acc.1, acc.2 ++ [genre])
           else (acc.1 ++ [genre], acc.2))
        ([], []) genres.

(** [get_genre_paths]; the order of the result is the iteration order of
    the set of tuples, which Python leaves open. *)
Definition get_genre_paths (h : index) (genre_name : str) : list (list str) :=
  match genre_to_parents h !! genre_name with
  | None => []
  | Some paths => (λ path_tuple, path_tuple ++ [genre_name]) <$> elements paths
  end.

(** The nodes of a forest that carry a name, each with the names of the
    nodes above it, from the root down; the walk stops below a node that has
    no name. *)
Fixpoint occurrences_node (path : list str) (n : node) : list (list str * str) :=
  match n with
  | Obj (Some g) children =>
      (path, g) ::
      match children with
      | Some kids => flat_map (occurrences_node (path ++ [g])) kids
      | None => []
      end
  | _ => []
  end.

Definition occurrences (path : list str) (nodes : list node) : list (list str * str) :=
  flat_map (occurrences_node path) nodes.

(** [parent_path[:1]], ..., [parent_path] *)
Definition nonempty_prefixes (parent_path : list str) : list (list str) :=
  (λ i, take (S i) parent_path) <$> seq 0 (length parent_path).

(** The set of tuples stored for a genre, empty when it has no key. *)
Definition stored_paths (h : index) (g : str) : gset (list str) :=
  default ∅ (genre_to_parents h !! g).

(** [h'] is [h] with the nodes [occ] visited: their names registered, a
    key for each, and every non-empty prefix of their ancestor paths stored. *)
Definition extended_by (occ : list (list str * str)) (h h' : index) : Prop :=
  (∀ x, x ∈ all_genres h' ↔ x ∈ all_genres h ∨ ∃ P, (P, x) ∈ occ)
  ∧ (∀ g, is_Some (genre_to_parents h' !! g) ↔
          is_Some (genre_to_parents h !! g) ∨ ∃ P, (P, g) ∈ occ)
  ∧ (∀ g p, p ∈ stored_paths h' g ↔
            p ∈ stored_paths h g ∨ ∃ P, (P, g) ∈ occ ∧ p ∈ nonempty_prefixes P)
  ∧ excluded_genres h' = excluded_genres h.

(** No stored ancestor tuple is empty. *)
Definition tuples_nonempty (h : index) : Prop :=
  ∀ g paths, genre_to_parents h !! g = Some paths → [] ∉ paths.

(** The keys of the ancestor map are known genres. *)
Definition keys_registered (h : index) : Prop :=
  ∀ g, is_Some (genre_to_parents h !! g) → g ∈ all_genres h.

End Hierarchy.

(** ** rym_genres.py: the grouping tag *)

Module Resolver.
Import Hierarchy.

(** Python's [<=] on [str]: lexicographic on code points. *)
Definition str_le (x y : str) : Prop := x = y ∨ lexico x y.

Global Instance str_le_dec (x y : str) : Decision (str_le x y) := _.

(** [sorted(list(s))] for a set of strings. *)
Definition sorted (s : gset str) : list str := merge_sort str_le (elements s).

(** The configuration values read by [_get_parent_genres]. *)
Record config : Type := Config {
  use_hierarchy : bool;
  max_groupings : Z
}.

(** [_load_genre_hierarchy]: the attribute [self.genre_hierarchy] after the
    call.  [class_imported] is false when the import of the hierarchy module
    failed and left [RYMGenreHierarchy = None]. *)
Definition load_genre_hierarchy (cfg : config) (class_imported : bool)
    (excl : option (list str)) (tax : taxonomy_file)
    (genre_hierarchy : option index) : option index :=
  if bool_decide (is_Some genre_hierarchy) || negb (use_hierarchy cfg) || negb class_imported
  then genre_hierarchy
  else Some (build excl tax).2.

(** One turn of [for genre in genres], on the pair
    [(all_parents, top_level_genres)]. *)
Definition collect_step (h : index) (acc : gset str * gset str) (genre : str)
  : gset str * gset str :=
  let parents := get_all_parent_genres h genre in
  if decide (parents = ∅) then (acc.1, {[ genre ]} ∪ acc.2)
  else (parents ∪ acc.1, acc.2).

(** [parent_list], the sorted list before it is cut to [max_groupings]. *)
Definition parent_list (h : index) (genres : list str) : list str :=
  let '(all_parents, top_level_genres) := foldl (collect_step h) (∅, ∅) genres in
  let all_parents1 := all_parents ∖ list_to_set genres in
  let all_parents2 := all_parents1 ∪ top_level_genres in
  let all_parents3 := all_parents2 ∖ excluded_genres h in
  sorted all_parents3.

(** [_get_parent_genres], with [genre_hierarchy] the attribute as
    [_load_genre_hierarchy] left it. *)
Definition get_parent_genres (cfg : config) (genre_hierarchy : option index)
    (genres : list str) : list str :=
  if negb (use_hierarchy cfg) || bool_decide (genres = []) then []
  else
    match genre_hierarchy with
    | None => []
    | Some h =>
        let l := parent_list h genres in
        if (0 <? max_groupings cfg)%Z then take (Z.to_nat (max_groupings cfg)) l else l
    end.

End Resolver.

(** ** difflib.SequenceMatcher(None, a, b).ratio()

    The matcher that [similarity] calls.  It belongs to Python's standard
    library, not to the repository; the definitions follow [Lib/difflib.py]
    of CPython, with the defaults the call leaves in place: no junk predicate
    ([isjunk = None], so [bjunk] is empty and the two junk-extension loops of
    [find_longest_match] never run) and [autojunk = True]. *)

Module Difflib.

(** [__chain_b], first loop: [b2j[elt]] is the list of the positions of
    [elt] in [b], in increasing order. *)
Definition index_elements (b : str) : gmap N (list nat) :=
  foldl (λ (b2j : gmap N (list nat)) (ie : nat * N),
           <[ ie.2 := default [] (b2j !! ie.2) ++ [ie.1] ]> b2j)
        ∅ (imap pair b).

(** [__chain_b], the autojunk purge: when [b] has 200 elements or more, the
    elements that occur more than [n // 100 + 1] times are removed from
    [b2j]. *)
Definition chain_b (b : str) : gmap N (list nat) :=
  let b2j := index_elements b in
  let n := length b in
  if 200 <=? n then
    let ntest := n / 100 + 1 in
    filter (λ kv : N * list nat, ¬ (ntest < length kv.2)) b2j
  else b2j.

(** A match [(besti, bestj, bestsize)]. *)
Record Match : Type := mkMatch { m_a : nat; m_b : nat; m_size : nat }.

(** [j2len.get(j-1, 0)]: no key is negative, so the lookup at [-1] is 0. *)
Definition j2len_get_pred (j2len : gmap nat nat) (j : nat) : nat :=
  match j with
  | 0 => 0
  | S j' => default 0 (j2len !! j')
  end.

(** The inner loop [for j in b2j.get(a[i], nothing)] of
    [find_longest_match]; [continue] skips the index, [break] leaves the
    loop.  [i - k + 1] is written [i + 1 - k]: [k] never exceeds [i + 1]. *)
Fixpoint scan_row (i blo bhi : nat) (j2len : gmap nat nat) (js : list nat)
    (newj2len : gmap nat nat) (best : Match) : gmap nat nat * Match :=
  match js with
  | [] => (newj2len, best)
  | j :: js' =>
      if j <? blo then scan_row i blo bhi j2len js' newj2len best
      else if bhi <=? j then (newj2len, best)
      else
        let k := j2len_get_pred j2len j + 1 in
        scan_row i blo bhi j2len js' (<[ j := k ]> newj2len)
          (if m_size best <? k then mkMatch (i + 1 - k) (j + 1 - k) k else best)
  end.

(** The outer loop [for i in range(alo, ahi)], on [(j2len, best)].  The
    ranges never leave [a], so [a[i]] is always there. *)
Definition scan_rows (a : str) (b2j : gmap N (list nat)) (blo bhi : nat)
    (rows : list nat) (st : gmap nat nat * Match) : gmap nat nat * Match :=
  foldl (λ st i,
           match a !! i with
           | Some ai => scan_row i blo bhi st.1 (default [] (b2j !! ai)) ∅ st.2
           | None => st
           end) st rows.

(** First extension loop: [while besti > alo and bestj > blo and
    a[besti-1] == b[bestj-1]]. *)
Fixpoint extend_back (a b : str) (alo blo : nat) (besti bestj bestsize : nat)
    {struct besti} : Match :=
  match besti, bestj with
  | S i', S j' =>
      if (alo <? besti) && (blo <? bestj) && bool_decide (a !! i' = b !! j')
      then extend_back a b alo blo i' j' (S bestsize)
      else mkMatch besti bestj bestsize
  | _, _ => mkMatch besti bestj bestsize
  end.

(** Second extension loop: [while besti+bestsize < ahi and bestj+bestsize <
    bhi and a[besti+bestsize] == b[bestj+bestsize]].  It runs at most
    [ahi - (besti + bestsize)] times, which is the value given to [turns]. *)
Fixpoint extend_forward (turns : nat) (a b : str) (ahi bhi : nat)
    (besti bestj bestsize : nat) : Match :=
  match turns with
  | 0 => mkMatch besti bestj bestsize
  | S turns' =>
      if (besti + bestsize <? ahi) && (bestj + bestsize <? bhi)
         && bool_decide (a !! (besti + bestsize) = b !! (bestj + bestsize))
      then extend_forward turns' a b ahi bhi besti bestj (S bestsize)
      else mkMatch besti bestj bestsize
  end.

(** [find_longest_match(alo, ahi, blo, bhi)] *)
Definition find_longest_match (a b : str) (b2j : gmap N (list nat))
    (alo ahi blo bhi : nat) : Match :=
  let best := (scan_rows a b2j blo bhi (seq alo (ahi - alo)) (∅, mkMatch alo blo 0)).2 in
  let back := extend_back a b alo blo (m_a best) (m_b best) (m_size best) in
  extend_forward (ahi - (m_a back + m_size back)) a b ahi bhi
    (m_a back) (m_b back) (m_size back).

(** The sum of the sizes of the blocks that [get_matching_blocks] collects
    for the range [(alo, ahi, blo, bhi)]: the longest match there, then the
    ranges to its left and to its right.  Every range handed on is strictly
    shorter on the [a] side, so [depth = S (ahi - alo)] levels are enough
    (see [matching_size_depth]). *)
Fixpoint matching_size (depth : nat) (a b : str) (b2j : gmap N (list nat))
    (alo ahi blo bhi : nat) : nat :=
  match depth with
  | 0 => 0
  | S depth' =>
      let x := find_longest_match a b b2j alo ahi blo bhi in
      let i := m_a x in let j := m_b x in let k := m_size x in
      if k =? 0 then 0
      else
        k + (if (alo <? i) && (blo <? j)
             then matching_size depth' a b b2j alo i blo j else 0)
          + (if (i + k <? ahi) && (j + k <? bhi)
             then matching_size depth' a b b2j (i + k) ahi (j + k) bhi else 0)
  end.

(** [sum(triple[-1] for triple in self.get_matching_blocks())] *)
Definition matches (a b : str) : nat :=
  matching_size (S (length a)) a b (chain_b b) 0 (length a) 0 (length b).

(** [_calculate_ratio(matches, length)], as an exact quotient. *)
Definition calculate_ratio (matches length : nat) : Q :=
  match length with
  | 0 => 1
  | S _ => Qmake (2 * Z.of_nat matches) (Pos.of_nat length)
  end.

(** [SequenceMatcher(None, a, b).ratio()] *)
Definition ratio (a b : str) : Q :=
  calculate_ratio (matches a b) (length a + length b).

End Difflib.

(** ** rym_genres.py: matching a release *)

Module Matcher.
Import Text Difflib.

Section WithUnicode.
Context {U : UnicodeData}.

(** [similarity(a, b)] *)
Definition similarity (a b : str) : Q :=
  let a_norm := normalize_NFKC (str_lower a) in
  let b_norm := normalize_NFKC (str_lower b) in
  ratio a_norm b_norm.

(** [variations.append(x)] followed by the append of its NFKC form when that
    form differs. *)
Definition with_normalized (x : str) : list str :=
  let x_norm := normalize_NFKC x in
  if bool_decide (x_norm ≠ x) then [x; x_norm] else [x].

(** [if cleaned and cleaned != name: append cleaned and its NFKC form] *)
Definition cleaned_variant (name cleaned : str) : list str :=
  if bool_decide (cleaned ≠ []) && bool_decide (cleaned ≠ name)
  then with_normalized cleaned else [].

(** [if match: alt_name = match.group(1).strip(); if alt_name: ...] *)
Definition alternate_name (found : option str) : list str :=
  match found with
  | Some group1 =>
      let alt_name := strip group1 in
      if bool_decide (alt_name ≠ []) then with_normalized alt_name else []
  | None => []
  end.

(** The NFD form, when it differs from the name and from its NFKC form. *)
Definition decomposed_variant (name : str) : list str :=
  let nfd_normalized := normalize_NFD name in
  if bool_decide (nfd_normalized ≠ name) && bool_decide (nfd_normalized ≠ normalize_NFKC name)
  then [nfd_normalized] else [].

(** The list [variations] of [_get_artist_variations] when the final loop
    starts. *)
Definition artist_candidates (artist_name : str) : list str :=
  let normalized := normalize_NFKC artist_name in
  [artist_name]
  ++ (if bool_decide (normalized ≠ artist_name) then [normalized] else [])
  ++ cleaned_variant artist_name
       (strip (re_sub (match_delimited lazy_body LBRACKET RBRACKET) [] artist_name))
  ++ cleaned_variant artist_name
       (strip (re_sub (match_delimited lazy_body LPAREN RPAREN) [] artist_name))
  ++ alternate_name (search_group LBRACKET RBRACKET artist_name)
  ++ alternate_name (search_group LPAREN RPAREN artist_name)
  ++ decomposed_variant artist_name.

(** The list [variations] of [_get_album_variations] when the final loop
    starts. *)
Definition album_candidates (album_title : str) : list str :=
  let normalized := normalize_NFKC album_title in
  let normalized_punct :=
    strip (re_sub match_spaces [SPACE]
             (re_sub match_colon [COLON; SPACE] (replace_wordspace album_title))) in
  let volume_removed := re_sub match_volume [COLON; SPACE] album_title in
  let minimal := strip (re_sub match_spaces [SPACE] (blank_punctuation album_title)) in
  [album_title]
  ++ (if bool_decide (normalized ≠ album_title) then [normalized] else [])
  ++ cleaned_variant album_title
       (strip (re_sub (match_delimited class_body LPAREN RPAREN) [] album_title))
  ++ cleaned_variant album_title
       (strip (re_sub (match_delimited class_body LBRACKET RBRACKET) [] album_title))
  ++ alternate_name (search_group LBRACKET RBRACKET album_title)
  ++ (if bool_decide (normalized_punct ≠ album_title)
      then with_normalized normalized_punct else [])
  ++ (if bool_decide (volume_removed ≠ album_title)
      then with_normalized volume_removed else [])
  ++ cleaned_variant album_title minimal
  ++ decomposed_variant album_title.

End WithUnicode.

(** One turn of the final loop, on [(seen, result)]. *)
Definition keep_new (st : gset str * list str) (var : str) : gset str * list str :=
  let var_clean := strip var in
  if bool_decide (var_clean ≠ []) && bool_decide (var_clean ∉ st.1)
  then ({[ var_clean ]} ∪ st.1, st.2 ++ [var_clean])
  else st.

(** "Remove empty strings and duplicates while preserving order". *)
Definition clean_variations (variations : list str) : list str :=
  (foldl keep_new (∅, []) variations).2.

(** What the final loop is there for, between the list [cands] it reads
    and the list [out] it returns: no entry of [out] is empty after
    trimming; no two are equal; every entry is trimmed; the entries are the
    trimmed candidates that are not empty; and an entry is preceded in [out]
    by exactly the non-empty trimmed candidates that occur before its first
    occurrence. *)
Definition cleaned (cands out : list str) : Prop :=
  (∀ e, e ∈ out → strip e ≠ [])
  ∧ NoDup out
  ∧ (∀ e, e ∈ out →
       strip e = e
       ∧ (∀ c, head e = Some c → isspace c = false)
       ∧ (∀ c, last e = Some c → isspace c = false))
  ∧ (∀ e, e ∈ out ↔ e ∈ strip <$> cands ∧ e ≠ [])
  ∧ (∀ l1 x l2, strip <$> cands = l1 ++ x :: l2 → x ∉ l1 → x ≠ [] →
       ∃ o1 o2, out = o1 ++ x :: o2 ∧ ∀ y, y ∈ o1 ↔ (y ∈ l1 ∧ y ≠ [])).

Section WithUnicode.
Context {U : UnicodeData}.

(** [_get_artist_variations] *)
Definition get_artist_variations (artist_name : str) : list str :=
  clean_variations (artist_candidates artist_name).

(** [_get_album_variations] *)
Definition get_album_variations (album_title : str) : list str :=
  clean_variations (album_candidates album_title).

End WithUnicode.

(** A catalog record; a member that is missing reads as the empty string or
    the empty list, as [release_data.get(key, default)] does. *)
Record release : Type := Release {
  artistName : str;
  releaseTitle : str;
  genres : list str;
  secondaryGenres : list str;
  descriptors : list str
}.

(** [self.rym_data]: artist key to album key to record, in the iteration
    order of the dictionaries.  [None] is a value that is not a [dict]. *)
Definition catalog : Type := list (str * option (list (str * option release))).

(** The records the two nested loops reach, in order, after the two
    [isinstance] tests and the test on the two names. *)
Definition scanned (rym_data : catalog) : list release :=
  artist_data ← rym_data;
  albums ← option_list artist_data.2;
  item ← albums;
  release_data ← option_list item.2;
  if bool_decide (artistName release_data = []) || bool_decide (releaseTitle release_data = [])
  then [] else [release_data].

Definition Qltb (x y : Q) : bool := negb (Qle_bool y x).

(** [max(best, score)] *)
Definition best_of (scores : list Q) : Q := foldl Qmax 0%Q scores.

(** The configuration values read by [_find_rym_release]. *)
Record config : Type := Config {
  similarity_threshold : Q;
  flexible_artist_matching : bool;
  title_match_threshold : Q
}.

(** The two branches that may adopt [release_data], on
    [(best_match, best_score)]. *)
Definition adopt (cfg : config) (best_artist_score best_title_score : Q)
    (release_data : release) (st : option release * Q) : option release * Q :=
  let threshold := similarity_threshold cfg in
  let combined_score := ((best_artist_score + best_title_score) / 2)%Q in
  if Qltb st.2 combined_score && Qle_bool threshold combined_score then
    (Some release_data, combined_score)
  else if flexible_artist_matching cfg
          && Qle_bool (title_match_threshold cfg) best_title_score
          && Qltb best_artist_score threshold then
    if Qltb st.2 combined_score then (Some release_data, combined_score) else st
  else st.

(** [combined_score] of a record from its pair of scores. *)
Definition mean_score (s : Q * Q) : Q := ((s.1 + s.2) / 2)%Q.

(** A pair of scores that passes one of the two tests of
    [_find_rym_release]: the combined score reaches the threshold, or
    flexible matching is on, the title score reaches its own threshold and
    the artist score is below the threshold. *)
Definition eligible (cfg : config) (s : Q * Q) : Prop :=
  (similarity_threshold cfg <= mean_score s)%Q
  ∨ (flexible_artist_matching cfg = true
     ∧ (title_match_threshold cfg <= s.2)%Q
     ∧ (s.1 < similarity_threshold cfg)%Q).

(** What holds of [(best_match, best_score)] once the records [seen] were
    scanned: the score is an upper bound of the combined scores of the
    eligible records, and the match, if any, is the first eligible record
    that reaches it. *)
Definition best_so_far (cfg : config) (scores : release → Q * Q) (seen : list release)
    (st : option release * Q) : Prop :=
  (0 <= st.2)%Q
  ∧ (∀ r, r ∈ seen → eligible cfg (scores r) → (mean_score (scores r) <= st.2)%Q)
  ∧ match st.1 with
    | None => st.2 = 0%Q
    | Some r =>
        ∃ before after,
          seen = before ++ r :: after
          ∧ eligible cfg (scores r)
          ∧ st.2 = mean_score (scores r)
          ∧ (0 < st.2)%Q
          ∧ (∀ r', r' ∈ before → eligible cfg (scores r') →
                   (mean_score (scores r') < mean_score (scores r))%Q)
    end.

(** The scan of the catalog for given scores of each record. *)
Definition scan (cfg : config) (scores : release → Q * Q) (st : option release * Q)
    (releases : list release) : option release * Q :=
  foldl (λ st release_data,
           adopt cfg (scores release_data).1 (scores release_data).2 release_data st)
        st releases.

Definition best_release (cfg : config) (scores : release → Q * Q) (rym_data : catalog)
  : option release * Q :=
  scan cfg scores (None, 0%Q) (scanned rym_data).

Section WithUnicode.
Context {U : UnicodeData}.

(** [best_artist_score]: the query artist, lower-cased, against every
    variation of the record's artist. *)
Definition best_artist_score (artist : str) (rym_artist_raw : str) : Q :=
  let artist_lower := str_lower artist in
  best_of ((λ rym_artist, similarity artist_lower (str_lower rym_artist))
             <$> get_artist_variations rym_artist_raw).

(** [best_title_score]: every variation of the query title against every
    variation of the record's title. *)
Definition best_title_score (album_title : str) (rym_title_raw : str) : Q :=
  best_of (album_var ← get_album_variations album_title;
           (λ rym_title_var, similarity (str_lower album_var) (str_lower rym_title_var))
             <$> get_album_variations rym_title_raw).

Definition release_scores (artist album_title : str) (release_data : release) : Q * Q :=
  (best_artist_score artist (artistName release_data),
   best_title_score album_title (releaseTitle release_data)).

Definition combined_score (artist album_title : str) (release_data : release) : Q :=
  ((best_artist_score artist (artistName release_data)
    + best_title_score album_title (releaseTitle release_data)) / 2)%Q.

(** The artist score as the documentation of the matcher words it: the best
    similarity over the variations of the query artist and the variations of
    the record's artist. *)
Definition cross_product_artist_score (artist : str) (rym_artist_raw : str) : Q :=
  best_of (artist_var ← get_artist_variations artist;
           (λ rym_artist, similarity (str_lower artist_var) (str_lower rym_artist))
             <$> get_artist_variations rym_artist_raw).

(** [_find_rym_release], with the score of the record returned. *)
Definition find_rym_release (cfg : config) (rym_data : catalog) (artist album_title : str)
  : option release * Q :=
  best_release cfg (release_scores artist album_title) rym_data.

End WithUnicode.

End Matcher.

(** ** rym_genres.py: the tag strings *)

Module Tags.
Import Text Matcher.

Definition SEMICOLON : N := 59.

(** The separator of ['; '.join(...)]. *)
Definition separator : str := [SEMICOLON; SPACE].

(** [sep.join(values)] *)
Fixpoint join (sep : str) (values : list str) : str :=
  match values with
  | [] => []
  | [x] => x
  | x :: rest => x ++ sep ++ join sep rest
  end.

(** [s.split(c)] for a separator of one character. *)
Fixpoint split_on (c : N) (s : str) : list str :=
  match s with
  | [] => [[]]
  | x :: s' =>
      if decide (x = c) then [] :: split_on c s'
      else match split_on c s' with
           | w :: ws => (x :: w) :: ws
           | [] => [[x]]
           end
  end.

(** The configured maxima. *)
Record limits : Type := Limits {
  max_genres : Z;
  max_secondary_genres : Z;
  max_descriptors : Z
}.

(** The four tag strings of an album; a missing or empty attribute reads as
    the empty string, as [getattr(album, name, '') or ''] does. *)
Record album_tags : Type := AlbumTags {
  genre : str;
  secondary_genre : str;
  descriptor : str;
  grouping : str
}.

(** [values and max > 0] *)
Definition applies (values : list str) (max : Z) : bool :=
  bool_decide (values ≠ []) && (0 <? max)%Z.

(** ['; '.join(values[:max])] *)
Definition joined (values : list str) (max : Z) : str :=
  join separator (take (Z.to_nat max) values).

(** The strings [new_genre], [new_secondary_genre], [new_descriptor] and
    [new_grouping] that the [rym] command computes for a matched release;
    [groupings] is the result of [_get_parent_genres]. *)
Definition new_tags (lim : limits) (release_data : release) (groupings : list str)
  : album_tags :=
  {| genre :=
       if applies (genres release_data) (max_genres lim)
       then joined (genres release_data) (max_genres lim) else [];
     secondary_genre :=
       if applies (secondaryGenres release_data) (max_secondary_genres lim)
       then joined (secondaryGenres release_data) (max_secondary_genres lim) else [];
     descriptor :=
       if applies (descriptors release_data) (max_descriptors lim)
       then joined (descriptors release_data) (max_descriptors lim) else [];
     grouping := if bool_decide (groupings ≠ []) then join separator groupings else [] |}.

(** [_apply_rym_tags] once the release is found: an attribute is assigned
    only when its list is not empty and its maximum is positive. *)
Definition apply_rym_tags (lim : limits) (release_data : release) (groupings : list str)
    (album : album_tags) : album_tags :=
  {| genre :=
       if applies (genres release_data) (max_genres lim)
       then joined (genres release_data) (max_genres lim) else genre album;
     secondary_genre :=
       if applies (secondaryGenres release_data) (max_secondary_genres lim)
       then joined (secondaryGenres release_data) (max_secondary_genres lim)
       else secondary_genre album;
     descriptor :=
       if applies (descriptors release_data) (max_descriptors lim)
       then joined (descriptors release_data) (max_descriptors lim) else descriptor album;
     grouping :=
       if bool_decide (groupings ≠ []) then join separator groupings else grouping album |}.

(** The test of the [rym] command that skips an album. *)
Definition up_to_date (album new : album_tags) : bool :=
  bool_decide (genre album = genre new)
  && bool_decide (secondary_genre album = secondary_genre new)
  && bool_decide (descriptor album = descriptor new)
  && bool_decide (grouping album = grouping new).

(** [[v.strip() for v in value.split(';') if v.strip()]] *)
Definition listed (value : str) : list str :=
  filter (λ v, v ≠ []) (strip <$> split_on SEMICOLON value).

(** The list that [_write_item_with_flac_arrays] stores for a non-empty
    tag string. *)
Definition flac_array (value : str) : list str :=
  if bool_decide (SEMICOLON ∈ value) then listed value else [strip value].

(** A value that survives the trip through a tag string: no semicolon
    inside, no blank at either end, not empty. *)
Definition plain (v : str) : Prop := (SEMICOLON ∉ v) ∧ strip v = v ∧ v ≠ [].

Global Instance plain_dec (v : str) : Decision (plain v) := and_dec _ _.

(** [_apply_rym_tags_to_item]: every tag of the album that is not empty is
    copied to the track; the other tags of the track are left alone. *)
Definition apply_rym_tags_to_item (item album : album_tags) : album_tags :=
  {| genre := if bool_decide (genre album ≠ []) then genre album else genre item;
     secondary_genre :=
       if bool_decide (secondary_genre album ≠ []) then secondary_genre album
       else secondary_genre item;
     descriptor :=
       if bool_decide (descriptor album ≠ []) then descriptor album else descriptor item;
     grouping :=
       if bool_decide (grouping album ≠ []) then grouping album else grouping item |}.

(** One turn of the loop over the fields in [_write_item_with_flac_arrays]:
    the assignment [flac_file[tag_name] = ...] made for a field whose value
    is a non-empty string. *)
Definition field_array (tag_name : str) (value : str) : list (str * list str) :=
  if bool_decide (value ≠ []) then [(tag_name, flac_array value)] else [].

(** The assignments that [_write_item_with_flac_arrays] makes, in order, for
    a FLAC file opened with Mutagen. *)
Definition flac_fields (item : album_tags) : list (str * list str) :=
  field_array (py "GENRE") (genre item)
  ++ field_array (py "SECONDARY_GENRE") (secondary_genre item)
  ++ field_array (py "DESCRIPTORS") (descriptor item)
  ++ field_array (py "GROUPING") (grouping item).

(** [album_imported] for an album task, on the tags: [found] is the result
    of [_find_matching_release], [gh] the hierarchy of the plugin.  The
    result is the album and its tracks as they are stored. *)
Definition album_imported (lim : limits) (cfg : Resolver.config)
    (gh : option Hierarchy.index) (found : option release)
    (album : album_tags) (items : list album_tags) : album_tags * list album_tags :=
  let album' :=
    match found with
    | Some release_data =>
        apply_rym_tags lim release_data
          (Resolver.get_parent_genres cfg gh (genres release_data)) album
    | None => album
    end in
  (album', (λ item, apply_rym_tags_to_item item album') <$> items).

End Tags.

(** ** rym_genres.py: the check of an import task *)

Module ImportHook.
Import Text Matcher.

(** The attributes of a track that the check reads; [None] is a missing
    attribute. *)
Record track : Type := Track {
  track_albumartist : option str;
  track_artist : option str;
  track_album : option str
}.

Record import_task : Type := ImportTask {
  is_album : bool;
  items : list track
}.

Definition UNKNOWN : str := py "Unknown".

(** [getattr(first_item, 'albumartist', None) or getattr(first_item, 'artist', 'Unknown')] *)
Definition task_artist (first_item : track) : str :=
  match track_albumartist first_item with
  | Some (c :: rest) => c :: rest
  | _ => default UNKNOWN (track_artist first_item)
  end.

(** [getattr(first_item, 'album', 'Unknown')] *)
Definition task_album (first_item : track) : str :=
  default UNKNOWN (track_album first_item).

Section WithUnicode.
Context `{U : UnicodeData}.

(** [on_import_task_created]: the list of tasks that go on. *)
Definition on_import_task_created (require_rym_match : bool) (cfg : config)
    (rym_data : catalog) (task : import_task) : list import_task :=
  if negb require_rym_match then [task]
  else if is_album task then
    match items task with
    | first_item :: _ =>
        match (find_rym_release cfg rym_data (task_artist first_item)
                                (task_album first_item)).1 with
        | None => []
        | Some _ => [task]
        end
    | [] => [task]
    end
  else [task].

End WithUnicode.

End ImportHook.

(** ** Vocabulary for the proofs about the matcher *)

Module MatchInvariants.
Import Difflib.

Section Range.
Variables (alo blo bhi : nat).

(** The lengths stored in [j2len] once the rows below [i] are done. *)
Definition row_ok (i : nat) (j2len : gmap nat nat) : Prop :=
  ∀ j k, j2len !! j = Some k → k ≤ i - alo ∧ k ≤ j + 1 - blo ∧ blo ≤ j ∧ j < bhi.

(** A match that starts in the range and ends at or before row [i]. *)
Definition inside (i : nat) (m : Match) : Prop :=
  alo ≤ m_a m ∧ m_a m + m_size m ≤ i ∧ blo ≤ m_b m ∧ m_b m + m_size m ≤ bhi.

End Range.

(** The positions of [c] in [b], counted from [k], in increasing order. *)
Fixpoint positions_from (k : nat) (c : N) (b : str) : list nat :=
  match b with
  | [] => []
  | x :: b' =>
      if decide (x = c) then k :: positions_from (S k) c b' else positions_from (S k) c b'
  end.

(** [a[i:i+k] == b[j:j+k]] *)
Definition agree (a b : str) (i j k : nat) : Prop :=
  ∀ t, t < k → a !! (i + t) = b !! (j + t).

Definition agree_on (a b : str) (m : Match) : Prop :=
  agree a b (m_a m) (m_b m) (m_size m).

(** Every entry [j2len[j] = k] left by row [i - 1] stands for [k] equal
    elements that end at [a[i-1]] and [b[j]]. *)
Definition runs_back (a b : str) (i : nat) (j2len : gmap nat nat) : Prop :=
  ∀ j k, j2len !! j = Some k →
         k ≤ i ∧ k ≤ S j ∧ ∀ t, t < k → a !! (i - 1 - t) = b !! (j - t).

(** [b2j] only lists positions where the element is. *)
Definition b2j_sound (b : str) (b2j : gmap N (list nat)) : Prop :=
  ∀ c js j, b2j !! c = Some js → j ∈ js → b !! j = Some c.

Section Self.
Variable s : str.

(** The element at [j] has an entry in [b2j]: it was not purged. *)
Definition kept_at (j : nat) : bool :=
  match s !! j with
  | Some c => bool_decide (is_Some (chain_b s !! c))
  | None => false
  end.

(** The length of the run of kept elements that ends at [j]. *)
Fixpoint run_kept (j : nat) : nat :=
  match j with
  | 0 => if kept_at 0 then 1 else 0
  | S j' => if kept_at (S j') then S (run_kept j') else 0
  end.

Definition prev_run (i : nat) : nat :=
  match i with 0 => 0 | S i' => run_kept i' end.

(** The state of [find_longest_match] on [(s, s)] when the rows below [i]
    are done: the best match is on the diagonal and at least as long as
    every run of kept elements seen so far. *)
Definition diag_inv (i : nat) (st : gmap nat nat * Match) : Prop :=
  (∀ j k, st.1 !! j = Some k → k ≤ run_kept j ∧ k ≤ prev_run i)
  ∧ j2len_get_pred st.1 i = prev_run i
  ∧ m_a st.2 = m_b st.2
  ∧ m_a st.2 + m_size st.2 ≤ i
  ∧ (∀ j, j < i → run_kept j ≤ m_size st.2).

(** The same inside row [i], with [rest] the indices still to visit. *)
Definition row_inv (i : nat) (rest : list nat) (st : gmap nat nat * Match) : Prop :=
  (∀ j k, st.1 !! j = Some k → k ≤ run_kept j ∧ k ≤ run_kept i)
  ∧ (i ∈ rest ∨ (st.1 !! i = Some (run_kept i) ∧ run_kept i ≤ m_size st.2))
  ∧ m_a st.2 = m_b st.2
  ∧ m_a st.2 + m_size st.2 ≤ S i
  ∧ (∀ j, j < i → run_kept j ≤ m_size st.2).

End Self.

End MatchInvariants.

(** ** The inputs of the examples *)

Module Scenarios.
Import Text Hierarchy Matcher.

(** The taxonomy of the documentation: Electronic > Ambient > Black Ambient. *)
Definition black_ambient_forest : list node :=
  [Obj (Some (py "Electronic"))
     (Some [Obj (Some (py "Ambient"))
              (Some [Obj (Some (py "Black Ambient")) None])])].

Definition black_ambient_index : index :=
  (build (Some [py "Regional Music"]) (Parsed (Some black_ambient_forest))).2.

(** A taxonomy in which Post-Rock is reached on two routes. *)
Definition two_route_forest : list node :=
  [Obj (Some (py "Rock")) (Some [Obj (Some (py "Post-Rock")) None]);
   Obj (Some (py "Experimental")) (Some [Obj (Some (py "Post-Rock")) None])].

(** A forest whose second root has no ['name']. *)
Definition half_parsed_forest : list node :=
  [Obj (Some (py "Rock")) None; Obj None None].

(** The scenario of the documentation: threshold 0.8, title threshold 0.95,
    a record scoring 0.4 on the artist and 0.97 on the title, next to a
    record scoring 0.5 and 0.6. *)
Definition flexible_cfg : config := Config (8 # 10) true (95 # 100).
Definition alias_release : release := Release (py "Alias") (py "Same Title") [] [] [].
Definition other_release : release := Release (py "Other") (py "Other Title") [] [] [].
Definition flexible_catalog : catalog :=
  [(py "k1", Some [(py "a1", Some other_release)]);
   (py "k2", None);
   (py "k3", Some [(py "a2", None); (py "a3", Some alias_release)])].
Definition flexible_scores (r : release) : Q * Q :=
  if bool_decide (artistName r = py "Alias") then (4 # 10, 97 # 100)%Q else (5 # 10, 6 # 10)%Q.

(** The record and the query of the documented scenario. *)
Definition alt_name_release : release := Release (py "Alt Name") (py "Title") [] [] [].
Definition query_artist : str := py "Artist [Alt Name]".
Definition query_title : str := py "Title (Remaster)".

End Scenarios.

(** * Properties *)

(** ** The hierarchy index *)

Section HierarchyFacts.
Import Hierarchy.

Implicit Types (h : index) (g a : str) (p path : list str) (n : node).

Lemma children_loop_parse_tree cp : ∀ (l : list node) h,
  (fix loop (ns : list node) (h' : index) {struct ns} : outcome * index :=
     match ns with
     | [] => (Done, h')
     | k :: ns' =>
         match parse_node cp k h' with
         | (Done, h'') => loop ns' h''
         | (Raised, h'') => (Raised, h'')
         end
     end) l h = parse_tree l cp h.
Proof.
  induction l as [|k l IH]; intros h; [reflexivity|].
  cbn [parse_tree]. destruct (parse_node cp k h) as [[] h'']; [apply IH | reflexivity].
Qed.

Lemma parse_node_unfold path g children h :
  parse_node path (Obj (Some g) children) h =
    let h3 := add_ancestor_paths g path (ensure_entry g (register g h)) in
    match children with
    | Some ((_ :: _) as kids) => parse_tree kids (path ++ [g]) h3
    | _ => (Done, h3)
    end.
Proof.
  destruct children as [[|k kids]|]; try reflexivity.
  cbv zeta. rewrite <- children_loop_parse_tree. reflexivity.
Qed.

Lemma all_genres_add_ancestor_paths g path h :
  all_genres (add_ancestor_paths g path h) = all_genres h.
Proof.
  unfold add_ancestor_paths. generalize (seq 0 (length path)). intros l.
  revert h. induction l as [|i l IH]; intros h; [reflexivity|].
  cbn [foldl]. rewrite IH. reflexivity.
Qed.

Lemma paths_registered_register g h :
  paths_registered h → paths_registered (register g h).
Proof.
  intros H g' paths p a Hl Hp Ha. cbn in *.
  apply elem_of_union_r. eapply H; eauto.
Qed.

Lemma paths_registered_ensure_entry g h :
  paths_registered h → paths_registered (ensure_entry g h).
Proof.
  intros H g' paths p a. unfold ensure_entry.
  destruct (genre_to_parents h !! g) eqn:E; [apply H|]. cbn.
  destruct (decide (g = g')) as [->|Hne].
  - rewrite lookup_insert_eq. intros [= <-] Hp. set_solver.
  - rewrite lookup_insert_ne by done. apply H.
Qed.

Lemma paths_registered_add_path g p h :
  paths_registered h → Forall (λ a, a ∈ all_genres h) p →
  paths_registered (add_path g p h).
Proof.
  intros H Hall g' paths q a. cbn. rewrite lookup_alter.
  case_decide as Hg; [|apply H]. subst g'.
  destruct (genre_to_parents h !! g) as [s|] eqn:E; cbn; [|done].
  intros [= <-] Hq Ha. apply elem_of_union in Hq as [Hq|Hq].
  - apply elem_of_singleton in Hq as ->. rewrite Forall_forall in Hall. by apply Hall.
  - eapply H; eauto.
Qed.

Lemma paths_registered_add_ancestor_paths g path h :
  paths_registered h → Forall (λ a, a ∈ all_genres h) path →
  paths_registered (add_ancestor_paths g path h).
Proof.
  intros H Hall. unfold add_ancestor_paths.
  assert (Hgen : ∀ l h', paths_registered h' → all_genres h' = all_genres h →
            paths_registered (foldl (λ h'' i, add_path g (take (S i) path) h'') h' l)).
  { induction l as [|i l IH]; intros h' H' Heq; [done|]. cbn [foldl].
    apply IH; [|done]. apply paths_registered_add_path; [done|].
    rewrite Heq. by apply Forall_take. }
  by apply Hgen.
Qed.

(** Parsing keeps the invariant and only adds genres, whether or not it
    runs to the end. *)
Lemma parse_node_invariant n : ∀ path h,
  paths_registered h → Forall (λ a, a ∈ all_genres h) path →
  paths_registered (parse_node path n h).2 ∧
  all_genres h ⊆ all_genres (parse_node path n h).2.
Proof.
  induction n as [|name children IH] using node_ind'; intros path h Hreg Hpath.
  { by cbn. }
  destruct name as [g|]; [|by cbn].
  rewrite parse_node_unfold. cbv zeta.
  set (h3 := add_ancestor_paths g path (ensure_entry g (register g h))).
  assert (Hsub : all_genres h ⊆ all_genres h3).
  { unfold h3. rewrite all_genres_add_ancestor_paths. unfold ensure_entry.
    destruct (genre_to_parents (register g h) !! g); cbn; set_solver. }
  assert (Hg : g ∈ all_genres h3).
  { unfold h3. rewrite all_genres_add_ancestor_paths. unfold ensure_entry.
    destruct (genre_to_parents (register g h) !! g); cbn; set_solver. }
  assert (Hreg3 : paths_registered h3).
  { unfold h3. apply paths_registered_add_ancestor_paths.
    - by apply paths_registered_ensure_entry, paths_registered_register.
    - eapply Forall_impl; [exact Hpath|]. intros a Ha. unfold ensure_entry.
      destruct (genre_to_parents (register g h) !! g); cbn; set_solver. }
  destruct children as [[|k kids]|]; [done| |done].
  specialize (IH _ eq_refl).
  assert (Hcp : Forall (λ a, a ∈ all_genres h3) (path ++ [g])).
  { apply Forall_app. split; [|by repeat constructor].
    eapply Forall_impl; [exact Hpath|]. intros a Ha. by apply Hsub. }
  clearbody h3. revert h3 Hsub Hg Hreg3 Hcp IH.
  generalize (path ++ [g]) as cp. generalize (k :: kids) as l. clear k kids.
  induction l as [|k l IHl]; intros cp h3 Hsub Hg Hreg3 Hcp IH; [done|].
  apply Forall_cons in IH as [IHk IHrest]. cbn [parse_tree].
  destruct (IHk cp h3 Hreg3 Hcp) as [Hr Hs].
  destruct (parse_node cp k h3) as [[] h4]; cbn [fst snd] in *;
    [|split; [done|by etrans]].
  apply IHl; [by etrans|by apply Hs|done| |done].
  eapply Forall_impl; [exact Hcp|]. intros a Ha. by apply Hs.
Qed.

Lemma parse_tree_invariant nodes : ∀ path h,
  paths_registered h → Forall (λ a, a ∈ all_genres h) path →
  paths_registered (parse_tree nodes path h).2 ∧
  all_genres h ⊆ all_genres (parse_tree nodes path h).2.
Proof.
  induction nodes as [|n nodes IH]; intros path h Hreg Hpath; [done|].
  cbn [parse_tree]. destruct (parse_node_invariant n path h Hreg Hpath) as [Hr Hs].
  destruct (parse_node path n h) as [[] h']; cbn in *; [|done].
  destruct (IH path h' Hr) as [Hr' Hs'].
  - eapply Forall_impl; [exact Hpath|]. intros a Ha. by apply Hs.
  - split; [done|]. by etrans.
Qed.

(** A well-formed forest is parsed to the end. *)
Lemma parse_node_well_formed n : ∀ path h,
  well_formed n = true → (parse_node path n h).1 = Done.
Proof.
  induction n as [|name children IH] using node_ind'; intros path h Hwf; [done|].
  destruct name as [g|]; [|done].
  rewrite parse_node_unfold. cbv zeta.
  generalize (add_ancestor_paths g path (ensure_entry g (register g h))) as h3.
  destruct children as [[|k kids]|]; [done| |done].
  specialize (IH _ eq_refl). cbn [well_formed] in Hwf.
  revert Hwf IH. generalize (k :: kids) as l. clear k kids.
  induction l as [|k l IHl]; intros Hwf IH h3; [done|].
  cbn [forallb] in Hwf. apply andb_prop in Hwf as [Hk Hl].
  apply Forall_cons in IH as [IHk IHrest]. cbn [parse_tree].
  specialize (IHk (path ++ [g]) h3 Hk).
  destruct (parse_node (path ++ [g]) k h3) as [[] h4]; cbn in *; [|done].
  by apply IHl.
Qed.

Lemma parse_tree_well_formed nodes : ∀ path h,
  forallb well_formed nodes = true → (parse_tree nodes path h).1 = Done.
Proof.
  induction nodes as [|n nodes IH]; intros path h Hwf; [done|].
  cbn [forallb] in Hwf. apply andb_prop in Hwf as [Hn Hrest]. cbn [parse_tree].
  pose proof (parse_node_well_formed n path h Hn) as Hd.
  destruct (parse_node path n h) as [[] h']; cbn in *; [by apply IH | done].
Qed.

End HierarchyFacts.

Section HierarchyTheorems.
Import Hierarchy Scenarios.

Implicit Types (h : index) (g a : str) (p path : list str) (n : node).

Example black_ambient_parents :
  get_all_parent_genres black_ambient_index (py "Black Ambient")
  = {[ py "Electronic"; py "Ambient" ]}.
Proof. by vm_compute. Qed.

Lemma elem_of_get_all_parent_genres h g a :
  a ∈ get_all_parent_genres h g ↔
  ∃ paths p, genre_to_parents h !! g = Some paths ∧ p ∈ paths ∧ a ∈ p.
Proof.
  unfold get_all_parent_genres. destruct (genre_to_parents h !! g) as [paths|].
  - rewrite elem_of_union_list. split.
    + intros (X & HX & Ha). apply list_elem_of_fmap in HX as (p & -> & Hp).
      exists paths, p. set_solver.
    + intros (? & p & [= <-] & Hp & Ha). exists (list_to_set p). split; [|set_solver].
      apply list_elem_of_fmap. exists p. set_solver.
  - split; [set_solver|]. by intros (? & ? & ? & _).
Qed.

Lemma expand_singleton h g :
  expand_genres_hierarchically h [g] = expand_step h ∅ g.
Proof. reflexivity. Qed.

(** C7. Expanding a single genre [G]: when [G] is known, the result holds
    every non-excluded name of every stored ancestor path of [G], holds [G]
    itself exactly when [G] is not excluded, and holds no excluded name; when
    [G] is unknown, the result is [{G}] if [G] is not excluded and empty
    otherwise. *)
Theorem C7_expand_single_genre h G :
  (G ∈ all_genres h →
     (∀ paths p a, genre_to_parents h !! G = Some paths → p ∈ paths → a ∈ p →
                   a ∉ excluded_genres h → a ∈ expand_genres_hierarchically h [G])
     ∧ (G ∈ expand_genres_hierarchically h [G] ↔ G ∉ excluded_genres h)
     ∧ (∀ x, x ∈ expand_genres_hierarchically h [G] → x ∉ excluded_genres h))
  ∧ (G ∉ all_genres h →
     (G ∉ excluded_genres h → (expand_genres_hierarchically h [G] = {[ G ]}))
     ∧ (G ∈ excluded_genres h → (expand_genres_hierarchically h [G] = ∅))).
Proof.
  rewrite expand_singleton. unfold expand_step. split; intros HG.
  - rewrite decide_True by done. split; [|split].
    + intros paths p a Hl Hp Ha Hex. apply elem_of_union_l, elem_of_filter.
      split; [done|]. apply elem_of_get_all_parent_genres. eauto.
    + case_decide as Hex; [|set_solver]. split; [|done].
      intros Hin. apply elem_of_union in Hin as [Hin|Hin]; [|set_solver].
      by apply elem_of_filter in Hin as [? _].
    + intros x Hin. apply elem_of_union in Hin as [Hin|Hin].
      * by apply elem_of_filter in Hin as [? _].
      * case_decide; [by apply not_elem_of_empty in Hin|].
        apply elem_of_union in Hin as [Hin|Hin]; [|by apply not_elem_of_empty in Hin].
        by apply elem_of_singleton in Hin as ->.
  - rewrite decide_False by done. split; intros Hex.
    + rewrite decide_False by done. by rewrite union_empty_r_L.
    + by rewrite decide_True.
Qed.

Lemma C7_expand_single_genre_witness :
  py "Black Ambient" ∈ all_genres black_ambient_index
  ∧ (py "Black Ambient" ∈ expand_genres_hierarchically black_ambient_index [py "Black Ambient"]
     ↔ py "Black Ambient" ∉ excluded_genres black_ambient_index)
  ∧ (py "Dungeon Synth" ∉ all_genres black_ambient_index)
  ∧ (py "Dungeon Synth" ∉ excluded_genres black_ambient_index)
  ∧ expand_genres_hierarchically black_ambient_index [py "Dungeon Synth"]
    = {[ py "Dungeon Synth" ]}.
Proof.
  assert (H1 : py "Black Ambient" ∈ all_genres black_ambient_index) by (by vm_compute).
  assert (H2 : py "Dungeon Synth" ∉ all_genres black_ambient_index) by (by vm_compute).
  assert (H3 : py "Dungeon Synth" ∉ excluded_genres black_ambient_index) by (by vm_compute).
  split; [exact H1|]. split.
  - exact (proj1 (proj2 (proj1 (C7_expand_single_genre black_ambient_index _) H1))).
  - split; [exact H2|]. split; [exact H3|].
    exact (proj1 (proj2 (C7_expand_single_genre black_ambient_index _) H2) H3).
Defined.

(** C8. Building the index from a well-formed forest runs to the end, and
    afterwards every element of every stored ancestor path is a member of the
    known-genre set. *)
Theorem C8_ancestor_paths_are_registered (excl : option (list str)) (forest : list node) :
  forallb well_formed forest = true →
  (parse_tree forest [] (load_excluded_genres excl empty_index)).1 = Done
  ∧ paths_registered (build excl (Parsed (Some forest))).2.
Proof.
  intros Hwf. split; [by apply parse_tree_well_formed|].
  unfold build, load_hierarchy, try_except. cbn [snd].
  apply parse_tree_invariant; [|constructor].
  intros g paths p a Hl. cbn in Hl. by rewrite lookup_empty in Hl.
Qed.

Lemma C8_ancestor_paths_are_registered_witness :
  forallb well_formed black_ambient_forest = true
  ∧ paths_registered black_ambient_index.
Proof.
  split; [reflexivity|].
  exact (proj2 (C8_ancestor_paths_are_registered (Some [py "Regional Music"])
                  black_ambient_forest eq_refl)).
Defined.

(** Loading never raises, whatever the taxonomy input. *)
Lemma load_hierarchy_never_raises (f : taxonomy_file) h :
  (load_hierarchy f h).1 = Done.
Proof. by destruct f as [| |[nodes|]]. Qed.

(** A missing file, an unparsable document and a document without the root
    member leave the index as it was: empty after [__init__]. *)
Lemma build_empty_when_nothing_parsed (excl : option (list str)) (f : taxonomy_file) :
  f = Missing ∨ f = Unparsable ∨ f = Parsed None →
  genre_to_parents (build excl f).2 = ∅ ∧ all_genres (build excl f).2 = ∅.
Proof. by intros [->|[->| ->]]. Qed.

(** C3. On a document that fails partway through tree parsing the exception
    is swallowed, but the genres registered before the failure stay: the
    known-genre set and the ancestor map are not empty. *)
Theorem C3_partial_parse_leaves_entries :
  let r := build None (Parsed (Some half_parsed_forest)) in
  r.1 = Done
  ∧ all_genres r.2 = {[ py "Rock" ]}
  ∧ genre_to_parents r.2 = {[ py "Rock" := ∅ ]}
  ∧ all_genres r.2 ≠ ∅
  ∧ genre_to_parents r.2 ≠ ∅.
Proof.
  cbv zeta. split; [reflexivity|].
  assert (H1 : all_genres (build None (Parsed (Some half_parsed_forest))).2 = {[ py "Rock" ]})
    by (by vm_compute).
  assert (H2 : genre_to_parents (build None (Parsed (Some half_parsed_forest))).2
               = {[ py "Rock" := ∅ ]}) by (by vm_compute).
  split; [exact H1|]. split; [exact H2|]. split.
  - rewrite H1. intros E. apply (f_equal (λ s : gset str, size s)) in E.
    by rewrite size_singleton, size_empty in E.
  - rewrite H2. intros E. apply (f_equal (λ m : gmap str (gset (list str)), m !! py "Rock")) in E.
    by rewrite lookup_singleton_eq, lookup_empty in E.
Qed.

End HierarchyTheorems.

(** ** The grouping tag *)

Section ResolverFacts.
Import Hierarchy Resolver.

Implicit Types (h : index) (g x : str) (genres : list str) (cfg : config).

Global Instance str_le_total : Total str_le.
Proof.
  intros x y. unfold str_le.
  destruct (trichotomyT lexico x y) as [[H|H]|H]; auto.
Qed.

Global Instance str_le_trans : Transitive str_le.
Proof.
  intros x y z [->|Hxy] [->|Hyz]; unfold str_le; auto.
  right. by etrans.
Qed.

Lemma sorted_StronglySorted (s : gset str) : StronglySorted str_le (sorted s).
Proof. apply StronglySorted_merge_sort; apply _. Qed.

Lemma elem_of_sorted (s : gset str) x : x ∈ sorted s ↔ x ∈ s.
Proof. unfold sorted. by rewrite merge_sort_Permutation, elem_of_elements. Qed.

Lemma NoDup_sorted (s : gset str) : NoDup (sorted s).
Proof. unfold sorted. rewrite merge_sort_Permutation. apply NoDup_elements. Qed.

Lemma StronglySorted_take {A} (R : relation A) (l : list A) k :
  StronglySorted R l → StronglySorted R (take k l).
Proof.
  intros H. rewrite <- (take_drop k l) in H. by apply StronglySorted_app_1_l in H.
Qed.

Lemma elem_of_collect h genres : ∀ (acc : gset str * gset str) x,
  (x ∈ (foldl (collect_step h) acc genres).1 ↔
     x ∈ acc.1 ∨ ∃ g, g ∈ genres ∧ x ∈ get_all_parent_genres h g)
  ∧ (x ∈ (foldl (collect_step h) acc genres).2 ↔
     x ∈ acc.2 ∨ (x ∈ genres ∧ get_all_parent_genres h x = ∅)).
Proof.
  induction genres as [|g genres IH]; intros acc x; cbn [foldl].
  { split; (split; [auto|]); intros [?|H]; auto.
    - destruct H as (g & Hg & _). by apply not_elem_of_nil in Hg.
    - destruct H as [Hg _]. by apply not_elem_of_nil in Hg. }
  destruct (IH (collect_step h acc g) x) as [IH1 IH2]. rewrite IH1, IH2. clear IH IH1 IH2.
  unfold collect_step. case_decide as He; cbn [fst snd].
  - split.
    + split; (intros [?|(g' & Hg' & Hx)]; [by left|right]).
      * exists g'. split; [by apply list_elem_of_further|done].
      * apply elem_of_cons in Hg' as [->|Hg']; [|eauto].
        rewrite He in Hx. by apply not_elem_of_empty in Hx.
    + rewrite elem_of_union, elem_of_singleton, elem_of_cons. split.
      * intros [[->|?]|[? ?]]; auto.
      * intros [?|[[->|?] ?]]; auto.
  - split.
    + rewrite elem_of_union. split.
      * intros [[?|?]|(g' & Hg' & Hx)]; auto.
        -- right. exists g. split; [apply list_elem_of_here|done].
        -- right. exists g'. split; [by apply list_elem_of_further|done].
      * intros [?|(g' & Hg' & Hx)]; auto.
        apply elem_of_cons in Hg' as [->|Hg']; eauto.
    + rewrite elem_of_cons. split.
      * intros [?|[? ?]]; auto.
      * intros [?|[[->|?] ?]]; auto. done.
Qed.

(** What [parent_list] holds: the ancestors of the input genres that are
    not input genres themselves, and the input genres without ancestors,
    minus the exclusions. *)
Lemma elem_of_parent_list h genres x :
  x ∈ parent_list h genres ↔
  (x ∉ excluded_genres h) ∧
  (((∃ g, g ∈ genres ∧ x ∈ get_all_parent_genres h g) ∧ x ∉ genres)
   ∨ (x ∈ genres ∧ get_all_parent_genres h x = ∅)).
Proof.
  unfold parent_list.
  pose proof (elem_of_collect h genres (∅, ∅) x) as [H1 H2].
  destruct (foldl (collect_step h) (∅, ∅) genres) as [A T]. cbn [fst snd] in *.
  rewrite elem_of_sorted, elem_of_difference, elem_of_union, elem_of_difference.
  rewrite H1, H2, elem_of_list_to_set. clear H1 H2.
  split.
  - intros [[[[Hx|Hx] Hn]|[Hx|Hx]] He]; try (by apply not_elem_of_empty in Hx); auto.
  - intros [He [[Hx Hn]|Hx]]; auto.
Qed.

Lemma parent_list_StronglySorted h genres : StronglySorted str_le (parent_list h genres).
Proof.
  unfold parent_list. destruct (foldl (collect_step h) (∅, ∅) genres).
  apply sorted_StronglySorted.
Qed.

(** A property of the index that every visit of a node keeps is kept by
    parsing, finished or not. *)
Lemma parse_node_preserves (P : index → Prop)
    (Hvisit : ∀ g path h, P h → P (add_ancestor_paths g path (ensure_entry g (register g h))))
    (n : node) : ∀ path h, P h → P (parse_node path n h).2.
Proof.
  induction n as [|name children IH] using node_ind'; intros path h HP; [done|].
  destruct name as [g|]; [|done].
  rewrite parse_node_unfold. cbv zeta.
  specialize (Hvisit g path h HP). revert Hvisit.
  generalize (add_ancestor_paths g path (ensure_entry g (register g h))) as h3.
  destruct children as [[|k kids]|]; [done| |done].
  specialize (IH _ eq_refl). revert IH.
  generalize (path ++ [g]) as cp. generalize (k :: kids) as l. clear.
  induction l as [|k l IHl]; intros cp IH h3 HP; [done|].
  apply Forall_cons in IH as [IHk IHrest]. cbn [parse_tree].
  specialize (IHk cp h3 HP).
  destruct (parse_node cp k h3) as [[] h4]; cbn [snd] in *; [|done].
  by apply IHl.
Qed.

Lemma parse_tree_preserves (P : index → Prop)
    (Hvisit : ∀ g path h, P h → P (add_ancestor_paths g path (ensure_entry g (register g h))))
    (nodes : list node) : ∀ path h, P h → P (parse_tree nodes path h).2.
Proof.
  induction nodes as [|n nodes IH]; intros path h HP; [done|].
  cbn [parse_tree]. pose proof (parse_node_preserves P Hvisit n path h HP) as Hn.
  destruct (parse_node path n h) as [[] h']; cbn [snd] in *; [by apply IH | done].
Qed.

Lemma keys_registered_visit g path h :
  keys_registered h →
  keys_registered (add_ancestor_paths g path (ensure_entry g (register g h))).
Proof.
  intros H. unfold add_ancestor_paths. generalize (seq 0 (length path)) as l.
  assert (H2 : keys_registered (ensure_entry g (register g h))).
  { intros g'. unfold ensure_entry.
    destruct (genre_to_parents (register g h) !! g) eqn:E; cbn.
    - intros Hs. apply elem_of_union_r. by apply H.
    - destruct (decide (g = g')) as [->|Hne]; [set_solver|].
      rewrite lookup_insert_ne by done. intros Hs. apply elem_of_union_r. by apply H. }
  revert H2. generalize (ensure_entry g (register g h)) as h2. clear.
  intros h2 H l. revert h2 H.
  induction l as [|i l IH]; intros h2 H; [done|]. cbn [foldl]. apply IH.
  intros g'. cbn. rewrite lookup_alter. case_decide as Hg; [subst g'|apply H].
  intros Hs. apply H. by apply fmap_is_Some in Hs.
Qed.

Lemma keys_registered_build (excl : option (list str)) (f : taxonomy_file) :
  keys_registered (build excl f).2.
Proof.
  assert (H0 : keys_registered (load_excluded_genres excl empty_index)).
  { intros g. cbn. rewrite lookup_empty. by intros [? ?]. }
  unfold build, load_hierarchy, try_except.
  destruct f as [| |[nodes|]]; try exact H0. cbn [snd].
  apply parse_tree_preserves; [apply keys_registered_visit | exact H0].
Qed.

Lemma excluded_genres_build (excl : option (list str)) (f : taxonomy_file) :
  excluded_genres (build excl f).2 = match excl with Some l => list_to_set l | None => ∅ end.
Proof.
  unfold build, load_hierarchy, try_except.
  destruct f as [| |[nodes|]]; try reflexivity. cbn [snd].
  apply (parse_tree_preserves (λ h, excluded_genres h = _)); [|reflexivity].
  intros g path h <-. unfold add_ancestor_paths. generalize (seq 0 (length path)) as l.
  assert (E : excluded_genres (ensure_entry g (register g h)) = excluded_genres h).
  { unfold ensure_entry. by destruct (genre_to_parents (register g h) !! g). }
  rewrite <- E. generalize (ensure_entry g (register g h)) as h2. clear.
  intros h2 l. revert h2. induction l as [|i l IH]; intros h2; [done|].
  cbn [foldl]. by rewrite IH.
Qed.

Lemma unknown_genre_has_no_parents (excl : option (list str)) (f : taxonomy_file) g :
  g ∉ all_genres (build excl f).2 → get_all_parent_genres (build excl f).2 g = ∅.
Proof.
  intros Hg. unfold get_all_parent_genres.
  destruct (genre_to_parents (build excl f).2 !! g) as [paths|] eqn:E; [|done].
  destruct Hg. apply keys_registered_build. by rewrite E.
Qed.

End ResolverFacts.

Section ResolverTheorems.
Import Hierarchy Resolver Scenarios.

Implicit Types (h : index) (g x : str) (genres : list str) (cfg : config).

Example grouping_of_black_ambient :
  get_parent_genres (Config true 30) (Some black_ambient_index) [py "Black Ambient"]
  = [py "Ambient"; py "Electronic"].
Proof. by vm_compute. Qed.

Example grouping_keeps_top_level_input :
  get_parent_genres (Config true 30) (Some black_ambient_index)
    [py "Electronic"; py "Black Ambient"]
  = [py "Ambient"; py "Electronic"].
Proof. by vm_compute. Qed.

Example grouping_not_cut_at_zero :
  get_parent_genres (Config true 0) (Some black_ambient_index) [py "Black Ambient"]
  = [py "Ambient"; py "Electronic"].
Proof. by vm_compute. Qed.

(** C2, as stated, fails: with primary genres Electronic and Black Ambient,
    Electronic is top-level, is added after the input genres were removed,
    and is in the grouping. *)
Lemma C2_counterexample :
  ¬ (∀ g, g ∈ get_parent_genres (Config true 30) (Some black_ambient_index)
                [py "Electronic"; py "Black Ambient"]
          → g ∉ [py "Electronic"; py "Black Ambient"]).
Proof.
  intros H. apply (H (py "Electronic")).
  - rewrite grouping_keeps_top_level_input. apply list_elem_of_further, list_elem_of_here.
  - apply list_elem_of_here.
Qed.

(** C2, amended. A genre of the grouping that is also a primary genre has
    no ancestors: the input genres that have ancestors are removed, the
    input genres without ancestors are added after the removal.  No genre of
    the grouping is excluded. *)
Theorem C2_grouping_input_genres_are_top_level cfg (gh : option index) genres g :
  g ∈ get_parent_genres cfg gh genres →
  ∃ h, gh = Some h
       ∧ (g ∉ excluded_genres h)
       ∧ (g ∈ genres → get_all_parent_genres h g = ∅)
       ∧ (g ∉ genres → ∃ g', g' ∈ genres ∧ g ∈ get_all_parent_genres h g').
Proof.
  unfold get_parent_genres.
  destruct (negb (use_hierarchy cfg) || bool_decide (genres = [])); [by intros ?%elem_of_nil|].
  destruct gh as [h|]; [|by intros ?%elem_of_nil].
  intros Hin. exists h. split; [done|].
  assert (Hpl : g ∈ parent_list h genres).
  { destruct (0 <? max_groupings cfg)%Z; [|done]. apply elem_of_take in Hin as (i & Hi & _). by apply list_elem_of_lookup_2 in Hi. }
  apply elem_of_parent_list in Hpl as [Hex [[Hanc Hn]|[Hg He]]].
  - split; [done|]. split; [done|]. auto.
  - split; [done|]. split; [done|]. done.
Qed.

Lemma C2_grouping_input_genres_are_top_level_witness :
  py "Electronic" ∈ get_parent_genres (Config true 30) (Some black_ambient_index)
                      [py "Electronic"; py "Black Ambient"]
  ∧ ∃ h, Some black_ambient_index = Some h
       ∧ (py "Electronic" ∉ excluded_genres h)
       ∧ (py "Electronic" ∈ [py "Electronic"; py "Black Ambient"] →
          get_all_parent_genres h (py "Electronic") = ∅)
       ∧ (py "Electronic" ∉ [py "Electronic"; py "Black Ambient"] →
          ∃ g', g' ∈ [py "Electronic"; py "Black Ambient"]
                ∧ py "Electronic" ∈ get_all_parent_genres h g').
Proof.
  assert (H : py "Electronic" ∈ get_parent_genres (Config true 30) (Some black_ambient_index)
                      [py "Electronic"; py "Black Ambient"]).
  { rewrite grouping_keeps_top_level_input. apply list_elem_of_further, list_elem_of_here. }
  split; [exact H|].
  exact (C2_grouping_input_genres_are_top_level _ _ _ _ H).
Defined.

(** C4, as stated, fails: with [max_groupings = 0] the list is returned
    whole. *)
Lemma C4_counterexample :
  ¬ (Z.of_nat (length (get_parent_genres (Config true 0) (Some black_ambient_index)
                         [py "Black Ambient"])) ≤ max_groupings (Config true 0))%Z.
Proof. rewrite grouping_not_cut_at_zero. cbn. lia. Qed.

(** C4, amended. The grouping is sorted lexicographically; when
    [max_groupings] is positive it has at most [max_groupings] entries; when
    [max_groupings] is zero or negative it is the whole sorted list. *)
Theorem C4_grouping_sorted_and_bounded cfg (gh : option index) genres :
  StronglySorted str_le (get_parent_genres cfg gh genres)
  ∧ ((0 < max_groupings cfg)%Z →
     (Z.of_nat (length (get_parent_genres cfg gh genres)) ≤ max_groupings cfg)%Z)
  ∧ ((max_groupings cfg ≤ 0)%Z →
     ∀ h, use_hierarchy cfg = true → genres ≠ [] → gh = Some h →
          get_parent_genres cfg gh genres = parent_list h genres).
Proof.
  unfold get_parent_genres. split; [|split].
  - destruct (negb (use_hierarchy cfg) || bool_decide (genres = [])); [constructor|].
    destruct gh as [h|]; [|constructor].
    destruct (0 <? max_groupings cfg)%Z.
    + apply StronglySorted_take, parent_list_StronglySorted.
    + apply parent_list_StronglySorted.
  - intros Hpos.
    destruct (negb (use_hierarchy cfg) || bool_decide (genres = [])); [cbn; lia|].
    destruct gh as [h|]; [|cbn; lia].
    destruct (0 <? max_groupings cfg)%Z eqn:E; [|apply Z.ltb_ge in E; lia].
    rewrite length_take. lia.
  - intros Hneg h Hu Hg ->. rewrite Hu. cbn [negb orb].
    rewrite bool_decide_eq_false_2 by done.
    destruct (0 <? max_groupings cfg)%Z eqn:E; [apply Z.ltb_lt in E; lia|done].
Qed.

Lemma C4_grouping_sorted_and_bounded_witness :
  (0 < max_groupings (Config true 1))%Z
  ∧ (Z.of_nat (length (get_parent_genres (Config true 1) (Some black_ambient_index)
                         [py "Black Ambient"])) ≤ 1)%Z
  ∧ (max_groupings (Config true 0) ≤ 0)%Z
  ∧ get_parent_genres (Config true 0) (Some black_ambient_index) [py "Black Ambient"]
    = parent_list black_ambient_index [py "Black Ambient"].
Proof.
  assert (H1 : (0 < max_groupings (Config true 1))%Z) by (cbn; lia).
  assert (H2 : (max_groupings (Config true 0) ≤ 0)%Z) by (cbn; lia).
  split; [exact H1|]. split.
  - exact (proj1 (proj2 (C4_grouping_sorted_and_bounded (Config true 1)
                           (Some black_ambient_index) [py "Black Ambient"])) H1).
  - split; [exact H2|].
    refine (proj2 (proj2 (C4_grouping_sorted_and_bounded (Config true 0)
                           (Some black_ambient_index) [py "Black Ambient"]))
                  H2 black_ambient_index eq_refl _ eq_refl).
    discriminate.
Defined.

(** C10. With the hierarchy feature on and an index built, a primary genre
    that is unknown to the index and not excluded is in the sorted list of
    groupings, and is in the returned grouping at the same position whenever
    that position is not cut off by [max_groupings]. *)
Theorem C10_unknown_genre_is_grouping cfg (excl : option (list str)) (f : taxonomy_file)
    genres g :
  use_hierarchy cfg = true →
  g ∈ genres →
  g ∉ all_genres (build excl f).2 →
  g ∉ excluded_genres (build excl f).2 →
  g ∈ parent_list (build excl f).2 genres
  ∧ ∀ i, parent_list (build excl f).2 genres !! i = Some g →
         ((max_groupings cfg ≤ 0)%Z ∨ (Z.of_nat i < max_groupings cfg)%Z) →
         get_parent_genres cfg (Some (build excl f).2) genres !! i = Some g.
Proof.
  intros Hu Hg Hunk Hex. split.
  - apply elem_of_parent_list. split; [done|]. right. split; [done|].
    by apply unknown_genre_has_no_parents.
  - intros i Hi Hcut. unfold get_parent_genres. rewrite Hu. cbn [negb orb].
    rewrite bool_decide_eq_false_2 by (by intros ->; apply elem_of_nil in Hg).
    destruct (0 <? max_groupings cfg)%Z eqn:E; [|done].
    apply Z.ltb_lt in E. rewrite lookup_take_lt by lia. done.
Qed.

Lemma C10_unknown_genre_is_grouping_witness :
  get_parent_genres (Config true 30)
    (Some (build (Some [py "Regional Music"]) (Parsed (Some black_ambient_forest))).2)
    [py "Black Ambient"; py "Dungeon Synth"] !! 1%nat
  = Some (py "Dungeon Synth").
Proof.
  refine (proj2 (C10_unknown_genre_is_grouping (Config true 30) (Some [py "Regional Music"])
                   (Parsed (Some black_ambient_forest))
                   [py "Black Ambient"; py "Dungeon Synth"] (py "Dungeon Synth")
                   eq_refl _ _ _) 1%nat _ _).
  - apply list_elem_of_further, list_elem_of_here.
  - by vm_compute.
  - by vm_compute.
  - by vm_compute.
  - right. cbn. lia.
Defined.

End ResolverTheorems.

(** ** The pattern scanners *)

Section ScannerFacts.
Import Text.

Implicit Types (s rest : str) (m : option N → str → option nat).

(** With such a scanner the substitution loop ends by itself: turns beyond
    the length of the text change nothing. *)
Lemma re_sub_loop_turns m repl : consuming m →
  ∀ t1 t2 prev s, length s ≤ t1 → length s ≤ t2 →
  re_sub_loop t1 m repl prev s = re_sub_loop t2 m repl prev s.
Proof.
  intros Hm. induction t1 as [|t1 IH]; intros t2 prev s H1 H2.
  { destruct s; [|cbn in H1; lia]. by destruct t2. }
  destruct s as [|c s']; [by destruct t2|].
  destruct t2 as [|t2]; [cbn in H2; lia|]. cbn [re_sub_loop].
  destruct (m prev (c :: s')) as [len|] eqn:E.
  - apply Hm in E. f_equal. apply IH; rewrite length_drop; cbn in *; lia.
  - f_equal. apply IH; cbn in *; lia.
Qed.

Lemma match_delimited_consuming body_of open close :
  consuming (match_delimited body_of open close).
Proof.
  intros prev rest len. unfold match_delimited.
  destruct (drop _ rest) as [|c r]; [done|].
  destruct (c =? open)%N; [|done]. destruct (body_of close r); [|done].
  intros [= <-]. lia.
Qed.

Lemma match_colon_consuming : consuming match_colon.
Proof.
  intros prev rest len. unfold match_colon.
  destruct (drop _ rest) as [|c r]; [done|].
  destruct (c =? COLON)%N; [|done]. intros [= <-]. lia.
Qed.

Lemma match_spaces_consuming : consuming match_spaces.
Proof.
  intros prev rest len. unfold match_spaces.
  destruct (take_while isspace rest); [done|]. intros [= <-]. cbn. lia.
Qed.

Lemma match_volume_consuming `{U : UnicodeData} : consuming match_volume.
Proof.
  intros prev rest len. unfold match_volume.
  destruct (xorb _ _); [|done].
  destruct (take_while is_digit rest) as [|d ds]; [done|].
  destruct (match_colon None _); [|done]. intros [= <-]. cbn. lia.
Qed.

End ScannerFacts.

(** ** Stripping and the final loop of the variation generators *)

Section StripFacts.
Import Text.

Implicit Types (s : str) (c : N).

Lemma drop_while_head f s c : head (drop_while f s) = Some c → f c = false.
Proof.
  induction s as [|x s IH]; cbn; [done|].
  destruct (f x) eqn:E; [done|]. cbn. by intros [= <-].
Qed.

Lemma drop_while_fixed f s :
  (∀ c, head s = Some c → f c = false) → drop_while f s = s.
Proof. destruct s as [|x s]; cbn; [done|]. intros H. by rewrite (H x eq_refl). Qed.

Lemma drop_while_suffix f s : ∃ pre, s = pre ++ drop_while f s.
Proof.
  induction s as [|x s [pre IH]]; cbn; [by exists []|].
  destruct (f x); [|by exists []]. exists (x :: pre). cbn. by f_equal.
Qed.

Lemma rstrip_prefix s : ∃ post, s = rstrip s ++ post.
Proof.
  unfold rstrip. destruct (drop_while_suffix isspace (reverse s)) as [pre E].
  exists (reverse pre). rewrite <- reverse_app, <- E. by rewrite reverse_involutive.
Qed.

Lemma rstrip_last s c : last (rstrip s) = Some c → isspace c = false.
Proof. unfold rstrip. rewrite last_reverse. apply drop_while_head. Qed.

Lemma rstrip_head s c :
  (∀ c', head s = Some c' → isspace c' = false) →
  head (rstrip s) = Some c → isspace c = false.
Proof.
  intros Hs Hh. destruct (rstrip_prefix s) as [post E]. apply Hs. rewrite E.
  destruct (rstrip s) as [|y r]; [done|]. exact Hh.
Qed.

Lemma strip_head s c : head (strip s) = Some c → isspace c = false.
Proof. unfold strip. apply rstrip_head. intros c'. apply drop_while_head. Qed.

Lemma strip_last s c : last (strip s) = Some c → isspace c = false.
Proof. apply rstrip_last. Qed.

Lemma rstrip_fixed s :
  (∀ c, last s = Some c → isspace c = false) → rstrip s = s.
Proof.
  intros H. unfold rstrip. rewrite drop_while_fixed; [apply reverse_involutive|].
  intros c. rewrite head_reverse. apply H.
Qed.

Lemma strip_fixed s :
  (∀ c, head s = Some c → isspace c = false) →
  (∀ c, last s = Some c → isspace c = false) → strip s = s.
Proof.
  intros Hh Hl. unfold strip, lstrip. rewrite drop_while_fixed by done. by apply rstrip_fixed.
Qed.

Lemma strip_idemp s : strip (strip s) = strip s.
Proof. apply strip_fixed; [apply strip_head | apply strip_last]. Qed.

End StripFacts.

Section CleanVariations.
Import Text Matcher.

Implicit Types (v e x y : str) (vs res out : list str) (seen : gset str).

Lemma keep_new_invariant seen res v :
  (∀ x, x ∈ seen ↔ x ∈ res) → NoDup res →
  (∀ x, x ∈ (keep_new (seen, res) v).1 ↔ x ∈ (keep_new (seen, res) v).2)
  ∧ NoDup (keep_new (seen, res) v).2.
Proof.
  intros Hs Hn. unfold keep_new. cbn [fst snd].
  destruct (bool_decide (strip v ≠ [])) eqn:E1; cbn [andb]; [|done].
  destruct (bool_decide (strip v ∉ seen)) eqn:E2; [|done]. cbn [fst snd].
  apply bool_decide_eq_true in E2. split.
  - intros x. rewrite elem_of_union, elem_of_singleton, elem_of_app, list_elem_of_singleton, Hs.
    tauto.
  - apply NoDup_app. split; [done|]. split; [|apply NoDup_singleton].
    intros x Hx ->%list_elem_of_singleton. apply E2. by apply Hs.
Qed.

Lemma keep_new_cases seen res v :
  (keep_new (seen, res) v = (seen, res) ∧ (strip v = [] ∨ strip v ∈ seen))
  ∨ (keep_new (seen, res) v = ({[ strip v ]} ∪ seen, res ++ [strip v])
     ∧ strip v ≠ [] ∧ strip v ∉ seen).
Proof.
  unfold keep_new. cbn [fst snd].
  destruct (decide (strip v = [])) as [E0|E0].
  { left. rewrite bool_decide_eq_false_2 by (by intros ?). auto. }
  rewrite bool_decide_eq_true_2 by done.
  destruct (decide (strip v ∈ seen)) as [Es|Es].
  { left. rewrite bool_decide_eq_false_2 by (by intros ?). auto. }
  right. by rewrite bool_decide_eq_true_2.
Qed.

(** The loop, started from any state in which [seen] is the set of the
    entries of [result]. *)
Lemma clean_loop vs : ∀ seen res,
  (∀ x, x ∈ seen ↔ x ∈ res) → NoDup res →
  let out := (foldl keep_new (seen, res) vs).2 in
  NoDup out
  ∧ (∃ more, out = res ++ more)
  ∧ (∀ e, e ∈ out ↔ e ∈ res ∨ (e ∈ strip <$> vs ∧ e ≠ []))
  ∧ (∀ l1 x l2, strip <$> vs = l1 ++ x :: l2 → x ∉ l1 → x ≠ [] → x ∉ res →
       ∃ o1 o2, out = o1 ++ x :: o2 ∧ ∀ y, y ∈ o1 ↔ y ∈ res ∨ (y ∈ l1 ∧ y ≠ [])).
Proof.
  induction vs as [|v vs IH]; intros seen res Hs Hn; cbn [foldl].
  { cbn [snd]. split; [done|]. split; [exists []; by rewrite app_nil_r|]. split.
    - intros e. cbn. rewrite elem_of_nil. tauto.
    - intros l1 x l2 E. by destruct l1. }
  destruct (keep_new_invariant seen res v Hs Hn) as [Hs' Hn'].
  destruct (keep_new_cases seen res v) as [[Ek Hskip]|[Ek [Hv0 Hvs]]];
    rewrite Ek in *; cbn [fst snd] in *;
    destruct (IH _ _ Hs' Hn') as (IH1 & [more IH2] & IH3 & IH4); clear IH;
    (split; [done|]); (split; [|split]).
  - by exists more.
  - intros e. rewrite IH3, fmap_cons, elem_of_cons. split; [tauto|].
    intros [?|[[->|?] ?]]; auto. destruct Hskip as [?|?]; [done|]. left. by apply Hs.
  - intros l1 x l2 E Hx1 Hx0 Hxr. rewrite fmap_cons in E.
    destruct l1 as [|y0 l1]; cbn in E; injection E as E0 E.
    + subst x. destruct Hskip as [?|?]; [done|]. destruct Hxr. by apply Hs.
    + subst y0. apply not_elem_of_cons in Hx1 as [Hne Hx1].
      destruct (IH4 l1 x l2 E Hx1 Hx0 Hxr) as (o1 & o2 & Eo & Ho).
      exists o1, o2. split; [done|]. intros y. rewrite Ho, elem_of_cons.
      split; [tauto|]. intros [?|[[->|?] ?]]; auto.
      destruct Hskip as [?|?]; [done|]. left. by apply Hs.
  - exists ([strip v] ++ more). by rewrite IH2, <- app_assoc.
  - intros e. rewrite IH3, fmap_cons, elem_of_cons, elem_of_app, list_elem_of_singleton.
    split.
    + intros [[?| ->]|[? ?]]; auto.
    + intros [?|[[->|?] ?]]; auto.
  - intros l1 x l2 E Hx1 Hx0 Hxr. rewrite fmap_cons in E.
    destruct l1 as [|y0 l1]; cbn in E; injection E as E0 E.
    + subst x. exists res, more. split; [by rewrite IH2, <- app_assoc|].
      intros y. rewrite elem_of_nil. tauto.
    + subst y0. apply not_elem_of_cons in Hx1 as [Hne Hx1].
      assert (Hxr' : x ∉ res ++ [strip v]).
      { rewrite elem_of_app, list_elem_of_singleton. tauto. }
      destruct (IH4 l1 x l2 E Hx1 Hx0 Hxr') as (o1 & o2 & Eo & Ho).
      exists o1, o2. split; [done|]. intros y.
      rewrite Ho, elem_of_cons, elem_of_app, list_elem_of_singleton. split.
      * intros [[?| ->]|[? ?]]; auto.
      * intros [?|[[->|?] ?]]; auto.
Qed.

End CleanVariations.

Section VariationTheorems.
Import Text Matcher.

Lemma clean_variations_cleaned (cands : list str) : cleaned cands (clean_variations cands).
Proof.
  unfold clean_variations.
  destruct (clean_loop cands ∅ []) as (H1 & _ & H3 & H4);
    [intros x; rewrite elem_of_nil; set_solver | constructor |].
  cbv zeta in *.
  assert (Hstr : ∀ e, e ∈ (foldl keep_new (∅, []) cands).2 → strip e = e).
  { intros e He. apply H3 in He as [He|[He _]]; [by apply elem_of_nil in He|].
    apply list_elem_of_fmap in He as (v & -> & _). apply strip_idemp. }
  split; [|split; [done|split; [|split]]].
  - intros e He. rewrite (Hstr e He).
    apply H3 in He as [He|[_ He]]; [by apply elem_of_nil in He | done].
  - intros e He. split; [by apply Hstr|].
    rewrite <- (Hstr e He). split; [apply strip_head | apply strip_last].
  - intros e. rewrite H3, elem_of_nil. tauto.
  - intros l1 x l2 E Hx1 Hx0.
    destruct (H4 l1 x l2 E Hx1 Hx0) as (o1 & o2 & Eo & Ho); [by intros ?%elem_of_nil|].
    exists o1, o2. split; [done|]. intros y. rewrite Ho, elem_of_nil. tauto.
Qed.

Example artist_variations_of_bracketed_name :
  @get_artist_variations ascii_tables (py "Artist [Alt Name]")
  = [py "Artist [Alt Name]"; py "Artist"; py "Alt Name"].
Proof. by vm_compute. Qed.

Example album_variations_of_remaster :
  @get_album_variations ascii_tables (py "Title (Remaster)")
  = [py "Title (Remaster)"; py "Title"; py "Title Remaster"].
Proof. by vm_compute. Qed.

Example album_variations_of_volume :
  @get_album_variations ascii_tables (py "Series 14 :Title  [Live]")
  = [py "Series 14 :Title  [Live]"; py "Series 14 :Title"; py "Live";
     py "Series 14: Title [Live]"; py "Series : Title  [Live]"; py "Series 14 Title Live"].
Proof. by vm_compute. Qed.

(** C9. For every name, the artist and the album-title variation lists have
    no entry that is empty after trimming, no two equal entries, only
    entries without leading or trailing whitespace, and keep the candidates
    in the order of their first occurrence. *)
Theorem C9_variations_cleaned `{U : UnicodeData} (name : str) :
  cleaned (artist_candidates name) (get_artist_variations name)
  ∧ cleaned (album_candidates name) (get_album_variations name).
Proof. split; apply clean_variations_cleaned. Qed.

Lemma C9_variations_cleaned_witness :
  NoDup (@get_artist_variations ascii_tables (py "Artist [Alt Name]"))
  ∧ NoDup (@get_album_variations ascii_tables (py "Title (Remaster)")).
Proof.
  split.
  - exact (proj1 (proj2 (proj1 (@C9_variations_cleaned ascii_tables (py "Artist [Alt Name]"))))).
  - exact (proj1 (proj2 (proj2 (@C9_variations_cleaned ascii_tables (py "Title (Remaster)"))))).
Defined.

End VariationTheorems.

(** ** Choosing the best record *)

Section SelectionFacts.
Import Text Matcher.

Implicit Types (cfg : config) (r : release) (st : option release * Q) (x y q : Q).

Lemma Qltb_lt x y : Qltb x y = true ↔ (x < y)%Q.
Proof.
  unfold Qltb. rewrite negb_true_iff. split.
  - intros H. apply Qnot_le_lt. intros Hle. apply Qle_bool_iff in Hle. congruence.
  - intros H. destruct (Qle_bool y x) eqn:E; [|done].
    apply Qle_bool_iff in E. by apply Qlt_not_le in H.
Qed.

Lemma Qltb_ge x y : (y <= x)%Q → Qltb x y = false.
Proof.
  intros H. destruct (Qltb x y) eqn:E; [|done].
  apply Qltb_lt in E. by apply Qlt_not_le in E.
Qed.

(** A record that passes the flexible test and beats the best score so far
    is adopted, above the threshold or not. *)
Lemma adopt_flexible cfg a t r st :
  flexible_artist_matching cfg = true →
  (title_match_threshold cfg <= t)%Q →
  (a < similarity_threshold cfg)%Q →
  (st.2 < mean_score (a, t))%Q →
  adopt cfg a t r st = (Some r, mean_score (a, t)).
Proof.
  intros Hf Ht Ha Hc. unfold adopt, mean_score in *. cbn [fst snd] in *.
  apply Qltb_lt in Hc, Ha. apply Qle_bool_iff in Ht.
  rewrite Hc, Hf, Ht, Ha. cbn [andb]. by destruct (Qle_bool (similarity_threshold cfg) _).
Qed.

(** A record that does not beat the best score so far changes nothing. *)
Lemma adopt_not_better cfg a t r st :
  (mean_score (a, t) <= st.2)%Q → adopt cfg a t r st = st.
Proof.
  intros Hc. unfold adopt, mean_score in *. cbn [fst snd] in *.
  rewrite (Qltb_ge _ _ Hc). cbn [andb]. by destruct (_ && _ && _).
Qed.

Lemma adopt_score cfg a t r st :
  (adopt cfg a t r st).2 = st.2 ∨ (adopt cfg a t r st).2 = mean_score (a, t).
Proof.
  unfold adopt, mean_score. cbn [fst snd].
  repeat match goal with |- context [if ?b then _ else _] => destruct b end; auto.
Qed.

Lemma scan_score cfg scores l : ∀ st,
  (scan cfg scores st l).2 = st.2
  ∨ ∃ r, r ∈ l ∧ (scan cfg scores st l).2 = mean_score (scores r).
Proof.
  induction l as [|r l IH]; intros st; cbn; [by left|].
  destruct (IH (adopt cfg (scores r).1 (scores r).2 r st)) as [E|(r' & Hr' & E)].
  - unfold scan in E. rewrite E.
    destruct (adopt_score cfg (scores r).1 (scores r).2 r st) as [E'|E'].
    + by left.
    + right. exists r. split; [apply list_elem_of_here|]. rewrite E'. by destruct (scores r).
  - right. exists r'. split; [by apply list_elem_of_further|done].
Qed.

Lemma scan_not_better cfg scores l : ∀ st,
  (∀ r, r ∈ l → (mean_score (scores r) <= st.2)%Q) → scan cfg scores st l = st.
Proof.
  induction l as [|r l IH]; intros st H; cbn; [done|].
  rewrite adopt_not_better.
  - apply IH. intros r' Hr'. apply H. by apply list_elem_of_further.
  - specialize (H r (list_elem_of_here _ _)). by destruct (scores r).
Qed.

Lemma best_of_ge_init (l : list Q) : ∀ q, (q <= foldl Qmax q l)%Q.
Proof.
  induction l as [|x l IH]; intros q; cbn; [apply Qle_refl|].
  eapply Qle_trans; [apply Q.le_max_l | apply IH].
Qed.

Lemma best_of_ge (l : list Q) : ∀ q x, x ∈ l → (x <= foldl Qmax q l)%Q.
Proof.
  induction l as [|y l IH]; intros q x Hx; [by apply elem_of_nil in Hx|].
  cbn. apply elem_of_cons in Hx as [->|Hx]; [|by apply IH].
  eapply Qle_trans; [apply Q.le_max_r | apply best_of_ge_init].
Qed.

Lemma Qmax_cases x y : Qmax x y = x ∨ Qmax x y = y.
Proof. unfold Qmax, GenericMinMax.gmax. destruct (x ?= y)%Q; auto. Qed.

Lemma best_of_attained (l : list Q) : ∀ q, foldl Qmax q l = q ∨ foldl Qmax q l ∈ l.
Proof.
  induction l as [|y l IH]; intros q; cbn; [by left|].
  destruct (IH (Qmax q y)) as [E|Hin].
  - rewrite E. destruct (Qmax_cases q y) as [->| ->]; [by left|].
    right. apply list_elem_of_here.
  - right. by apply list_elem_of_further.
Qed.

End SelectionFacts.

Section SelectionTheorems.
Import Text Matcher Scenarios.

Implicit Types (cfg : config) (r : release) (st : option release * Q).

(** C6. With flexible matching on, let [r] be a scanned record whose title
    score reaches [title_match_threshold], whose artist score is below the
    threshold and whose combined score is positive and above the combined
    score of every other scanned record.  Then [r] is adopted in the one
    best-score slot whatever best score below its own it meets there, and it
    is the record returned, with its combined score, whether or not that
    score reaches the threshold. *)
Theorem C6_flexible_match_wins cfg (scores : release → Q * Q) (rym_data : catalog)
    (before after : list release) r :
  flexible_artist_matching cfg = true →
  scanned rym_data = before ++ r :: after →
  (title_match_threshold cfg <= (scores r).2)%Q →
  ((scores r).1 < similarity_threshold cfg)%Q →
  (0 < mean_score (scores r))%Q →
  (∀ r', r' ∈ before ++ after → (mean_score (scores r') < mean_score (scores r))%Q) →
  (∀ st, (st.2 < mean_score (scores r))%Q →
         adopt cfg (scores r).1 (scores r).2 r st = (Some r, mean_score (scores r)))
  ∧ best_release cfg scores rym_data = (Some r, mean_score (scores r)).
Proof.
  intros Hf Hscan Ht Ha Hpos Hbest.
  assert (Hadopt : ∀ st, (st.2 < mean_score (scores r))%Q →
            adopt cfg (scores r).1 (scores r).2 r st = (Some r, mean_score (scores r))).
  { intros st Hst. destruct (scores r) as [a t] eqn:E. cbn [fst snd] in *.
    by apply adopt_flexible. }
  split; [exact Hadopt|].
  unfold best_release, scan. rewrite Hscan, foldl_app. cbn [foldl].
  fold (scan cfg scores (None, 0%Q) before).
  rewrite Hadopt.
  - apply (scan_not_better cfg scores after (Some r, mean_score (scores r))).
    intros r' Hr'. cbn [snd]. apply Qlt_le_weak, Hbest, elem_of_app. by right.
  - destruct (scan_score cfg scores before (None, 0%Q)) as [E|(r' & Hr' & E)]; rewrite E.
    + exact Hpos.
    + apply Hbest, elem_of_app. by left.
Qed.

Lemma C6_flexible_match_wins_witness :
  best_release flexible_cfg flexible_scores flexible_catalog
  = (Some alias_release, mean_score (flexible_scores alias_release))
  ∧ (mean_score (flexible_scores alias_release) == 685 # 1000)%Q
  ∧ (mean_score (flexible_scores alias_release) < similarity_threshold flexible_cfg)%Q.
Proof.
  split; [|split; reflexivity].
  refine (proj2 (C6_flexible_match_wins flexible_cfg flexible_scores flexible_catalog
                   [other_release] [] alias_release eq_refl eq_refl _ _ _ _)).
  - by vm_compute.
  - reflexivity.
  - reflexivity.
  - intros r' Hr'. apply list_elem_of_singleton in Hr' as ->. reflexivity.
Defined.

End SelectionTheorems.

(** ** The artist score *)

Section ArtistScoreTheorems.
Import Text Matcher Scenarios.

Example scenario_record_variations :
  @get_artist_variations ascii_tables (py "Alt Name") = [py "Alt Name"]
  ∧ @get_album_variations ascii_tables (py "Title") = [py "Title"].
Proof. by vm_compute. Qed.

Example scenario_scores :
  @best_artist_score ascii_tables query_artist (py "Alt Name") = (16 # 25)%Q
  ∧ @best_title_score ascii_tables query_title (py "Title") = (10 # 10)%Q
  ∧ @cross_product_artist_score ascii_tables query_artist (py "Alt Name") = (16 # 16)%Q.
Proof. by vm_compute. Qed.

(** C1, as stated, fails on the scenario: the query artist is compared as it
    is, so the artist score is 16/25 where the cross product of the
    variations would give 1, and the combined score is not 1. *)
Lemma C1_counterexample :
  ¬ (@best_artist_score ascii_tables query_artist (artistName alt_name_release)
     == @cross_product_artist_score ascii_tables query_artist (artistName alt_name_release))%Q
  ∧ ¬ (@combined_score ascii_tables query_artist query_title alt_name_release == 1)%Q.
Proof. split; by vm_compute. Qed.

(** C1, amended. The artist score of a record is the greatest similarity
    between the lower-cased query artist, taken as it is, and the lower-cased
    variations of the record's artist (0 when there is none); the title
    score is the greatest similarity over the variations of the query title
    and the variations of the record's title.  On the scenario the artist
    score is 16/25, the title score 1 and the combined score 41/50. *)
Theorem C1_artist_score_over_record_variations :
  (∀ (U : UnicodeData) (artist rym_artist_raw : str),
     let s := best_artist_score artist rym_artist_raw in
     (∀ v, v ∈ get_artist_variations rym_artist_raw →
           (similarity (str_lower artist) (str_lower v) <= s)%Q)
     ∧ (s = 0%Q ∨ ∃ v, v ∈ get_artist_variations rym_artist_raw
                      ∧ s = similarity (str_lower artist) (str_lower v)))
  ∧ (∀ (U : UnicodeData) (album_title rym_title_raw : str),
     let s := best_title_score album_title rym_title_raw in
     (∀ v w, v ∈ get_album_variations album_title → w ∈ get_album_variations rym_title_raw →
             (similarity (str_lower v) (str_lower w) <= s)%Q)
     ∧ (s = 0%Q ∨ ∃ v w, v ∈ get_album_variations album_title
                        ∧ w ∈ get_album_variations rym_title_raw
                        ∧ s = similarity (str_lower v) (str_lower w)))
  ∧ (@best_artist_score ascii_tables query_artist (artistName alt_name_release) == 16 # 25)%Q
  ∧ (@best_title_score ascii_tables query_title (releaseTitle alt_name_release) == 1)%Q
  ∧ (@combined_score ascii_tables query_artist query_title alt_name_release == 41 # 50)%Q.
Proof.
  split; [|split; [|by vm_compute]].
  - intros U artist rym. cbv zeta. unfold best_artist_score, best_of. split.
    + intros v Hv. apply best_of_ge. apply list_elem_of_fmap. by exists v.
    + destruct (best_of_attained
                  ((λ x, similarity (str_lower artist) (str_lower x))
                     <$> get_artist_variations rym) 0%Q) as [E|Hin]; [by left|].
      right. apply list_elem_of_fmap in Hin as (v & E & Hv). by exists v.
  - intros U title rym. cbv zeta. unfold best_title_score, best_of. split.
    + intros v w Hv Hw. apply best_of_ge. apply list_elem_of_bind. exists v.
      split; [|done]. apply list_elem_of_fmap. by exists w.
    + match goal with |- foldl Qmax 0%Q ?l = _ ∨ _ =>
        destruct (best_of_attained l 0%Q) as [E|Hin]; [by left|] end.
      right. apply list_elem_of_bind in Hin as (v & Hin & Hv).
      apply list_elem_of_fmap in Hin as (w & E & Hw). by exists v, w.
Qed.

Lemma C1_artist_score_over_record_variations_witness :
  py "Alt Name" ∈ @get_artist_variations ascii_tables (py "Alt Name")
  ∧ (@similarity ascii_tables (@str_lower ascii_tables query_artist)
       (@str_lower ascii_tables (py "Alt Name"))
     <= @best_artist_score ascii_tables query_artist (py "Alt Name"))%Q.
Proof.
  assert (H : py "Alt Name" ∈ @get_artist_variations ascii_tables (py "Alt Name")).
  { rewrite (proj1 scenario_record_variations). apply list_elem_of_here. }
  split; [exact H|].
  exact (proj1 (proj1 C1_artist_score_over_record_variations ascii_tables query_artist
                  (py "Alt Name")) (py "Alt Name") H).
Defined.

End ArtistScoreTheorems.

(** ** The matcher of difflib: every match lies inside its range *)

Section MatchBounds.
Import Difflib MatchInvariants.

Variables (a b : str) (b2j : gmap N (list nat)) (alo blo bhi : nat).

Lemma row_ok_mono i i' j2len : i ≤ i' → row_ok alo blo bhi i j2len → row_ok alo blo bhi i' j2len.
Proof. intros Hi H j k Hjk. destruct (H j k Hjk) as (? & ? & ? & ?). lia. Qed.

Lemma j2len_get_pred_bound i j2len j :
  row_ok alo blo bhi i j2len → blo ≤ j →
  j2len_get_pred j2len j ≤ i - alo ∧ j2len_get_pred j2len j + 1 ≤ j + 1 - blo.
Proof.
  intros H Hj. destruct j as [|j']; cbn; [lia|].
  destruct (j2len !! j') as [k'|] eqn:E; cbn; [|lia].
  destruct (H j' k' E) as (? & ? & ? & ?). lia.
Qed.

Lemma scan_row_inside i j2len js : ∀ newj2len best,
  alo ≤ i → row_ok alo blo bhi i j2len →
  row_ok alo blo bhi (S i) newj2len → inside alo blo bhi (S i) best →
  row_ok alo blo bhi (S i) (scan_row i blo bhi j2len js newj2len best).1
  ∧ inside alo blo bhi (S i) (scan_row i blo bhi j2len js newj2len best).2.
Proof.
  induction js as [|j js IH]; intros nj best Hi Hrow Hnj Hbest; cbn [scan_row]; [done|].
  destruct (Nat.ltb_spec j blo) as [Hlo|Hlo]; [by apply IH|].
  destruct (Nat.leb_spec bhi j) as [Hhi|Hhi]; [done|].
  destruct (j2len_get_pred_bound i j2len j Hrow Hlo) as [Hk1 Hk2].
  apply IH; [done|done| |].
  - intros j' k'. destruct (decide (j = j')) as [<-|Hne].
    + rewrite lookup_insert_eq. intros [= <-]. lia.
    + rewrite lookup_insert_ne by done. apply Hnj.
  - destruct (Nat.ltb_spec (m_size best) (j2len_get_pred j2len j + 1)); [|done].
    unfold inside. cbn. lia.
Qed.

Lemma scan_rows_inside n : ∀ i st,
  alo ≤ i → blo ≤ bhi → row_ok alo blo bhi i st.1 → inside alo blo bhi i st.2 →
  row_ok alo blo bhi (i + n) (scan_rows a b2j blo bhi (seq i n) st).1
  ∧ inside alo blo bhi (i + n) (scan_rows a b2j blo bhi (seq i n) st).2.
Proof.
  induction n as [|n IH]; intros i st Hi Hb Hrow Hbest; cbn [seq scan_rows foldl].
  { by rewrite Nat.add_0_r. }
  replace (i + S n) with (S i + n) by lia.
  assert (Hbest' : inside alo blo bhi (S i) st.2) by (unfold inside in *; lia).
  assert (Hempty : row_ok alo blo bhi (S i) ∅) by (intros j k; by rewrite lookup_empty).
  apply IH; [lia|done| |]; destruct (a !! i) as [ai|].
  - by apply scan_row_inside.
  - apply (row_ok_mono i); [lia|done].
  - by apply scan_row_inside.
  - done.
Qed.

Lemma extend_back_inside besti : ∀ bestj bestsize i,
  inside alo blo bhi i (mkMatch besti bestj bestsize) →
  inside alo blo bhi i (extend_back a b alo blo besti bestj bestsize).
Proof.
  induction besti as [|i' IH]; intros bestj bestsize i H; cbn [extend_back]; [done|].
  destruct bestj as [|j']; [done|].
  destruct (Nat.ltb_spec alo (S i')); cbn [andb]; [|done].
  destruct (Nat.ltb_spec blo (S j')); cbn [andb]; [|done].
  destruct (bool_decide (a !! i' = b !! j')); [|done].
  apply IH. unfold inside in *. cbn in *. lia.
Qed.

Lemma extend_forward_inside turns ahi : ∀ besti bestj bestsize,
  inside alo blo bhi ahi (mkMatch besti bestj bestsize) →
  inside alo blo bhi ahi (extend_forward turns a b ahi bhi besti bestj bestsize).
Proof.
  induction turns as [|turns IH]; intros besti bestj bestsize H; cbn [extend_forward]; [done|].
  destruct (Nat.ltb_spec (besti + bestsize) ahi); cbn [andb]; [|done].
  destruct (Nat.ltb_spec (bestj + bestsize) bhi); cbn [andb]; [|done].
  destruct (bool_decide _); [|done].
  apply IH. unfold inside in *. cbn in *. lia.
Qed.

Lemma find_longest_match_inside ahi :
  alo ≤ ahi → blo ≤ bhi → inside alo blo bhi ahi (find_longest_match a b b2j alo ahi blo bhi).
Proof.
  intros Ha Hb. unfold find_longest_match.
  assert (H : inside alo blo bhi (alo + (ahi - alo))
                (scan_rows a b2j blo bhi (seq alo (ahi - alo)) (∅, mkMatch alo blo 0)).2).
  { apply scan_rows_inside; [done|done| |].
    - intros j k. cbn. by rewrite lookup_empty.
    - unfold inside. cbn. lia. }
  replace (alo + (ahi - alo)) with ahi in H by lia.
  set (best := (scan_rows a b2j blo bhi (seq alo (ahi - alo)) (∅, mkMatch alo blo 0)).2) in *.
  apply extend_forward_inside.
  pose proof (extend_back_inside (m_a best) (m_b best) (m_size best) ahi) as H'.
  destruct (extend_back a b alo blo (m_a best) (m_b best) (m_size best)) as [i j k].
  apply H'. by destruct best.
Qed.

End MatchBounds.

Section MatchingSize.
Import Difflib MatchInvariants.

Variables (a b : str) (b2j : gmap N (list nat)).

Lemma matching_size_bound depth : ∀ alo ahi blo bhi,
  alo ≤ ahi → blo ≤ bhi →
  matching_size depth a b b2j alo ahi blo bhi ≤ ahi - alo
  ∧ matching_size depth a b b2j alo ahi blo bhi ≤ bhi - blo.
Proof.
  induction depth as [|depth IH]; intros alo ahi blo bhi Ha Hb; cbn [matching_size]; [lia|].
  destruct (find_longest_match_inside a b b2j alo blo bhi ahi Ha Hb) as (H1 & H2 & H3 & H4).
  set (x := find_longest_match a b b2j alo ahi blo bhi) in *.
  destruct (Nat.eqb_spec (m_size x) 0) as [E|E]; [lia|].
  destruct (IH alo (m_a x) blo (m_b x) H1 H3) as [L1 L2].
  destruct (IH (m_a x + m_size x) ahi (m_b x + m_size x) bhi H2 H4) as [R1 R2].
  destruct ((alo <? m_a x) && (blo <? m_b x));
    destruct ((m_a x + m_size x <? ahi) && (m_b x + m_size x <? bhi)); lia.
Qed.

(** More levels than the length of the range on the [a] side change
    nothing: the recursion ends by itself. *)
Lemma matching_size_depth d1 : ∀ d2 alo ahi blo bhi,
  alo ≤ ahi → blo ≤ bhi → ahi - alo < d1 → ahi - alo < d2 →
  matching_size d1 a b b2j alo ahi blo bhi = matching_size d2 a b b2j alo ahi blo bhi.
Proof.
  induction d1 as [|d1 IH]; intros d2 alo ahi blo bhi Ha Hb H1 H2; [lia|].
  destruct d2 as [|d2]; [lia|]. cbn [matching_size].
  destruct (find_longest_match_inside a b b2j alo blo bhi ahi Ha Hb) as (I1 & I2 & I3 & I4).
  set (x := find_longest_match a b b2j alo ahi blo bhi) in *.
  destruct (Nat.eqb_spec (m_size x) 0) as [E|E]; [done|].
  f_equal; [f_equal|].
  - destruct (Nat.ltb_spec alo (m_a x)); cbn [andb]; [|done].
    destruct (Nat.ltb_spec blo (m_b x)); [|done]. apply IH; lia.
  - destruct (Nat.ltb_spec (m_a x + m_size x) ahi); cbn [andb]; [|done].
    destruct (Nat.ltb_spec (m_b x + m_size x) bhi); [|done]. apply IH; lia.
Qed.

End MatchingSize.

Section RatioBounds.
Import Difflib.

Lemma matches_bound (a b : str) : matches a b ≤ length a ∧ matches a b ≤ length b.
Proof.
  unfold matches.
  destruct (matching_size_bound a b (chain_b b) (S (length a)) 0 (length a) 0 (length b));
    lia.
Qed.

Lemma calculate_ratio_bounds (m len : nat) :
  2 * m ≤ len → (0 <= calculate_ratio m len)%Q ∧ (calculate_ratio m len <= 1)%Q.
Proof.
  intros H. unfold calculate_ratio. destruct len as [|len]; [done|].
  assert (E : Z.pos (Pos.of_nat (S len)) = Z.of_nat (S len)) by lia.
  unfold Qle. cbn [Qnum Qden]. rewrite E. lia.
Qed.

Lemma ratio_bounds (a b : str) : (0 <= ratio a b)%Q ∧ (ratio a b <= 1)%Q.
Proof.
  unfold ratio. apply calculate_ratio_bounds.
  destruct (matches_bound a b). lia.
Qed.

End RatioBounds.

(** ** The matcher of difflib: what [b2j] holds *)

Section ChainB.
Import Difflib MatchInvariants.

Lemma positions_from_app c b1 : ∀ k b2,
  positions_from k c (b1 ++ b2)
  = positions_from k c b1 ++ positions_from (k + length b1) c b2.
Proof.
  induction b1 as [|x b1 IH]; intros k b2; cbn.
  { by rewrite Nat.add_0_r. }
  rewrite IH. replace (S k + length b1) with (k + S (length b1)) by lia.
  by destruct (decide (x = c)).
Qed.

Lemma elem_of_positions_from c b : ∀ k j,
  j ∈ positions_from k c b ↔ k ≤ j ∧ b !! (j - k) = Some c.
Proof.
  induction b as [|x b IH]; intros k j; cbn.
  { rewrite elem_of_nil. split; [done|]. by intros [_ ?]. }
  assert (Hrest : j ∈ positions_from (S k) c b ↔ k < j ∧ (x :: b) !! (j - k) = Some c).
  { rewrite IH. split.
    - intros [Hk Hl]. split; [lia|]. by replace (j - k) with (S (j - S k)) by lia.
    - intros [Hk Hl]. split; [lia|]. by replace (j - k) with (S (j - S k)) in Hl by lia. }
  destruct (decide (x = c)) as [->|Hne].
  - rewrite elem_of_cons, Hrest. split.
    + intros [->|[? ?]]; [|split; [lia|done]]. split; [lia|]. by rewrite Nat.sub_diag.
    + intros [Hk Hl]. destruct (decide (j = k)) as [?|?]; [by left|right]. split; [lia|done].
  - rewrite Hrest. split; [intros [? ?]; split; [lia|done]|].
    intros [Hk Hl]. split; [|done].
    destruct (decide (j = k)) as [->|?]; [|lia].
    rewrite Nat.sub_diag in Hl. cbn in Hl. congruence.
Qed.

Lemma positions_from_sorted c b : ∀ k, StronglySorted lt (positions_from k c b).
Proof.
  induction b as [|x b IH]; intros k; cbn; [constructor|].
  destruct (decide (x = c)); [|apply IH].
  constructor; [apply IH|]. apply Forall_forall. intros j Hj.
  apply elem_of_positions_from in Hj. lia.
Qed.

Lemma imap_pair_snoc (b : str) (x : N) :
  imap pair (b ++ [x]) = imap pair b ++ [(length b, x)].
Proof. rewrite imap_app. cbn. by rewrite Nat.add_0_r. Qed.

(** [b2j[c]] before the purge is the list of all the positions of [c]. *)
Lemma index_elements_lookup (b : str) (c : N) :
  index_elements b !! c
  = match positions_from 0 c b with [] => None | js => Some js end.
Proof.
  induction b as [|x b IH] using rev_ind; [done|].
  unfold index_elements in *. rewrite imap_pair_snoc, foldl_app. cbn [foldl fst snd].
  rewrite positions_from_app. cbn [positions_from]. rewrite Nat.add_0_l.
  destruct (decide (x = c)) as [->|Hne].
  - rewrite lookup_insert_eq, IH.
    destruct (positions_from 0 c b) as [|j js]; cbn; [done|]. done.
  - rewrite lookup_insert_ne by done. rewrite IH, app_nil_r. done.
Qed.

(** An entry of [b2j] that survived the purge is still that list. *)
Lemma chain_b_lookup (b : str) (c : N) (js : list nat) :
  chain_b b !! c = Some js → js = positions_from 0 c b.
Proof.
  unfold chain_b. intros H.
  assert (H' : index_elements b !! c = Some js).
  { destruct (200 <=? length b); [|done]. by apply map_lookup_filter_Some in H as [? _]. }
  rewrite index_elements_lookup in H'.
  destruct (positions_from 0 c b); congruence.
Qed.

End ChainB.

(** ** The matcher of difflib on two equal sequences *)

Section SelfMatch.
Import Difflib MatchInvariants.

Variable s : str.

Lemma run_kept_unfold j : run_kept s j = if kept_at s j then S (prev_run s j) else 0.
Proof. by destruct j. Qed.

Lemma run_kept_le j : run_kept s j ≤ S j.
Proof.
  induction j as [|j IH]; cbn; [destruct (kept_at s 0); lia|].
  destruct (kept_at s (S j)); lia.
Qed.

Lemma get_pred_le i j2len j :
  (∀ j' k, j2len !! j' = Some k → k ≤ run_kept s j' ∧ k ≤ prev_run s i) →
  j2len_get_pred j2len j ≤ prev_run s j ∧ j2len_get_pred j2len j ≤ prev_run s i.
Proof.
  intros H. destruct j as [|j']; cbn; [lia|].
  destruct (j2len !! j') as [k|] eqn:E; cbn; [|lia]. by apply H.
Qed.

Lemma scan_row_diag i j2len : ∀ rest newj2len best,
  kept_at s i = true →
  (∀ j' k, j2len !! j' = Some k → k ≤ run_kept s j' ∧ k ≤ prev_run s i) →
  j2len_get_pred j2len i = prev_run s i →
  StronglySorted lt rest →
  (∀ j, j ∈ rest → j < length s ∧ kept_at s j = true) →
  row_inv s i rest (newj2len, best) →
  row_inv s i [] (scan_row i 0 (length s) j2len rest newj2len best).
Proof.
  intros rest nj best Hi Hj2 Hpred.
  assert (Hri : run_kept s i = S (prev_run s i)) by (by rewrite run_kept_unfold, Hi).
  revert nj best.
  induction rest as [|j rest IH]; intros nj best Hsort Hrest Hinv; cbn [scan_row]; [done|].
  apply StronglySorted_inv in Hsort as [Hsort Hlt]. rewrite Forall_forall in Hlt.
  destruct (Hrest j (list_elem_of_here _ _)) as [Hjn Hjk].
  assert (Hrj : run_kept s j = S (prev_run s j)) by (by rewrite run_kept_unfold, Hjk).
  destruct (get_pred_le i j2len j Hj2) as [Hg1 Hg2].
  destruct (Nat.ltb_spec j 0) as [?|_]; [lia|].
  destruct (Nat.leb_spec (length s) j) as [?|_]; [lia|].
  destruct Hinv as (W1 & W2 & W3 & W4 & W5). cbn [fst snd] in *.
  apply IH; [done| |].
  { intros j' Hj'. apply Hrest. by apply list_elem_of_further. }
  assert (W1' : ∀ j' k, <[j:=j2len_get_pred j2len j + 1]> nj !! j' = Some k →
                        k ≤ run_kept s j' ∧ k ≤ run_kept s i).
  { intros j' k. destruct (decide (j = j')) as [<-|Hne].
    - rewrite lookup_insert_eq. intros [= <-]. lia.
    - rewrite lookup_insert_ne by done. apply W1. }
  destruct (lt_eq_lt_dec j i) as [[Hlt'|Heq]|Hgt].
  - (* below the diagonal: the run that ends at [j] was already seen *)
    pose proof (W5 j Hlt') as W5j.
    destruct (Nat.ltb_spec (m_size best) (j2len_get_pred j2len j + 1)) as [?|_]; [lia|].
    split; [exact W1'|]. cbn [fst snd]. split; [|done].
    destruct W2 as [Hin|[Hl Hs]].
    + left. apply elem_of_cons in Hin as [->|?]; [lia|done].
    + right. split; [|done]. rewrite lookup_insert_ne by lia. done.
  - (* on the diagonal *)
    subst j. rewrite Hpred. split; [by rewrite <- Hpred|]. cbn [fst snd].
    split; [right; split; [rewrite lookup_insert_eq; f_equal; lia|]|].
    + destruct (Nat.ltb_spec (m_size best) (prev_run s i + 1)); cbn; lia.
    + pose proof (run_kept_le i).
      destruct (Nat.ltb_spec (m_size best) (prev_run s i + 1)); cbn.
      * split; [done|]. split; [lia|]. intros j' Hj'. specialize (W5 j' Hj'). lia.
      * done.
  - (* above the diagonal: the diagonal entry of this row came first *)
    destruct W2 as [Hin|[Hl Hs]].
    { apply elem_of_cons in Hin as [->|Hin]; [lia|]. specialize (Hlt i Hin). lia. }
    destruct (Nat.ltb_spec (m_size best) (j2len_get_pred j2len j + 1)) as [?|_]; [lia|].
    split; [exact W1'|]. cbn [fst snd]. split; [|done].
    right. split; [|done]. rewrite lookup_insert_ne by lia. done.
Qed.

Lemma scan_rows_diag n : ∀ i st,
  i + n ≤ length s → diag_inv s i st →
  diag_inv s (i + n) (scan_rows s (chain_b s) 0 (length s) (seq i n) st).
Proof.
  induction n as [|n IH]; intros i st Hn Hinv; cbn [seq scan_rows foldl].
  { by rewrite Nat.add_0_r. }
  replace (i + S n) with (S i + n) by lia. apply IH; [lia|].
  destruct Hinv as (J1 & J2 & B1 & B2 & B3).
  destruct (s !! i) as [c|] eqn:Ec; [|apply lookup_ge_None in Ec; lia].
  destruct (chain_b s !! c) as [js|] eqn:Ejs; cbn [default].
  - assert (Hi : kept_at s i = true).
    { unfold kept_at. rewrite Ec. apply bool_decide_eq_true. by rewrite Ejs. }
    pose proof (chain_b_lookup s c js Ejs) as ->.
    destruct (scan_row_diag i st.1 (positions_from 0 c s) ∅ st.2 Hi J1 J2)
      as (W1 & W2 & W3 & W4 & W5).
    + apply positions_from_sorted.
    + intros j Hj. apply elem_of_positions_from in Hj as [_ Hj].
      rewrite Nat.sub_0_r in Hj. split; [by apply lookup_lt_Some in Hj|].
      unfold kept_at. rewrite Hj. apply bool_decide_eq_true. by rewrite Ejs.
    + split; [intros j k; cbn; by rewrite lookup_empty|]. cbn [fst snd].
      split; [left; apply elem_of_positions_from; split; [lia|by rewrite Nat.sub_0_r]|].
      split; [done|]. split; [lia|done].
    + destruct W2 as [Hin|[Hl Hs]]; [by apply elem_of_nil in Hin|].
      split; [exact W1|]. split; [cbn; by rewrite Hl|]. split; [done|]. split; [done|].
      intros j Hj. destruct (decide (j = i)) as [->|?]; [done|]. apply W5. lia.
  - assert (Hi : run_kept s i = 0).
    { rewrite run_kept_unfold. unfold kept_at. rewrite Ec.
      rewrite bool_decide_eq_false_2; [done|]. rewrite Ejs. by intros [? ?]. }
    cbn [scan_row]. split; [intros j k; cbn; by rewrite lookup_empty|]. cbn [fst snd].
    split; [cbn; by rewrite lookup_empty|]. split; [done|]. split; [lia|].
    intros j Hj. destruct (decide (j = i)) as [->|?]; [lia|]. apply B3. lia.
Qed.

Lemma extend_back_diag besti : ∀ bestsize,
  extend_back s s 0 0 besti besti bestsize = mkMatch 0 0 (besti + bestsize).
Proof.
  induction besti as [|i IH]; intros bestsize; cbn [extend_back]; [done|].
  cbn [Nat.ltb Nat.leb andb]. rewrite bool_decide_eq_true_2 by done.
  rewrite IH. f_equal. lia.
Qed.

Lemma extend_forward_diag turns : ∀ bestsize,
  bestsize + turns = length s →
  extend_forward turns s s (length s) (length s) 0 0 bestsize = mkMatch 0 0 (length s).
Proof.
  induction turns as [|turns IH]; intros bestsize H; cbn [extend_forward].
  { f_equal. lia. }
  cbn [Nat.add]. destruct (Nat.ltb_spec bestsize (length s)); [|lia].
  cbn [andb]. rewrite bool_decide_eq_true_2 by done. apply IH. lia.
Qed.

(** The longest match of a sequence with itself is the whole sequence, also
    when the purge removed elements from [b2j]. *)
Lemma find_longest_match_self :
  find_longest_match s s (chain_b s) 0 (length s) 0 (length s) = mkMatch 0 0 (length s).
Proof.
  unfold find_longest_match. rewrite Nat.sub_0_r.
  destruct (scan_rows_diag (length s) 0 (∅, mkMatch 0 0 0)) as (_ & _ & B1 & B2 & _).
  { done. }
  { split; [intros j k; cbn; by rewrite lookup_empty|]. cbn. split; [done|].
    split; [done|]. split; [lia|]. intros j Hj. lia. }
  cbn [Nat.add] in B1, B2.
  destruct (scan_rows s (chain_b s) 0 (length s) (seq 0 (length s)) (∅, mkMatch 0 0 0)).2
    as [bi bj bs]. cbn [m_a m_b m_size] in *. subst bj.
  rewrite extend_back_diag. cbn [m_a m_b m_size]. apply extend_forward_diag. lia.
Qed.

Lemma matches_self : matches s s = length s.
Proof.
  unfold matches. cbn [matching_size]. rewrite find_longest_match_self. cbn [m_a m_b m_size].
  destruct (Nat.eqb_spec (length s) 0) as [E|E]; [done|].
  rewrite Nat.add_0_l, !Nat.ltb_irrefl. cbn [andb]. lia.
Qed.

Lemma ratio_self : (ratio s s == 1)%Q.
Proof.
  unfold ratio, calculate_ratio. rewrite matches_self.
  destruct (length s + length s) as [|n] eqn:E; [reflexivity|].
  assert (E' : Z.pos (Pos.of_nat (S n)) = Z.of_nat (S n)) by lia.
  unfold Qeq. cbn [Qnum Qden]. rewrite E'. lia.
Qed.

End SelfMatch.

(** ** Similarity *)

Section SimilarityTheorems.
Import Text Difflib Matcher.

Example similarity_tide_diet :
  @similarity ascii_tables (py "tide") (py "diet") = (2 # 8)%Q
  ∧ @similarity ascii_tables (py "diet") (py "tide") = (4 # 8)%Q.
Proof. by vm_compute. Qed.

(** C5, as stated, fails: the ratio of the matcher depends on the order of
    its arguments. *)
Lemma C5_counterexample :
  ¬ (@similarity ascii_tables (py "tide") (py "diet")
     == @similarity ascii_tables (py "diet") (py "tide"))%Q.
Proof.
  rewrite (proj1 similarity_tide_diet), (proj2 similarity_tide_diet). by vm_compute.
Qed.

(** C5, amended. For all strings [a] and [b], the similarity of [a] with
    itself is 1 and the similarity of [a] and [b] lies between 0 and 1. *)
Theorem C5_similarity_reflexive_and_bounded `{U : UnicodeData} (a b : str) :
  (similarity a a == 1)%Q
  ∧ (0 <= similarity a b)%Q
  ∧ (similarity a b <= 1)%Q.
Proof.
  unfold similarity. split; [apply ratio_self | apply ratio_bounds].
Qed.

End SimilarityTheorems.

(** ** What the index holds after a forest was parsed *)

Section HierarchyContent.
Import Hierarchy Scenarios.

Implicit Types (h : index) (g a : str) (p path P : list str) (n : node)
  (occ : list (list str * str)).

Lemma add_paths_lookup g path (l : list nat) : ∀ h g',
  genre_to_parents (foldl (λ h' i, add_path g (take (S i) path) h') h l) !! g'
  = if decide (g' = g)
    then (λ s, list_to_set ((λ i, take (S i) path) <$> l) ∪ s) <$> genre_to_parents h !! g
    else genre_to_parents h !! g'.
Proof.
  induction l as [|i l IH]; intros h g'; cbn [foldl].
  { case_decide as E; [subst g'|done]. destruct (genre_to_parents h !! g); cbn; [|done].
    f_equal. set_solver. }
  rewrite IH. case_decide as E; cbn.
  - rewrite lookup_alter_eq. destruct (genre_to_parents h !! g); cbn; [|done].
    f_equal. set_solver.
  - rewrite lookup_alter_ne by done. done.
Qed.

Lemma visit_extended g path h :
  extended_by [(path, g)] h (add_ancestor_paths g path (ensure_entry g (register g h))).
Proof.
  assert (Hl : ∀ g', genre_to_parents
                 (add_ancestor_paths g path (ensure_entry g (register g h))) !! g'
               = if decide (g' = g)
                 then Some (list_to_set (nonempty_prefixes path) ∪ stored_paths h g)
                 else genre_to_parents h !! g').
  { intros g'. unfold add_ancestor_paths. rewrite add_paths_lookup.
    unfold ensure_entry, stored_paths, nonempty_prefixes. cbn.
    destruct (genre_to_parents h !! g) as [s|] eqn:E; cbn.
    - rewrite E. done.
    - rewrite lookup_insert_eq. cbn. case_decide as Eg; [done|].
      by rewrite lookup_insert_ne. }
  split; [|split; [|split]].
  - intros x. rewrite all_genres_add_ancestor_paths.
    assert (E : all_genres (ensure_entry g (register g h)) = {[ g ]} ∪ all_genres h).
    { unfold ensure_entry. by destruct (genre_to_parents (register g h) !! g). }
    rewrite E, elem_of_union, elem_of_singleton. split.
    + intros [->|?]; [right; exists path; apply list_elem_of_here | by left].
    + intros [?|[P HP]]; [by right|]. apply list_elem_of_singleton in HP. left. congruence.
  - intros g'. rewrite Hl. case_decide as E.
    + subst g'. split; [|done]. intros _. right. exists path. apply list_elem_of_here.
    + split; [by left|]. intros [?|[P HP]]; [done|].
      apply list_elem_of_singleton in HP. congruence.
  - intros g' p. unfold stored_paths at 1. rewrite Hl. case_decide as E; cbn.
    + subst g'. rewrite elem_of_union, elem_of_list_to_set. split.
      * intros [?|?]; [right|by left]. exists path. split; [apply list_elem_of_here|done].
      * intros [?|(P & HP & Hp)]; [by right|left].
        apply list_elem_of_singleton in HP. congruence.
    + split; [by left|]. intros [?|(P & HP & _)]; [done|].
      apply list_elem_of_singleton in HP. congruence.
  - unfold add_ancestor_paths. generalize (seq 0 (length path)) as l.
    assert (E : excluded_genres (ensure_entry g (register g h)) = excluded_genres h).
    { unfold ensure_entry. by destruct (genre_to_parents (register g h) !! g). }
    rewrite <- E. generalize (ensure_entry g (register g h)) as h2. clear.
    intros h2 l. revert h2. induction l as [|i l IH]; intros h2; [done|].
    cbn [foldl]. by rewrite IH.
Qed.

Lemma extended_by_nil h : extended_by [] h h.
Proof.
  split; [|split; [|split]]; [intros x|intros g|intros g p|done]; (split; [by left|]).
  - intros [?|[P HP]]; [done|]. by apply elem_of_nil in HP.
  - intros [?|[P HP]]; [done|]. by apply elem_of_nil in HP.
  - intros [?|(P & HP & _)]; [done|]. by apply elem_of_nil in HP.
Qed.

Lemma extended_by_app occ1 occ2 h h1 h2 :
  extended_by occ1 h h1 → extended_by occ2 h1 h2 → extended_by (occ1 ++ occ2) h h2.
Proof.
  intros (A1 & A2 & A3 & A4) (B1 & B2 & B3 & B4). split; [|split; [|split]].
  - intros x. rewrite B1, A1. setoid_rewrite elem_of_app. naive_solver.
  - intros g. rewrite B2, A2. setoid_rewrite elem_of_app. naive_solver.
  - intros g p. rewrite B3, A3. setoid_rewrite elem_of_app. naive_solver.
  - congruence.
Qed.

(** Parsing a well-formed node visits the node and everything below it. *)
Lemma parse_node_extended n : ∀ path h,
  well_formed n = true →
  extended_by (occurrences_node path n) h (parse_node path n h).2.
Proof.
  induction n as [|name children IH] using node_ind'; intros path h Hwf; [done|].
  destruct name as [g|]; [|done].
  rewrite parse_node_unfold. cbv zeta. cbn [occurrences_node].
  change ((path, g) :: ?l) with ([(path, g)] ++ l).
  eapply extended_by_app; [apply visit_extended|].
  generalize (add_ancestor_paths g path (ensure_entry g (register g h))) as h3.
  destruct children as [[|k kids]|]; [intros; apply extended_by_nil| |intros; apply extended_by_nil].
  specialize (IH _ eq_refl). cbn [well_formed] in Hwf.
  revert Hwf IH. generalize (path ++ [g]) as cp. generalize (k :: kids) as l. clear.
  induction l as [|k l IHl]; intros cp Hwf IH h3; [apply extended_by_nil|].
  cbn [forallb] in Hwf. apply andb_prop in Hwf as [Hk Hl].
  apply Forall_cons in IH as [IHk IHrest]. cbn [parse_tree flat_map].
  pose proof (parse_node_well_formed k cp h3 Hk) as Hd.
  specialize (IHk cp h3 Hk).
  destruct (parse_node cp k h3) as [[] h4]; cbn [fst snd] in *; [|done].
  eapply extended_by_app; [exact IHk|]. by apply IHl.
Qed.

Lemma parse_tree_extended nodes : ∀ path h,
  forallb well_formed nodes = true →
  extended_by (occurrences path nodes) h (parse_tree nodes path h).2.
Proof.
  induction nodes as [|n nodes IH]; intros path h Hwf; [apply extended_by_nil|].
  cbn [forallb] in Hwf. apply andb_prop in Hwf as [Hn Hrest].
  cbn [parse_tree occurrences flat_map].
  pose proof (parse_node_well_formed n path h Hn) as Hd.
  pose proof (parse_node_extended n path h Hn) as He.
  destruct (parse_node path n h) as [[] h']; cbn [fst snd] in *; [|done].
  eapply extended_by_app; [exact He|]. by apply IH.
Qed.

Lemma build_extended (excl : option (list str)) (forest : list node) :
  forallb well_formed forest = true →
  extended_by (occurrences [] forest) (load_excluded_genres excl empty_index)
    (build excl (Parsed (Some forest))).2.
Proof. intros Hwf. by apply parse_tree_extended. Qed.

Lemma elem_of_nonempty_prefixes p P :
  p ∈ nonempty_prefixes P ↔ ∃ i, i < length P ∧ p = take (S i) P.
Proof.
  unfold nonempty_prefixes. rewrite list_elem_of_fmap. split.
  - intros (i & -> & Hi). apply elem_of_seq in Hi. exists i. split; [lia|done].
  - intros (i & Hi & ->). exists i. split; [done|]. apply elem_of_seq. lia.
Qed.

Lemma elem_of_some_prefix a P :
  a ∈ P ↔ ∃ p, p ∈ nonempty_prefixes P ∧ a ∈ p.
Proof.
  split.
  - intros Ha. exists P. split; [|done]. apply elem_of_nonempty_prefixes.
    destruct P as [|x P]; [by apply elem_of_nil in Ha|].
    exists (length P). split; [cbn; lia|]. symmetry. apply take_ge. cbn. lia.
  - intros (p & Hp & Ha). apply elem_of_nonempty_prefixes in Hp as (i & _ & ->).
    by apply elem_of_take in Ha as (? & ?%list_elem_of_lookup_2 & _).
Qed.

(** After a well-formed taxonomy was loaded, the known genres are the names
    of its nodes, and they are the keys of the ancestor map. *)
Theorem known_genres_are_the_node_names (excl : option (list str)) (forest : list node) g :
  forallb well_formed forest = true →
  (g ∈ all_genres (build excl (Parsed (Some forest))).2 ↔
     ∃ P, (P, g) ∈ occurrences [] forest)
  ∧ (is_Some (genre_to_parents (build excl (Parsed (Some forest))).2 !! g) ↔
     g ∈ all_genres (build excl (Parsed (Some forest))).2).
Proof.
  intros Hwf. destruct (build_extended excl forest Hwf) as (H1 & H2 & _ & _).
  assert (E : g ∈ all_genres (build excl (Parsed (Some forest))).2 ↔
              ∃ P, (P, g) ∈ occurrences [] forest).
  { rewrite H1. cbn. split; [|by right]. intros [Hx|?]; [|done]. by apply not_elem_of_empty in Hx. }
  split; [exact E|]. rewrite E, H2. cbn. rewrite lookup_empty. split; [|by right].
  intros [[? ?]|?]; done.
Qed.

Lemma known_genres_are_the_node_names_witness :
  py "Ambient" ∈ all_genres black_ambient_index
  ↔ ∃ P, (P, py "Ambient") ∈ occurrences [] black_ambient_forest.
Proof.
  exact (proj1 (known_genres_are_the_node_names (Some [py "Regional Music"])
                  black_ambient_forest (py "Ambient") eq_refl)).
Defined.

(** After a well-formed taxonomy was loaded, the parents of a genre are
    exactly the names found above a node of that name, on any route to it. *)
Theorem all_parents_are_the_ancestors (excl : option (list str)) (forest : list node) g a :
  forallb well_formed forest = true →
  a ∈ get_all_parent_genres (build excl (Parsed (Some forest))).2 g ↔
  ∃ P, (P, g) ∈ occurrences [] forest ∧ a ∈ P.
Proof.
  intros Hwf. destruct (build_extended excl forest Hwf) as (_ & _ & H3 & _).
  rewrite elem_of_get_all_parent_genres. split.
  - intros (paths & p & Hl & Hp & Ha).
    assert (Hs : p ∈ stored_paths (build excl (Parsed (Some forest))).2 g).
    { unfold stored_paths. by rewrite Hl. }
    apply H3 in Hs as [Hs|(P & HP & Hpre)].
    { unfold stored_paths in Hs. cbn in Hs. rewrite lookup_empty in Hs.
      by apply not_elem_of_empty in Hs. }
    exists P. split; [done|]. apply elem_of_some_prefix. eauto.
  - intros (P & HP & Ha). apply elem_of_some_prefix in Ha as (p & Hp & Ha).
    assert (Hs : p ∈ stored_paths (build excl (Parsed (Some forest))).2 g).
    { apply H3. right. eauto. }
    unfold stored_paths in Hs.
    destruct (genre_to_parents (build excl (Parsed (Some forest))).2 !! g) as [paths|];
      [|by apply not_elem_of_empty in Hs].
    exists paths, p. done.
Qed.

Lemma all_parents_are_the_ancestors_witness :
  py "Electronic" ∈ get_all_parent_genres black_ambient_index (py "Black Ambient")
  ↔ ∃ P, (P, py "Black Ambient") ∈ occurrences [] black_ambient_forest ∧ py "Electronic" ∈ P.
Proof.
  exact (all_parents_are_the_ancestors (Some [py "Regional Music"]) black_ambient_forest
           (py "Black Ambient") (py "Electronic") eq_refl).
Defined.

End HierarchyContent.

(** ** More on the index and its queries *)

Section HierarchyQueries.
Import Hierarchy Scenarios.

Implicit Types (h : index) (g a x : str) (p path P : list str) (genres : list str).

(** A genre that sits below two different non-empty chains of ancestors has
    both chains among its stored tuples, hence at least two of them. *)
Theorem multi_parent_genre_has_two_paths (excl : option (list str)) (forest : list node)
    g P1 P2 :
  forallb well_formed forest = true →
  (P1, g) ∈ occurrences [] forest → (P2, g) ∈ occurrences [] forest →
  P1 ≠ [] → P2 ≠ [] → P1 ≠ P2 →
  ∃ paths, genre_to_parents (build excl (Parsed (Some forest))).2 !! g = Some paths
           ∧ P1 ∈ paths ∧ P2 ∈ paths ∧ 2 ≤ size paths.
Proof.
  intros Hwf H1 H2 N1 N2 Hne.
  destruct (build_extended excl forest Hwf) as (_ & _ & H3 & _).
  assert (Hself : ∀ P, P ≠ [] → P ∈ nonempty_prefixes P).
  { intros P HP. apply elem_of_nonempty_prefixes. destruct P as [|x P]; [done|].
    exists (length P). split; [cbn; lia|]. symmetry. apply take_ge. cbn. lia. }
  assert (S1 : P1 ∈ stored_paths (build excl (Parsed (Some forest))).2 g).
  { apply H3. right. exists P1. auto. }
  assert (S2 : P2 ∈ stored_paths (build excl (Parsed (Some forest))).2 g).
  { apply H3. right. exists P2. auto. }
  unfold stored_paths in S1, S2.
  destruct (genre_to_parents (build excl (Parsed (Some forest))).2 !! g) as [paths|];
    [|by apply not_elem_of_empty in S1].
  exists paths. cbn in S1, S2. split; [done|]. split; [done|]. split; [done|].
  assert (Hsub : ({[ P1 ]} ∪ {[ P2 ]} : gset (list str)) ⊆ paths) by set_solver.
  apply subseteq_size in Hsub. rewrite size_union in Hsub by set_solver.
  by rewrite !size_singleton in Hsub.
Qed.

Lemma multi_parent_genre_has_two_paths_witness :
  ∃ paths, genre_to_parents (build None (Parsed (Some two_route_forest))).2 !! py "Post-Rock"
           = Some paths
           ∧ [py "Rock"] ∈ paths ∧ [py "Experimental"] ∈ paths ∧ 2 ≤ size paths.
Proof.
  refine (multi_parent_genre_has_two_paths None two_route_forest (py "Post-Rock")
            [py "Rock"] [py "Experimental"] eq_refl _ _ _ _ _).
  - cbn. apply list_elem_of_further, list_elem_of_here.
  - cbn. do 3 apply list_elem_of_further. apply list_elem_of_here.
  - discriminate.
  - discriminate.
  - by vm_compute.
Defined.

Lemma tuples_nonempty_visit g path h :
  tuples_nonempty h →
  tuples_nonempty (add_ancestor_paths g path (ensure_entry g (register g h))).
Proof.
  intros H g' paths. unfold add_ancestor_paths. rewrite add_paths_lookup.
  assert (H2 : tuples_nonempty (ensure_entry g (register g h))).
  { intros g2 ps. unfold ensure_entry.
    destruct (genre_to_parents (register g h) !! g) eqn:E; cbn; [apply H|].
    destruct (decide (g = g2)) as [->|?].
    - rewrite lookup_insert_eq. intros [= <-]. apply not_elem_of_empty.
    - rewrite lookup_insert_ne by done. apply H. }
  case_decide as E; [|apply H2].
  destruct (genre_to_parents (ensure_entry g (register g h)) !! g) as [s|] eqn:Es; [|done].
  cbn. intros [= <-]. rewrite elem_of_union, elem_of_list_to_set, list_elem_of_fmap.
  intros [(i & Hi & Hin)|Hin]; [|by apply (H2 g s)].
  apply elem_of_seq in Hin. destruct path; [cbn in Hin; lia|done].
Qed.

Lemma build_invariants (excl : option (list str)) (f : taxonomy_file) :
  (build excl f).1 = Done
  ∧ excluded_genres (build excl f).2
    = match excl with Some l => list_to_set l | None => ∅ end
  ∧ keys_registered (build excl f).2
  ∧ paths_registered (build excl f).2
  ∧ tuples_nonempty (build excl f).2.
Proof.
  split; [apply load_hierarchy_never_raises|].
  split; [apply excluded_genres_build|]. split; [apply keys_registered_build|].
  assert (P0 : paths_registered (load_excluded_genres excl empty_index)).
  { intros g paths p a Hl. cbn in Hl. by rewrite lookup_empty in Hl. }
  assert (T0 : tuples_nonempty (load_excluded_genres excl empty_index)).
  { intros g paths Hl. cbn in Hl. by rewrite lookup_empty in Hl. }
  unfold build, load_hierarchy, try_except.
  destruct f as [| |[nodes|]]; try (split; [exact P0|exact T0]). cbn [snd]. split.
  - apply parse_tree_invariant; [exact P0|constructor].
  - apply parse_tree_preserves; [apply tuples_nonempty_visit | exact T0].
Qed.


Lemma expand_fold_elem h genres : ∀ (acc : gset str) x,
  x ∈ foldl (expand_step h) acc genres ↔
  x ∈ acc ∨ ((x ∉ excluded_genres h)
             ∧ ∃ g, g ∈ genres
                    ∧ (x = g ∨ (g ∈ all_genres h ∧ x ∈ get_all_parent_genres h g))).
Proof.
  induction genres as [|g genres IH]; intros acc x; cbn [foldl].
  { split; [by left|]. intros [?|(_ & g & Hg & _)]; [done|]. by apply elem_of_nil in Hg. }
  rewrite IH. clear IH. setoid_rewrite elem_of_cons.
  assert (Hstep : x ∈ expand_step h acc g ↔
            x ∈ acc ∨ ((x ∉ excluded_genres h)
                       ∧ (x = g ∨ (g ∈ all_genres h ∧ x ∈ get_all_parent_genres h g)))).
  { unfold expand_step. repeat case_decide; set_unfold; naive_solver. }
  rewrite Hstep. naive_solver.
Qed.

Lemma elem_of_expand_genres_hierarchically h genres x :
  x ∈ expand_genres_hierarchically h genres ↔
  (x ∉ excluded_genres h)
  ∧ ∃ g, g ∈ genres ∧ (x = g ∨ (g ∈ all_genres h ∧ x ∈ get_all_parent_genres h g)).
Proof.
  unfold expand_genres_hierarchically. rewrite expand_fold_elem.
  split; [|by right]. intros [Hx|?]; [|done]. by apply not_elem_of_empty in Hx.
Qed.

(** The expansion of a list of genres holds exactly the non-excluded names
    that are an input genre or a parent of a known input genre. *)
Theorem expansion_members h genres x :
  x ∈ expand_genres_hierarchically h genres ↔
  (x ∉ excluded_genres h)
  ∧ ∃ g, g ∈ genres ∧ (x = g ∨ (g ∈ all_genres h ∧ x ∈ get_all_parent_genres h g)).
Proof. exact (elem_of_expand_genres_hierarchically h genres x). Qed.

(** Expanding two lists one after the other gives the union of the two
    expansions: the result does not depend on how the genres are grouped or
    ordered. *)
Theorem expansion_of_append h (genres1 genres2 : list str) :
  expand_genres_hierarchically h (genres1 ++ genres2)
  = expand_genres_hierarchically h genres1 ∪ expand_genres_hierarchically h genres2.
Proof.
  apply set_eq. intros x. rewrite elem_of_union, !elem_of_expand_genres_hierarchically.
  setoid_rewrite elem_of_app. naive_solver.
Qed.

Lemma filter_valid_fold h genres : ∀ (acc : list str * list str),
  foldl (λ (acc : list str * list str) genre,
           if is_valid_genre h genre then (acc.1 ++ [genre], acc.2)
           else (acc.1, acc.2 ++ [genre])) acc genres
  = (acc.1 ++ filter (λ g, g ∈ all_genres h) genres,
     acc.2 ++ filter (λ g, g ∉ all_genres h) genres).
Proof.
  induction genres as [|g genres IH]; intros [v i]; cbn [foldl fst snd].
  { by rewrite !filter_nil, !app_nil_r. }
  rewrite IH, !filter_cons. unfold is_valid_genre.
  destruct (decide (g ∈ all_genres h)) as [Hg|Hg].
  - rewrite bool_decide_eq_true_2 by done. cbn [fst snd].
    rewrite decide_False by (by intros ?). by rewrite <- app_assoc.
  - rewrite bool_decide_eq_false_2 by done. cbn [fst snd].
    rewrite decide_True by done. by rewrite <- app_assoc.
Qed.

Lemma filter_excluded_fold h genres : ∀ (acc : list str * list str),
  foldl (λ (acc : list str * list str) genre,
           if is_excluded_genre h genre then (acc.1, acc.2 ++ [genre])
           else (acc.1 ++ [genre], acc.2)) acc genres
  = (acc.1 ++ filter (λ g, g ∉ excluded_genres h) genres,
     acc.2 ++ filter (λ g, g ∈ excluded_genres h) genres).
Proof.
  induction genres as [|g genres IH]; intros [v i]; cbn [foldl fst snd].
  { by rewrite !filter_nil, !app_nil_r. }
  rewrite IH, !filter_cons. unfold is_excluded_genre.
  destruct (decide (g ∈ excluded_genres h)) as [Hg|Hg].
  - rewrite bool_decide_eq_true_2 by done. cbn [fst snd].
    rewrite decide_False by (by intros ?). by rewrite <- app_assoc.
  - rewrite bool_decide_eq_false_2 by done. cbn [fst snd].
    rewrite decide_True by done. by rewrite <- app_assoc.
Qed.

(** [filter_valid_genres] splits its input in two without losing, adding or
    reordering anything: the first list is the sub-list of the known genres,
    the second the sub-list of the others, each in input order. *)
Theorem filter_valid_genres_splits h genres :
  filter_valid_genres h genres
  = (filter (λ g, g ∈ all_genres h) genres, filter (λ g, g ∉ all_genres h) genres)
  ∧ length (filter_valid_genres h genres).1 + length (filter_valid_genres h genres).2
    = length genres.
Proof.
  unfold filter_valid_genres. rewrite filter_valid_fold. cbn [fst snd app].
  split; [done|]. induction genres as [|g genres IH]; [done|].
  rewrite !filter_cons. destruct (decide (g ∈ all_genres h)).
  - rewrite decide_False by (by intros ?). cbn. lia.
  - rewrite decide_True by done. cbn. lia.
Qed.

(** [filter_excluded_genres] splits its input the same way, and the genres
    it lets through are all in the hierarchical expansion of the input. *)
Theorem filter_excluded_genres_splits h genres :
  filter_excluded_genres h genres
  = (filter (λ g, g ∉ excluded_genres h) genres, filter (λ g, g ∈ excluded_genres h) genres)
  ∧ (∀ g, g ∈ (filter_excluded_genres h genres).1 → g ∈ expand_genres_hierarchically h genres)
  ∧ (∀ g, g ∈ (filter_excluded_genres h genres).2 → g ∉ expand_genres_hierarchically h genres).
Proof.
  unfold filter_excluded_genres. rewrite filter_excluded_fold. cbn [fst snd app].
  split; [done|]. split; intros g Hg; apply list_elem_of_filter in Hg as [Hex Hin].
  - apply elem_of_expand_genres_hierarchically. split; [done|]. exists g. auto.
  - intros Hx. apply elem_of_expand_genres_hierarchically in Hx as [Hx _]. done.
Qed.

(** For an index left by the constructor, whatever its input: every path
    that [get_genre_paths] returns ends with the genre and holds known genres
    only; there are as many paths as stored tuples; and there is no path at
    all exactly when the genre has no parents, which is the case of an
    unknown genre and of a genre that only occurs as a root. *)
Theorem genre_paths_of_built_index (excl : option (list str)) (f : taxonomy_file) g :
  (∀ path, path ∈ get_genre_paths (build excl f).2 g →
           last path = Some g ∧ ∀ a, a ∈ path → a ∈ all_genres (build excl f).2)
  ∧ length (get_genre_paths (build excl f).2 g) = size (stored_paths (build excl f).2 g)
  ∧ (get_genre_paths (build excl f).2 g = [] ↔ get_all_parent_genres (build excl f).2 g = ∅).
Proof.
  destruct (build_invariants excl f) as (_ & _ & HK & HP & HT).
  unfold get_genre_paths, stored_paths, get_all_parent_genres.
  destruct (genre_to_parents (build excl f).2 !! g) as [paths|] eqn:E; cbn.
  - split; [|split].
    + intros path Hp. apply list_elem_of_fmap in Hp as (p & -> & Hp).
      apply elem_of_elements in Hp. split; [by rewrite last_snoc|].
      intros a Ha. apply elem_of_app in Ha as [Ha|Ha]; [by eapply HP|].
      apply list_elem_of_singleton in Ha as ->. apply HK. by rewrite E.
    + by rewrite length_fmap.
    + split.
      * intros H. apply fmap_nil_inv in H. by rewrite H.
      * intros H. destruct (elements paths) as [|p ps] eqn:Ep; [done|exfalso].
        assert (Hp : p ∈ paths) by (apply elem_of_elements; rewrite Ep; apply list_elem_of_here).
        destruct p as [|a p]; [by apply (HT g paths E)|].
        assert (Ha : a ∈ (∅ : gset str)); [|by apply not_elem_of_empty in Ha].
        rewrite <- H. cbn. set_solver.
  - split; [|split; [by rewrite size_empty|done]].
    intros path Hp. by apply elem_of_nil in Hp.
Qed.

End HierarchyQueries.

(** ** More on the grouping tag *)

Section ResolverMore.
Import Hierarchy Resolver Scenarios.

Implicit Types (h : index) (g a x : str) (genres : list str) (cfg : config).

Lemma NoDup_parent_list h genres : NoDup (parent_list h genres).
Proof.
  unfold parent_list. destruct (foldl (collect_step h) (∅, ∅) genres). apply NoDup_sorted.
Qed.

Lemma elem_of_get_parent_genres cfg (gh : option index) genres x :
  x ∈ get_parent_genres cfg gh genres →
  ∃ h, gh = Some h ∧ x ∈ parent_list h genres.
Proof.
  unfold get_parent_genres.
  destruct (negb (use_hierarchy cfg) || bool_decide (genres = [])); [by intros ?%elem_of_nil|].
  destruct gh as [h|]; [|by intros ?%elem_of_nil].
  intros Hin. exists h. split; [done|].
  destruct (0 <? max_groupings cfg)%Z; [|done].
  apply elem_of_take in Hin as (i & Hi & _). by apply list_elem_of_lookup_2 in Hi.
Qed.

(** The grouping never repeats a genre, and with an index left by the
    constructor every genre of the grouping is in the hierarchical expansion
    of the same primary genres: the grouping adds no name that the expansion
    would not give. *)
Theorem grouping_within_expansion cfg (excl : option (list str)) (f : taxonomy_file)
    (gh : option index) genres :
  NoDup (get_parent_genres cfg gh genres)
  ∧ ∀ x, x ∈ get_parent_genres cfg (Some (build excl f).2) genres →
         x ∈ expand_genres_hierarchically (build excl f).2 genres.
Proof.
  split.
  - unfold get_parent_genres.
    destruct (negb (use_hierarchy cfg) || bool_decide (genres = [])); [constructor|].
    destruct gh as [h|]; [|constructor].
    destruct (0 <? max_groupings cfg)%Z; [|apply NoDup_parent_list].
    pose proof (NoDup_parent_list h genres) as Hn.
    rewrite <- (take_drop (Z.to_nat (max_groupings cfg)) (parent_list h genres)) in Hn.
    by apply NoDup_app in Hn as [? _].
  - intros x Hx. apply elem_of_get_parent_genres in Hx as (h & [= <-] & Hx).
    apply elem_of_parent_list in Hx as [Hex [[(g & Hg & Ha) _]|[Hg _]]];
      apply elem_of_expand_genres_hierarchically; (split; [done|]).
    + exists g. split; [done|]. right. split; [|done].
      apply keys_registered_build.
      apply elem_of_get_all_parent_genres in Ha as (paths & _ & Hl & _). by rewrite Hl.
    + exists x. auto.
Qed.

(** With the hierarchy feature on, a parent of a primary genre that is
    neither a primary genre itself nor excluded is in the sorted list of
    groupings, and in the returned grouping at the same position unless
    [max_groupings] cuts it off. *)
Theorem ancestor_is_grouping cfg h genres g a :
  use_hierarchy cfg = true →
  g ∈ genres → a ∈ get_all_parent_genres h g → a ∉ genres → a ∉ excluded_genres h →
  a ∈ parent_list h genres
  ∧ ∀ i, parent_list h genres !! i = Some a →
         ((max_groupings cfg ≤ 0)%Z ∨ (Z.of_nat i < max_groupings cfg)%Z) →
         get_parent_genres cfg (Some h) genres !! i = Some a.
Proof.
  intros Hu Hg Ha Hn Hex. split.
  - apply elem_of_parent_list. split; [done|]. left. eauto.
  - intros i Hi Hcut. unfold get_parent_genres. rewrite Hu. cbn [negb orb].
    rewrite bool_decide_eq_false_2 by (by intros ->; apply elem_of_nil in Hg).
    destruct (0 <? max_groupings cfg)%Z eqn:E; [|done].
    apply Z.ltb_lt in E. rewrite lookup_take_lt by lia. done.
Qed.

Lemma ancestor_is_grouping_witness :
  get_parent_genres (Config true 30) (Some black_ambient_index) [py "Black Ambient"] !! 0
  = Some (py "Ambient").
Proof.
  refine (proj2 (ancestor_is_grouping (Config true 30) black_ambient_index
                   [py "Black Ambient"] (py "Black Ambient") (py "Ambient")
                   eq_refl _ _ _ _) 0 _ _).
  - apply list_elem_of_here.
  - by vm_compute.
  - intros H. apply list_elem_of_singleton in H. vm_compute in H. discriminate.
  - by vm_compute.
  - by vm_compute.
  - right. cbn. lia.
Defined.

End ResolverMore.

(** ** The tag strings *)

Section TagStrings.
Import Text Matcher Tags.

Implicit Types (v x : str) (values : list str).

Lemma split_on_plain c x : c ∉ x → split_on c x = [x].
Proof.
  induction x as [|a x IH]; intros H; cbn; [done|].
  apply not_elem_of_cons in H as [Ha Hx].
  rewrite decide_False by done. by rewrite IH.
Qed.

Lemma split_on_first c x rest : c ∉ x → split_on c (x ++ c :: rest) = x :: split_on c rest.
Proof.
  induction x as [|a x IH]; intros H; cbn.
  { by rewrite decide_True. }
  apply not_elem_of_cons in H as [Ha Hx].
  rewrite decide_False by done. by rewrite IH.
Qed.

Lemma split_on_join values : ∀ x,
  SEMICOLON ∉ x → Forall plain values →
  split_on SEMICOLON (join separator (x :: values)) = x :: ((SPACE ::.) <$> values).
Proof.
  induction values as [|y values IH]; intros x Hx Hv.
  { cbn [join fmap list_fmap]. by apply split_on_plain. }
  apply Forall_cons in Hv as [Hy Hv].
  change (join separator (x :: y :: values))
    with (x ++ SEMICOLON :: (SPACE :: join separator (y :: values))).
  rewrite split_on_first by done. f_equal.
  cbn [split_on]. rewrite decide_False by done.
  rewrite IH by (done || apply Hy). done.
Qed.

Lemma strip_leading_space v : strip (SPACE :: v) = strip v.
Proof. reflexivity. Qed.

Lemma listed_join values :
  values ≠ [] → Forall plain values → listed (join separator values) = values.
Proof.
  intros Hne Hv. destruct values as [|x values]; [done|].
  apply Forall_cons in Hv as [Hx Hv]. unfold listed.
  rewrite split_on_join by (done || apply Hx). rewrite fmap_cons.
  destruct Hx as (_ & Sx & Nx). rewrite Sx, filter_cons, decide_True by done. f_equal.
  clear x Sx Nx Hne. induction values as [|y values IH]; [done|].
  apply Forall_cons in Hv as [(_ & Sy & Ny) Hv].
  rewrite !fmap_cons, strip_leading_space, Sy, filter_cons, decide_True by done.
  f_equal. by apply IH.
Qed.

Lemma flac_array_join values :
  values ≠ [] → Forall plain values → flac_array (join separator values) = values.
Proof.
  intros Hne Hv. unfold flac_array. case_bool_decide as Hs; [by apply listed_join|].
  destruct values as [|x [|y values]]; [done| |].
  - apply Forall_cons in Hv as [(_ & Sx & _) _]. cbn [join]. by rewrite Sx.
  - destruct Hs. change (join separator (x :: y :: values))
      with (x ++ SEMICOLON :: (SPACE :: join separator (y :: values))).
    apply elem_of_app. right. apply list_elem_of_here.
Qed.

(** What reaches the file: when the genres of a record are plain (no
    semicolon inside, trimmed, not empty), the list written for the tag
    string of [_apply_rym_tags] is the list of the first [max] genres, and
    the list that the log shows is the same. *)
Theorem written_list_is_the_truncated_list values (max : Z) :
  applies values max = true → Forall plain values →
  flac_array (joined values max) = take (Z.to_nat max) values
  ∧ listed (joined values max) = take (Z.to_nat max) values
  ∧ (Z.of_nat (length (flac_array (joined values max))) ≤ max)%Z.
Proof.
  intros Ha Hv. unfold applies in Ha. apply andb_prop in Ha as [Hne Hm].
  apply bool_decide_eq_true in Hne. apply Z.ltb_lt in Hm.
  assert (Hne' : take (Z.to_nat max) values ≠ []).
  { destruct values as [|x values]; [done|].
    destruct (Z.to_nat max) as [|n] eqn:E; [lia|done]. }
  assert (Hv' : Forall plain (take (Z.to_nat max) values)) by (by apply Forall_take).
  unfold joined. rewrite flac_array_join, listed_join by done.
  split; [done|]. split; [done|]. rewrite length_take. lia.
Qed.

Lemma written_list_is_the_truncated_list_witness :
  flac_array (joined [py "Ambient"; py "Dark Ambient"; py "Drone"] 2)
  = [py "Ambient"; py "Dark Ambient"].
Proof.
  refine (proj1 (written_list_is_the_truncated_list
                   [py "Ambient"; py "Dark Ambient"; py "Drone"] 2 eq_refl _)).
  apply (bool_decide_unpack _). by vm_compute.
Defined.

(** Skipping is safe: for an album that the [rym] command finds up to date,
    [_apply_rym_tags] would not change any of the four tags. *)
Theorem up_to_date_album_is_unchanged (lim : limits) (release_data : release)
    (groupings : list str) (album : album_tags) :
  up_to_date album (new_tags lim release_data groupings) = true →
  apply_rym_tags lim release_data groupings album = album.
Proof.
  unfold up_to_date, new_tags, apply_rym_tags. destruct album as [g s d p]. cbn.
  intros H. repeat (apply andb_prop in H as [H ?]).
  repeat match goal with H : bool_decide _ = true |- _ => apply bool_decide_eq_true in H end.
  f_equal.
  - by destruct (applies (genres release_data) (max_genres lim)).
  - by destruct (applies (secondaryGenres release_data) (max_secondary_genres lim)).
  - by destruct (applies (descriptors release_data) (max_descriptors lim)).
  - by destruct (bool_decide (groupings ≠ [])).
Qed.

Lemma up_to_date_album_is_unchanged_witness :
  apply_rym_tags (Limits 10 20 60)
    (Release (py "A") (py "T") [py "Ambient"; py "Drone"] [] [])
    [py "Electronic"] (AlbumTags (py "Ambient; Drone") [] [] (py "Electronic"))
  = AlbumTags (py "Ambient; Drone") [] [] (py "Electronic").
Proof.
  exact (up_to_date_album_is_unchanged (Limits 10 20 60)
           (Release (py "A") (py "T") [py "Ambient"; py "Drone"] [] [])
           [py "Electronic"] (AlbumTags (py "Ambient; Drone") [] [] (py "Electronic"))
           eq_refl).
Defined.

(** After [_apply_rym_tags], the album is up to date exactly when every tag
    that the record leaves unassigned was empty before; an old value in such
    a tag stays, and the command updates that album again on every run. *)
Theorem up_to_date_after_apply (lim : limits) (release_data : release)
    (groupings : list str) (album : album_tags) :
  up_to_date (apply_rym_tags lim release_data groupings album)
             (new_tags lim release_data groupings) = true
  ↔ (applies (genres release_data) (max_genres lim) = true ∨ genre album = [])
    ∧ (applies (secondaryGenres release_data) (max_secondary_genres lim) = true
       ∨ secondary_genre album = [])
    ∧ (applies (descriptors release_data) (max_descriptors lim) = true ∨ descriptor album = [])
    ∧ (groupings ≠ [] ∨ grouping album = []).
Proof.
  unfold up_to_date, new_tags, apply_rym_tags. cbn.
  rewrite !andb_true_iff, !bool_decide_eq_true.
  destruct (applies (genres release_data) (max_genres lim));
    destruct (applies (secondaryGenres release_data) (max_secondary_genres lim));
    destruct (applies (descriptors release_data) (max_descriptors lim));
    case_bool_decide; naive_solver.
Qed.

End TagStrings.

(** ** The record that the scan returns *)

Section SelectionMore.
Import Text Matcher Scenarios.

Implicit Types (cfg : config) (r : release) (st : option release * Q)
  (scores : release → Q * Q) (rym_data : catalog).

Lemma adopt_eligible cfg a t r st :
  (st.2 < mean_score (a, t))%Q → eligible cfg (a, t) →
  adopt cfg a t r st = (Some r, mean_score (a, t)).
Proof.
  intros Hc [He|(Hf & Ht & Ha)]; unfold adopt, mean_score in *; cbn [fst snd] in *.
  - apply Qltb_lt in Hc. apply Qle_bool_iff in He. by rewrite Hc, He.
  - by apply adopt_flexible.
Qed.

Lemma adopt_ineligible cfg a t r st :
  ¬ eligible cfg (a, t) → adopt cfg a t r st = st.
Proof.
  intros He. unfold adopt.
  destruct (Qle_bool (similarity_threshold cfg) ((a + t) / 2)) eqn:E1.
  { destruct He. left. by apply Qle_bool_iff in E1. }
  rewrite andb_false_r.
  destruct (flexible_artist_matching cfg) eqn:E2; [|done].
  destruct (Qle_bool (title_match_threshold cfg) t) eqn:E3; [|done].
  destruct (Qltb a (similarity_threshold cfg)) eqn:E4; [|done].
  destruct He. right. cbn [fst snd]. split; [done|].
  split; [by apply Qle_bool_iff|by apply Qltb_lt].
Qed.

Lemma scan_best_so_far cfg scores (rest : list release) : ∀ seen st,
  best_so_far cfg scores seen st →
  best_so_far cfg scores (seen ++ rest) (scan cfg scores st rest).
Proof.
  induction rest as [|r rest IH]; intros seen st Hinv; cbn [scan foldl].
  { by rewrite app_nil_r. }
  replace (seen ++ r :: rest) with ((seen ++ [r]) ++ rest) by (by rewrite <- app_assoc).
  apply IH. clear IH. destruct Hinv as (H0 & Hub & Hm).
  destruct (scores r) as [a t] eqn:Es. cbn [fst snd].
  destruct (Qlt_le_dec st.2 (mean_score (a, t))) as [Hlt|Hle].
  - assert (Hdec : eligible cfg (a, t) ∨ ¬ eligible cfg (a, t)).
    { unfold eligible. cbn [fst snd].
      destruct (Qlt_le_dec (mean_score (a, t)) (similarity_threshold cfg)) as [?|?];
        [|by left; left].
      destruct (flexible_artist_matching cfg); [|right; intros [?|(? & _)]; [lra|done]].
      destruct (Qlt_le_dec t (title_match_threshold cfg)) as [?|?];
        [right; intros [?|(_ & ? & _)]; lra|].
      destruct (Qlt_le_dec a (similarity_threshold cfg)) as [?|?];
        [left; right; done|right; intros [?|(_ & _ & ?)]; lra]. }
    destruct Hdec as [He|He].
    + rewrite adopt_eligible by done. split; [cbn; lra|]. split.
      * intros r' Hr' He'. cbn [snd]. apply elem_of_app in Hr' as [Hr'|Hr'].
        -- specialize (Hub r' Hr' He'). lra.
        -- apply list_elem_of_singleton in Hr' as ->. rewrite Es. lra.
      * cbn [fst snd]. exists seen, []. rewrite Es. split; [done|]. split; [done|].
        split; [done|]. split; [lra|]. intros r' Hr' He'. specialize (Hub r' Hr' He'). lra.
    + rewrite adopt_ineligible by done. split; [done|]. split.
      * intros r' Hr' He'. apply elem_of_app in Hr' as [Hr'|Hr']; [by apply Hub|].
        apply list_elem_of_singleton in Hr' as ->. rewrite Es in He'. done.
      * destruct st.1 as [r0|]; [|done].
        destruct Hm as (before & after & -> & Hrest). exists before, (after ++ [r]).
        split; [by rewrite <- app_assoc|done].
  - rewrite adopt_not_better by done. split; [done|]. split.
    + intros r' Hr' He'. apply elem_of_app in Hr' as [Hr'|Hr']; [by apply Hub|].
      apply list_elem_of_singleton in Hr' as ->. by rewrite Es.
    + destruct st.1 as [r0|]; [|done].
      destruct Hm as (before & after & -> & Hrest). exists before, (after ++ [r]).
      split; [by rewrite <- app_assoc|done].
Qed.

Lemma best_release_best_so_far cfg scores rym_data :
  best_so_far cfg scores (scanned rym_data) (best_release cfg scores rym_data).
Proof.
  unfold best_release. apply (scan_best_so_far cfg scores (scanned rym_data) [] (None, 0%Q)).
  split; [cbn; lra|]. split; [|done]. intros r Hr. by apply elem_of_nil in Hr.
Qed.





Lemma elem_of_scanned rym_data r :
  r ∈ scanned rym_data ↔
  ∃ artist_key albums album_key,
    (artist_key, Some albums) ∈ rym_data
    ∧ (album_key, Some r) ∈ albums
    ∧ artistName r ≠ [] ∧ releaseTitle r ≠ [].
Proof.
  unfold scanned. rewrite list_elem_of_bind. split.
  - intros ([ak [albums|]] & Hin & Hd); cbn in Hin; [|by apply elem_of_nil in Hin].
    rewrite app_nil_r in Hin.
    apply list_elem_of_bind in Hin as ([bk [r'|]] & Hin & Hb);
      cbn in Hin; [|by apply elem_of_nil in Hin].
    rewrite app_nil_r in Hin.
    destruct (decide (artistName r' = [])) as [E1|E1].
    { rewrite bool_decide_eq_true_2 in Hin by done. by apply elem_of_nil in Hin. }
    destruct (decide (releaseTitle r' = [])) as [E2|E2].
    { rewrite (bool_decide_eq_true_2 (releaseTitle r' = [])), orb_true_r in Hin by done.
      by apply elem_of_nil in Hin. }
    rewrite !bool_decide_eq_false_2 in Hin by done. cbn in Hin.
    apply list_elem_of_singleton in Hin as ->. by exists ak, albums, bk.
  - intros (ak & albums & bk & Hd & Hb & E1 & E2). exists (ak, Some albums).
    split; [|done]. cbn. rewrite app_nil_r. apply list_elem_of_bind.
    exists (bk, Some r). split; [|done]. cbn. rewrite app_nil_r.
    rewrite !bool_decide_eq_false_2 by done. apply list_elem_of_here.
Qed.

(** The match is a record of the catalog, stored under some artist key and
    album key, and has both an artist name and a title: a record that lacks
    one of them is never returned, whatever it would score. *)
Theorem best_release_from_catalog cfg scores rym_data r :
  (best_release cfg scores rym_data).1 = Some r →
  ∃ artist_key albums album_key,
    (artist_key, Some albums) ∈ rym_data
    ∧ (album_key, Some r) ∈ albums
    ∧ artistName r ≠ [] ∧ releaseTitle r ≠ [].
Proof.
  intros E. destruct (best_release_best_so_far cfg scores rym_data) as (_ & _ & Hm).
  rewrite E in Hm. destruct Hm as (before & after & Hs & _).
  apply elem_of_scanned. rewrite Hs. apply elem_of_app. right. apply list_elem_of_here.
Qed.

Lemma best_release_from_catalog_witness :
  ∃ artist_key albums album_key,
    (artist_key, Some albums) ∈ flexible_catalog
    ∧ (album_key, Some alias_release) ∈ albums
    ∧ artistName alias_release ≠ [] ∧ releaseTitle alias_release ≠ [].
Proof.
  exact (best_release_from_catalog flexible_cfg flexible_scores flexible_catalog
           alias_release eq_refl).
Defined.

End SelectionMore.

(** ** Scores of a record *)

Section ScoreFacts.
Import Text Difflib Matcher Scenarios.

Implicit Types (cfg : config) (r : release) (name artist album_title : str).

Lemma best_of_bounds (l : list Q) :
  Forall (λ x, (0 <= x)%Q ∧ (x <= 1)%Q) l → (0 <= best_of l)%Q ∧ (best_of l <= 1)%Q.
Proof.
  intros H. unfold best_of. split; [apply best_of_ge_init|].
  destruct (best_of_attained l 0%Q) as [E|Hin]; [rewrite E; lra|].
  rewrite Forall_forall in H. by apply H.
Qed.

Lemma similarity_bounds `{U : UnicodeData} (a b : str) :
  (0 <= similarity a b)%Q ∧ (similarity a b <= 1)%Q.
Proof. apply ratio_bounds. Qed.

Lemma best_artist_score_bounds `{U : UnicodeData} artist name :
  (0 <= best_artist_score artist name)%Q ∧ (best_artist_score artist name <= 1)%Q.
Proof.
  apply best_of_bounds, Forall_forall. intros x Hx.
  apply list_elem_of_fmap in Hx as (v & -> & _). apply similarity_bounds.
Qed.

Lemma best_title_score_bounds `{U : UnicodeData} album_title name :
  (0 <= best_title_score album_title name)%Q ∧ (best_title_score album_title name <= 1)%Q.
Proof.
  apply best_of_bounds, Forall_forall. intros x Hx.
  apply list_elem_of_bind in Hx as (v & Hx & _).
  apply list_elem_of_fmap in Hx as (w & -> & _). apply similarity_bounds.
Qed.

Lemma score_bounds `{U : UnicodeData} cfg (rym_data : catalog)
    artist album_title r :
  ((0 <= best_artist_score artist (artistName r))%Q
   ∧ (best_artist_score artist (artistName r) <= 1)%Q)
  ∧ ((0 <= best_title_score album_title (releaseTitle r))%Q
     ∧ (best_title_score album_title (releaseTitle r) <= 1)%Q)
  ∧ ((0 <= combined_score artist album_title r)%Q
     ∧ (combined_score artist album_title r <= 1)%Q)
  ∧ ((0 <= (find_rym_release cfg rym_data artist album_title).2)%Q
     ∧ ((find_rym_release cfg rym_data artist album_title).2 <= 1)%Q).
Proof.
  assert (Hc : ∀ r', (0 <= mean_score (release_scores artist album_title r'))%Q
                     ∧ (mean_score (release_scores artist album_title r') <= 1)%Q).
  { intros r'. unfold mean_score, release_scores. cbn [fst snd].
    destruct (best_artist_score_bounds artist (artistName r')).
    destruct (best_title_score_bounds album_title (releaseTitle r')).
    unfold Qdiv. change (/ 2)%Q with (1 # 2)%Q. split; lra. }
  split; [apply best_artist_score_bounds|]. split; [apply best_title_score_bounds|].
  split; [apply (Hc r)|].
  unfold find_rym_release, best_release.
  destruct (scan_score cfg (release_scores artist album_title) (scanned rym_data) (None, 0%Q))
    as [E|(r' & _ & E)]; rewrite E; [cbn; lra|apply Hc].
Qed.

(** Every score lies between 0 and 1: the artist score, the title score and
    the combined score of a record, and the score that comes with the result
    of [_find_rym_release]. *)
Theorem scores_between_0_and_1 `{U : UnicodeData} cfg (rym_data : catalog)
    artist album_title r :
  ((0 <= best_artist_score artist (artistName r))%Q
   ∧ (best_artist_score artist (artistName r) <= 1)%Q)
  ∧ ((0 <= best_title_score album_title (releaseTitle r))%Q
     ∧ (best_title_score album_title (releaseTitle r) <= 1)%Q)
  ∧ ((0 <= combined_score artist album_title r)%Q
     ∧ (combined_score artist album_title r <= 1)%Q)
  ∧ ((0 <= (find_rym_release cfg rym_data artist album_title).2)%Q
     ∧ ((find_rym_release cfg rym_data artist album_title).2 <= 1)%Q).
Proof. exact (score_bounds cfg rym_data artist album_title r). Qed.

Lemma first_candidate_kept (cands : list str) name :
  strip name ≠ [] →
  head (clean_variations (name :: cands)) = Some (strip name).
Proof.
  intros Hne.
  destruct (clean_variations_cleaned (name :: cands)) as (_ & _ & _ & _ & Hord).
  destruct (Hord [] (strip name) (strip <$> cands)) as (o1 & o2 & E & Ho);
    [done|apply not_elem_of_nil|done|].
  destruct o1 as [|y o1]; [by rewrite E|].
  destruct (proj1 (Ho y) (list_elem_of_here _ _)) as [Hy _]. by apply elem_of_nil in Hy.
Qed.

(** The first variation of a name that is not blank is the name itself,
    trimmed: both generators always offer the name as it was given. *)
Theorem first_variation_is_the_name `{U : UnicodeData} name :
  strip name ≠ [] →
  head (get_artist_variations name) = Some (strip name)
  ∧ head (get_album_variations name) = Some (strip name).
Proof. intros Hne. split; by apply first_candidate_kept. Qed.

Lemma first_variation_is_the_name_witness :
  head (@get_artist_variations ascii_tables (py "  Artist [Alt Name] "))
  = Some (py "Artist [Alt Name]").
Proof.
  refine (proj1 (@first_variation_is_the_name ascii_tables (py "  Artist [Alt Name] ") _)).
  by vm_compute.
Defined.

Lemma head_elem_of {A} (l : list A) x : head l = Some x → x ∈ l.
Proof. destruct l; [done|]. intros [= ->]. apply list_elem_of_here. Qed.

Lemma Qeq_1_of_bounds (x y : Q) : (y == 1)%Q → (y <= x)%Q → (x <= 1)%Q → (x == 1)%Q.
Proof. intros. lra. Qed.

Lemma exact_match_scores `{U : UnicodeData} artist album_title r :
  strip (artistName r) = artist → artist ≠ [] →
  strip (releaseTitle r) = strip album_title → strip album_title ≠ [] →
  (best_artist_score artist (artistName r) == 1)%Q
  ∧ (best_title_score album_title (releaseTitle r) == 1)%Q
  ∧ (combined_score artist album_title r == 1)%Q.
Proof.
  intros Ha Hane Ht Htne.
  assert (H1 : (best_artist_score artist (artistName r) == 1)%Q).
  { apply (Qeq_1_of_bounds _ (similarity (str_lower artist) (str_lower artist))).
    - apply ratio_self.
    - unfold best_artist_score, best_of. apply best_of_ge. apply list_elem_of_fmap.
      exists artist. split; [done|]. apply head_elem_of. rewrite <- Ha.
      apply first_candidate_kept. by rewrite Ha.
    - apply best_artist_score_bounds. }
  assert (H2 : (best_title_score album_title (releaseTitle r) == 1)%Q).
  { apply (Qeq_1_of_bounds _ (similarity (str_lower (strip album_title))
                                         (str_lower (strip album_title)))).
    - apply ratio_self.
    - unfold best_title_score, best_of. apply best_of_ge. apply list_elem_of_bind.
      exists (strip album_title). split.
      + apply list_elem_of_fmap. exists (strip album_title). split; [done|].
        apply head_elem_of. rewrite <- Ht. apply first_candidate_kept. by rewrite Ht.
      + apply head_elem_of. by apply first_candidate_kept.
    - apply best_title_score_bounds. }
  split; [done|]. split; [done|]. unfold combined_score. rewrite H1, H2. reflexivity.
Qed.

(** A record whose artist name is the query artist (up to blanks around the
    record's name) and whose title is the query title (up to blanks around
    either) has artist score, title score and combined score 1. *)
Theorem exact_match_scores_one `{U : UnicodeData} artist album_title r :
  strip (artistName r) = artist → artist ≠ [] →
  strip (releaseTitle r) = strip album_title → strip album_title ≠ [] →
  (best_artist_score artist (artistName r) == 1)%Q
  ∧ (best_title_score album_title (releaseTitle r) == 1)%Q
  ∧ (combined_score artist album_title r == 1)%Q.
Proof. exact (exact_match_scores artist album_title r). Qed.

Lemma exact_match_scores_one_witness :
  (@combined_score ascii_tables (py "Alt Name") (py " Title") alt_name_release == 1)%Q.
Proof.
  refine (proj2 (proj2 (@exact_match_scores_one ascii_tables (py "Alt Name") (py " Title")
                          alt_name_release _ _ _ _))); by vm_compute.
Defined.

Lemma find_rym_release_exact `{U : UnicodeData} cfg (rym_data : catalog)
    artist album_title r :
  r ∈ scanned rym_data →
  strip (artistName r) = artist → artist ≠ [] →
  strip (releaseTitle r) = strip album_title → strip album_title ≠ [] →
  (similarity_threshold cfg <= 1)%Q →
  is_Some (find_rym_release cfg rym_data artist album_title).1
  ∧ ((find_rym_release cfg rym_data artist album_title).2 == 1)%Q.
Proof.
  intros Hr Ha Hane Ht Htne Hthr.
  destruct (exact_match_scores artist album_title r Ha Hane Ht Htne) as (_ & _ & Hc).
  destruct (score_bounds cfg rym_data artist album_title r) as (_ & _ & _ & [_ Hle]).
  unfold find_rym_release in *.
  destruct (best_release_best_so_far cfg (release_scores artist album_title) rym_data)
    as (_ & Hub & Hm).
  assert (Hmean : (mean_score (release_scores artist album_title r) == 1)%Q) by exact Hc.
  assert (He : eligible cfg (release_scores artist album_title r)).
  { left. rewrite Hmean. done. }
  specialize (Hub r Hr He).
  assert (Hs : ((best_release cfg (release_scores artist album_title) rym_data).2 == 1)%Q)
    by lra.
  split; [|done].
  destruct (best_release cfg (release_scores artist album_title) rym_data).1; [done|].
  rewrite Hm in Hs. discriminate.
Qed.

(** An exact match is found: when the catalog holds such a record and the
    threshold is at most 1, [_find_rym_release] returns a record, with
    score 1. *)
Theorem exact_match_is_found `{U : UnicodeData} cfg (rym_data : catalog)
    artist album_title r :
  r ∈ scanned rym_data →
  strip (artistName r) = artist → artist ≠ [] →
  strip (releaseTitle r) = strip album_title → strip album_title ≠ [] →
  (similarity_threshold cfg <= 1)%Q →
  is_Some (find_rym_release cfg rym_data artist album_title).1
  ∧ ((find_rym_release cfg rym_data artist album_title).2 == 1)%Q.
Proof. exact (find_rym_release_exact cfg rym_data artist album_title r). Qed.

Lemma exact_match_is_found_witness :
  is_Some (@find_rym_release ascii_tables (Config (8 # 10) true (95 # 100))
             [(py "k", Some [(py "a", Some alt_name_release)])]
             (py "Alt Name") (py "Title")).1.
Proof.
  refine (proj1 (@exact_match_is_found ascii_tables (Config (8 # 10) true (95 # 100))
                   [(py "k", Some [(py "a", Some alt_name_release)])]
                   (py "Alt Name") (py "Title") alt_name_release _ _ _ _ _ _));
    try (by vm_compute).
  apply list_elem_of_here.
Defined.

End ScoreFacts.

(** ** Names with and without a bracketed part *)

Section VariationFacts.
Import Text Matcher Scenarios.

Implicit Types (name pre body post s : str) (f : N → bool).

Lemma take_while_stop f (l : str) c (r : str) :
  Forall (λ x, f x = true) l → f c = false → take_while f (l ++ c :: r) = l.
Proof.
  intros Hl Hc. induction l as [|x l IH]; cbn; [by rewrite Hc|].
  apply Forall_cons in Hl as [Hx Hl]. rewrite Hx. f_equal. by apply IH.
Qed.

Lemma lazy_body_found close body post :
  close ∉ body → LF ∉ body → lazy_body close (body ++ close :: post) = Some body.
Proof.
  intros Hc Hn. unfold lazy_body. rewrite take_while_stop.
  - rewrite drop_app_length. by rewrite N.eqb_refl.
  - apply Forall_forall. intros x Hx. apply andb_true_iff. split; apply negb_true_iff.
    + apply N.eqb_neq. by intros ->.
    + apply N.eqb_neq. by intros ->.
  - by rewrite N.eqb_refl.
Qed.

Lemma search_group_found open close pre body post :
  open ∉ pre → close ∉ body → LF ∉ body →
  search_group open close (pre ++ open :: body ++ close :: post) = Some body.
Proof.
  intros Hp Hc Hn. induction pre as [|x pre IH]; cbn [app search_group].
  - rewrite N.eqb_refl. by rewrite lazy_body_found.
  - apply not_elem_of_cons in Hp as [Hx Hp].
    destruct (N.eqb_spec x open) as [?|_]; [congruence|]. by apply IH.
Qed.

Lemma search_group_none open close s : open ∉ s → search_group open close s = None.
Proof.
  induction s as [|x s IH]; intros H; cbn; [done|].
  apply not_elem_of_cons in H as [Hx Hs].
  destruct (N.eqb_spec x open) as [?|_]; [congruence|]. by apply IH.
Qed.

Lemma drop_while_elem f s x : x ∈ drop (length (take_while f s)) s → x ∈ s.
Proof.
  intros H. rewrite <- (take_drop (length (take_while f s)) s). apply elem_of_app. by right.
Qed.

Lemma match_delimited_none body_of open close prev s :
  open ∉ s → match_delimited body_of open close prev s = None.
Proof.
  intros H. unfold match_delimited.
  destruct (drop (length (take_while isspace s)) s) as [|c r] eqn:E; [done|].
  destruct (N.eqb_spec c open) as [->|_]; [|done].
  destruct H. apply (drop_while_elem isspace). rewrite E. apply list_elem_of_here.
Qed.

Lemma re_sub_without_delimiter body_of open close repl s :
  open ∉ s → re_sub (match_delimited body_of open close) repl s = s.
Proof.
  unfold re_sub. generalize (length s) as t. generalize (@None N) as prev.
  intros prev t. revert prev s.
  induction t as [|t IH]; intros prev s H; [by destruct s|].
  destruct s as [|c s]; [done|]. cbn [re_sub_loop].
  rewrite match_delimited_none by done.
  apply not_elem_of_cons in H as [_ H]. f_equal. by apply IH.
Qed.

Lemma elem_of_clean_variations (cands : list str) v :
  v ∈ cands → strip v ≠ [] → strip v ∈ clean_variations cands.
Proof.
  intros Hv Hne.
  destruct (clean_variations_cleaned cands) as (_ & _ & _ & Hmem & _).
  apply Hmem. split; [|done]. apply list_elem_of_fmap. by exists v.
Qed.

Lemma alternate_name_holds `{U : UnicodeData} body :
  strip body ≠ [] → strip body ∈ alternate_name (Some body).
Proof.
  intros H. unfold alternate_name, with_normalized.
  rewrite bool_decide_eq_true_2 by done. case_bool_decide; apply list_elem_of_here.
Qed.

(** The text of the first bracket group of a name is one of its variations:
    when the first [[] of the name is followed, before any line feed, by a
    []], what stands between them, trimmed, is a variation of the name as an
    artist and as an album title, unless it is blank.  For an artist the same
    holds of the first parenthesis group. *)
Theorem bracketed_text_is_a_variation `{U : UnicodeData} name pre body post :
  strip body ≠ [] → LF ∉ body →
  (name = pre ++ LBRACKET :: body ++ RBRACKET :: post → LBRACKET ∉ pre → RBRACKET ∉ body →
     strip body ∈ get_artist_variations name ∧ strip body ∈ get_album_variations name)
  ∧ (name = pre ++ LPAREN :: body ++ RPAREN :: post → LPAREN ∉ pre → RPAREN ∉ body →
     strip body ∈ get_artist_variations name).
Proof.
  intros Hne Hn.
  assert (Hs : strip (strip body) ≠ []) by (by rewrite strip_idemp).
  pose proof (alternate_name_holds body Hne) as Halt.
  split; intros -> Hpre Hb.
  - split; rewrite <- (strip_idemp body); apply elem_of_clean_variations; try done.
    + unfold artist_candidates. rewrite (search_group_found _ _ pre body post) by done.
      rewrite !elem_of_app. auto 10.
    + unfold album_candidates. rewrite (search_group_found _ _ pre body post) by done.
      rewrite !elem_of_app. auto 10.
  - rewrite <- (strip_idemp body); apply elem_of_clean_variations; try done.
    unfold artist_candidates.
    rewrite (search_group_found LPAREN RPAREN pre body post) by done.
    rewrite !elem_of_app. auto 10.
Qed.

Lemma bracketed_text_is_a_variation_witness :
  py "Alt Name" ∈ @get_artist_variations ascii_tables (py "Artist [Alt Name]")
  ∧ py "Alt Name" ∈ @get_album_variations ascii_tables (py "Artist [Alt Name]").
Proof.
  refine (proj1 (@bracketed_text_is_a_variation ascii_tables (py "Artist [Alt Name]")
                   (py "Artist ") (py "Alt Name") [] _ _) eq_refl _ _).
  - by vm_compute.
  - apply (bool_decide_unpack _). by vm_compute.
  - apply (bool_decide_unpack _). by vm_compute.
  - apply (bool_decide_unpack _). by vm_compute.
Defined.

Lemma single_entry {A} (l : list A) x :
  NoDup l → (∀ e, e ∈ l → e = x) → head l = Some x → l = [x].
Proof.
  intros Hn Hall Hh. destruct l as [|y [|z l]]; [done| |].
  - by injection Hh as ->.
  - exfalso. apply NoDup_cons in Hn as [Hn _]. apply Hn.
    rewrite (Hall y), (Hall z); [apply list_elem_of_here| |apply list_elem_of_here].
    apply list_elem_of_further, list_elem_of_here.
Qed.

(** An artist name without bracket or parenthesis that the normal forms
    leave as it is has one variation, the name trimmed. *)
Theorem plain_artist_has_one_variation `{U : UnicodeData} name :
  LBRACKET ∉ name → LPAREN ∉ name →
  normalize_NFKC name = name → normalize_NFD name = name →
  normalize_NFKC (strip name) = strip name →
  strip name ≠ [] →
  get_artist_variations name = [strip name].
Proof.
  intros Hb Hp Hk Hd Hks Hne. unfold get_artist_variations.
  apply single_entry.
  - by destruct (clean_variations_cleaned (artist_candidates name)) as (_ & ? & _).
  - intros e He.
    destruct (clean_variations_cleaned (artist_candidates name)) as (_ & _ & _ & Hmem & _).
    apply Hmem in He as [He _]. apply list_elem_of_fmap in He as (v & -> & Hv).
    unfold artist_candidates in Hv.
    rewrite !re_sub_without_delimiter, !search_group_none in Hv by done.
    unfold decomposed_variant, cleaned_variant, alternate_name, with_normalized in Hv.
    rewrite Hk, Hd, Hks in Hv.
    rewrite (bool_decide_eq_false_2 (name ≠ name)) in Hv by (by intros ?).
    rewrite (bool_decide_eq_false_2 (strip name ≠ strip name)) in Hv by (by intros ?).
    cbn [andb app] in Hv. rewrite app_nil_r in Hv.
    destruct (bool_decide (strip name ≠ []) && bool_decide (strip name ≠ name));
      cbn [app] in Hv; repeat (apply elem_of_cons in Hv as [->|Hv]);
      try (by apply elem_of_nil in Hv); try done; apply strip_idemp.
  - unfold artist_candidates. by apply first_candidate_kept.
Qed.

Lemma plain_artist_has_one_variation_witness :
  @get_artist_variations ascii_tables (py "  Plain Name ") = [py "Plain Name"].
Proof.
  refine (@plain_artist_has_one_variation ascii_tables (py "  Plain Name ") _ _ _ _ _ _);
    try reflexivity; try (by vm_compute); apply (bool_decide_unpack _); by vm_compute.
Defined.

End VariationFacts.

(** ** Sequences with nothing in common *)

Section NothingInCommon.
Import Text Difflib MatchInvariants Matcher.

Implicit Types (a b : str) (c : N).

Lemma chain_b_lookup_elem b c js : chain_b b !! c = Some js → c ∈ b.
Proof.
  intros H.
  assert (H' : index_elements b !! c = Some js).
  { unfold chain_b in H. destruct (200 <=? length b); [|done].
    by apply map_lookup_filter_Some in H as [? _]. }
  rewrite index_elements_lookup in H'.
  destruct (positions_from 0 c b) as [|j l] eqn:E; [done|].
  assert (Hj : j ∈ positions_from 0 c b) by (rewrite E; apply list_elem_of_here).
  apply elem_of_positions_from in Hj as [_ Hj]. by apply list_elem_of_lookup_2 in Hj.
Qed.

Lemma scan_rows_no_hit a b2j blo bhi (rows : list nat) : ∀ st,
  (∀ i c, a !! i = Some c → b2j !! c = None) →
  (scan_rows a b2j blo bhi rows st).2 = st.2.
Proof.
  unfold scan_rows.
  induction rows as [|i rows IH]; intros st H; cbn [foldl]; [done|].
  rewrite IH by done.
  destruct (a !! i) as [c|] eqn:E; [|done]. by rewrite (H i c E).
Qed.

Lemma matches_nothing_in_common a b : (∀ c, c ∈ a → c ∉ b) → matches a b = 0.
Proof.
  intros H. unfold matches. cbn [matching_size].
  assert (E : find_longest_match a b (chain_b b) 0 (length a) 0 (length b) = mkMatch 0 0 0).
  { unfold find_longest_match. rewrite scan_rows_no_hit.
    - cbn [snd m_a m_b m_size extend_back]. rewrite Nat.sub_0_r.
      destruct (length a) as [|n] eqn:Ea; [done|]. cbn [extend_forward Nat.add].
      destruct a as [|x a]; [done|]. destruct b as [|y b]; [done|].
      rewrite bool_decide_eq_false_2; [by rewrite andb_false_r|].
      cbn. intros [= ->]. apply (H y); apply list_elem_of_here.
    - intros i c Hi. destruct (chain_b b !! c) as [js|] eqn:Ec; [|done].
      apply chain_b_lookup_elem in Ec. apply list_elem_of_lookup_2 in Hi. by destruct (H c). }
  by rewrite E.
Qed.

(** Two strings whose normalised forms share no character have similarity
    0, unless both forms are empty, in which case it is 1. *)
Theorem similarity_of_unrelated_strings `{U : UnicodeData} (a b : str) :
  (∀ c, c ∈ normalize_NFKC (str_lower a) → c ∉ normalize_NFKC (str_lower b)) →
  (normalize_NFKC (str_lower a) ≠ [] ∨ normalize_NFKC (str_lower b) ≠ [] →
     (similarity a b == 0)%Q)
  ∧ (normalize_NFKC (str_lower a) = [] ∧ normalize_NFKC (str_lower b) = [] →
     (similarity a b == 1)%Q).
Proof.
  intros H. unfold similarity, ratio. rewrite matches_nothing_in_common by done. split.
  - intros Hne.
    destruct (length (normalize_NFKC (str_lower a)) + length (normalize_NFKC (str_lower b)))
      as [|n] eqn:E; [|reflexivity].
    exfalso. destruct (normalize_NFKC (str_lower a)), (normalize_NFKC (str_lower b));
      cbn in E; try lia. by destruct Hne.
  - intros [-> ->]. reflexivity.
Qed.

Lemma similarity_of_unrelated_strings_witness :
  (@similarity ascii_tables (py "Abba") (py "Kyuss") == 0)%Q.
Proof.
  refine (proj1 (@similarity_of_unrelated_strings ascii_tables (py "Abba") (py "Kyuss") _) _).
  - intros c Hc. apply (bool_decide_unpack _). revert c Hc. apply Forall_forall.
    apply (bool_decide_unpack _). by vm_compute.
  - left. by vm_compute.
Defined.

End NothingInCommon.

(** ** When the similarity is 1 *)

Section FullMatch.
Import Text Difflib MatchInvariants Matcher.

Implicit Types (a b : str) (b2j : gmap N (list nat)) (m best : Match).

Lemma chain_b_sound b : b2j_sound b (chain_b b).
Proof.
  intros c js j Hl Hj. apply chain_b_lookup in Hl as ->.
  apply elem_of_positions_from in Hj as [_ Hj]. by rewrite Nat.sub_0_r in Hj.
Qed.

Lemma get_pred_runs_back a b i j2len j :
  runs_back a b i j2len →
  j2len_get_pred j2len j ≤ i ∧ j2len_get_pred j2len j ≤ j
  ∧ ∀ t, t < j2len_get_pred j2len j → a !! (i - 1 - t) = b !! (j - 1 - t).
Proof.
  intros H. destruct j as [|j']; cbn; [repeat split; try lia; intros; lia|].
  destruct (j2len !! j') as [k|] eqn:E; cbn; [|repeat split; try lia; intros; lia].
  destruct (H j' k E) as (? & ? & Hrun). split; [done|]. split; [lia|].
  intros t Ht. rewrite Nat.sub_0_r. by apply Hrun.
Qed.

Lemma scan_row_agree a b i c blo bhi j2len (js : list nat) : ∀ newj2len best,
  a !! i = Some c → (∀ j, j ∈ js → b !! j = Some c) →
  runs_back a b i j2len →
  runs_back a b (S i) newj2len → agree_on a b best →
  runs_back a b (S i) (scan_row i blo bhi j2len js newj2len best).1
  ∧ agree_on a b (scan_row i blo bhi j2len js newj2len best).2.
Proof.
  induction js as [|j js IH]; intros nj best Hi Hjs Hrow Hnj Hbest; cbn [scan_row]; [done|].
  assert (Hjs' : ∀ j', j' ∈ js → b !! j' = Some c).
  { intros j' Hj'. apply Hjs. by apply list_elem_of_further. }
  destruct (j <? blo); [by apply IH|]. destruct (bhi <=? j); [done|].
  destruct (get_pred_runs_back a b i j2len j Hrow) as (Hk1 & Hk2 & Hrun).
  pose proof (Hjs j (list_elem_of_here _ _)) as Hbj.
  assert (Hentry : ∀ t, t < j2len_get_pred j2len j + 1 → a !! (S i - 1 - t) = b !! (j - t)).
  { intros t Ht. destruct t as [|t].
    - rewrite !Nat.sub_0_r. cbn. rewrite Nat.sub_0_r. congruence.
    - replace (S i - 1 - S t) with (i - 1 - t) by lia.
      replace (j - S t) with (j - 1 - t) by lia. apply Hrun. lia. }
  apply IH; [done|done|done| |].
  - intros j' k'. destruct (decide (j = j')) as [<-|Hne].
    + rewrite lookup_insert_eq. intros [= <-]. split; [lia|]. split; [lia|done].
    + rewrite lookup_insert_ne by done. apply Hnj.
  - destruct (m_size best <? j2len_get_pred j2len j + 1); [|done].
    intros t Ht. cbn [m_a m_b m_size] in *.
    specialize (Hentry (j2len_get_pred j2len j - t)).
    replace (S i - 1 - (j2len_get_pred j2len j - t))
      with (i + 1 - (j2len_get_pred j2len j + 1) + t) in Hentry by lia.
    replace (j - (j2len_get_pred j2len j - t))
      with (j + 1 - (j2len_get_pred j2len j + 1) + t) in Hentry by lia.
    apply Hentry. lia.
Qed.

Lemma scan_rows_agree a b b2j blo bhi n : ∀ i st,
  b2j_sound b b2j → i + n ≤ length a →
  runs_back a b i st.1 → agree_on a b st.2 →
  agree_on a b (scan_rows a b2j blo bhi (seq i n) st).2.
Proof.
  unfold scan_rows.
  induction n as [|n IH]; intros i st Hs Hn Hrow Hbest; cbn [seq foldl]; [done|].
  destruct (a !! i) as [c|] eqn:Ec; [|apply lookup_ge_None in Ec; lia].
  assert (Hjs : ∀ j, j ∈ default [] (b2j !! c) → b !! j = Some c).
  { intros j Hj. destruct (b2j !! c) as [js|] eqn:E; [by apply (Hs c js)|].
    by apply elem_of_nil in Hj. }
  assert (Hnew : runs_back a b (S i) ∅).
  { intros j k Hl. by rewrite lookup_empty in Hl. }
  destruct (scan_row_agree a b i c blo bhi st.1 (default [] (b2j !! c)) ∅ st.2
              Ec Hjs Hrow Hnew Hbest) as [H1 H2].
  apply IH; [done|lia|done|done].
Qed.

Lemma extend_back_agree a b alo blo besti : ∀ bestj bestsize,
  agree a b besti bestj bestsize →
  agree_on a b (extend_back a b alo blo besti bestj bestsize).
Proof.
  induction besti as [|i' IH]; intros bestj bestsize H; cbn [extend_back]; [done|].
  destruct bestj as [|j']; [done|].
  destruct ((alo <? S i') && (blo <? S j')); cbn [andb]; [|done].
  case_bool_decide as E; [|done]. apply IH. intros t Ht. destruct t as [|t].
  - by rewrite !Nat.add_0_r.
  - replace (i' + S t) with (S i' + t) by lia. replace (j' + S t) with (S j' + t) by lia.
    apply H. lia.
Qed.

Lemma extend_forward_agree a b ahi bhi turns : ∀ besti bestj bestsize,
  agree a b besti bestj bestsize →
  agree_on a b (extend_forward turns a b ahi bhi besti bestj bestsize).
Proof.
  induction turns as [|turns IH]; intros besti bestj bestsize H; cbn [extend_forward]; [done|].
  destruct ((besti + bestsize <? ahi) && (bestj + bestsize <? bhi)); cbn [andb]; [|done].
  case_bool_decide as E; [|done]. apply IH. intros t Ht.
  destruct (decide (t = bestsize)) as [->|?]; [done|]. apply H. lia.
Qed.

(** The block that [find_longest_match] returns is a block of equal
    elements. *)
Lemma find_longest_match_agree a b b2j alo ahi blo bhi :
  b2j_sound b b2j → alo ≤ ahi → ahi ≤ length a →
  agree_on a b (find_longest_match a b b2j alo ahi blo bhi).
Proof.
  intros Hs Ha Hl. unfold find_longest_match.
  pose proof (scan_rows_agree a b b2j blo bhi (ahi - alo) alo (∅, mkMatch alo blo 0) Hs) as H.
  set (best := (scan_rows a b2j blo bhi (seq alo (ahi - alo)) (∅, mkMatch alo blo 0)).2) in *.
  assert (Hbest : agree_on a b best).
  { apply H; [lia| |].
    - intros j k. cbn. by rewrite lookup_empty.
    - intros t Ht. cbn in Ht. lia. }
  pose proof (extend_back_agree a b alo blo (m_a best) (m_b best) (m_size best) Hbest) as Hb.
  destruct (extend_back a b alo blo (m_a best) (m_b best) (m_size best)) as [i j k].
  by apply extend_forward_agree.
Qed.

(** When the blocks found in a range add up to the length of the range on
    both sides, the two ranges are equal. *)
Lemma matching_size_full a b b2j depth : ∀ alo ahi blo bhi,
  b2j_sound b b2j →
  alo ≤ ahi → ahi ≤ length a → blo ≤ bhi →
  matching_size depth a b b2j alo ahi blo bhi = ahi - alo →
  ahi - alo = bhi - blo →
  agree a b alo blo (ahi - alo).
Proof.
  induction depth as [|depth IH]; intros alo ahi blo bhi Hs Ha Hl Hb Hm Hsq;
    cbn [matching_size] in Hm.
  { intros t Ht. lia. }
  pose proof (find_longest_match_inside a b b2j alo blo bhi ahi Ha Hb) as (I1 & I2 & I3 & I4).
  pose proof (find_longest_match_agree a b b2j alo ahi blo bhi Hs Ha Hl) as Hag.
  set (x := find_longest_match a b b2j alo ahi blo bhi) in *.
  destruct (Nat.eqb_spec (m_size x) 0) as [E|E]; [intros t Ht; lia|].
  destruct (matching_size_bound a b b2j depth alo (m_a x) blo (m_b x) I1 I3) as [L1 L2].
  destruct (matching_size_bound a b b2j depth (m_a x + m_size x) ahi (m_b x + m_size x) bhi
              I2 I4) as [R1 R2].
  assert (Hleft : agree a b alo blo (m_a x - alo) ∧ m_a x - alo = m_b x - blo).
  { destruct (Nat.ltb_spec alo (m_a x)) as [H1|H1];
      destruct (Nat.ltb_spec blo (m_b x)) as [H2|H2]; cbn [andb] in Hm;
      destruct ((m_a x + m_size x <? ahi) && (m_b x + m_size x <? bhi));
      try (split; [intros t Ht|]; lia).
    - split; [|lia]. apply (IH alo (m_a x) blo (m_b x)); try done; lia.
    - split; [|lia]. apply (IH alo (m_a x) blo (m_b x)); try done; lia. }
  assert (Hright : agree a b (m_a x + m_size x) (m_b x + m_size x) (ahi - (m_a x + m_size x))).
  { destruct ((alo <? m_a x) && (blo <? m_b x));
      destruct (Nat.ltb_spec (m_a x + m_size x) ahi) as [H1|H1];
      destruct (Nat.ltb_spec (m_b x + m_size x) bhi) as [H2|H2]; cbn [andb] in Hm;
      try (intros t Ht; lia).
    - apply (IH _ ahi _ bhi); try done; lia.
    - apply (IH _ ahi _ bhi); try done; lia. }
  destruct Hleft as [Hleft Hoff]. intros t Ht.
  destruct (Nat.lt_ge_cases t (m_a x - alo)) as [H1|H1]; [by apply Hleft|].
  destruct (Nat.lt_ge_cases t (m_a x - alo + m_size x)) as [H2|H2].
  - specialize (Hag (t - (m_a x - alo))).
    replace (m_a x + (t - (m_a x - alo))) with (alo + t) in Hag by lia.
    replace (m_b x + (t - (m_a x - alo))) with (blo + t) in Hag by lia.
    apply Hag. lia.
  - specialize (Hright (t - (m_a x - alo + m_size x))).
    replace (m_a x + m_size x + (t - (m_a x - alo + m_size x))) with (alo + t) in Hright by lia.
    replace (m_b x + m_size x + (t - (m_a x - alo + m_size x))) with (blo + t) in Hright by lia.
    apply Hright. lia.
Qed.

Lemma ratio_one_eq a b : (ratio a b == 1)%Q → a = b.
Proof.
  unfold ratio, calculate_ratio. destruct (matches_bound a b) as [Ma Mb].
  destruct (length a + length b) as [|n] eqn:En.
  { intros _. destruct a, b; cbn in En; done || lia. }
  assert (E' : Z.pos (Pos.of_nat (S n)) = Z.of_nat (S n)) by lia.
  unfold Qeq. cbn [Qnum Qden]. rewrite E'. intros H.
  assert (Hm : matches a b = length a ∧ length a = length b) by lia.
  destruct Hm as [Hm Hlen].
  assert (Hag : agree a b 0 0 (length a - 0)).
  { apply (matching_size_full a b (chain_b b) (S (length a)) 0 (length a) 0 (length b));
      try lia; [apply chain_b_sound|]. unfold matches in Hm. lia. }
  apply list_eq. intros i. destruct (Nat.lt_ge_cases i (length a)) as [Hi|Hi].
  - apply (Hag i). lia.
  - rewrite !lookup_ge_None_2; [done|lia|lia].
Qed.

(** The similarity of two strings is 1 exactly when their lower-cased,
    normalised forms are equal. *)
Theorem similarity_one_iff_same_normal_form `{U : UnicodeData} (a b : str) :
  (similarity a b == 1)%Q ↔ normalize_NFKC (str_lower a) = normalize_NFKC (str_lower b).
Proof.
  unfold similarity. split; [apply ratio_one_eq|]. intros ->. apply ratio_self.
Qed.

End FullMatch.

(** ** From the record to the tracks of an imported album *)

Section ImportedAlbum.
Import Text Hierarchy Resolver Matcher Tags.

Implicit Types (values : list str) (album item : album_tags) (lim : limits).

Lemma join_plain_nonempty values :
  values ≠ [] → Forall plain values → join separator values ≠ [].
Proof.
  intros Hne Hv. destruct values as [|x [|y values]]; [done| |].
  - apply Forall_cons in Hv as [(_ & _ & Nx) _]. done.
  - apply Forall_cons in Hv as [(_ & _ & Nx) _]. cbn [join]. by destruct x.
Qed.

Lemma take_applies values (max : Z) :
  applies values max = true → take (Z.to_nat max) values ≠ [].
Proof.
  intros Ha. unfold applies in Ha. apply andb_prop in Ha as [Hne Hm].
  apply bool_decide_eq_true in Hne. apply Z.ltb_lt in Hm.
  destruct values as [|x values]; [done|].
  destruct (Z.to_nat max) as [|n] eqn:E; [lia|done].
Qed.

Lemma field_array_plain tag_name values :
  values ≠ [] → Forall plain values →
  field_array tag_name (join separator values) = [(tag_name, values)].
Proof.
  intros Hne Hv. unfold field_array.
  rewrite bool_decide_eq_true_2 by (by apply join_plain_nonempty).
  by rewrite flac_array_join.
Qed.

Lemma field_array_joined tag_name values (max : Z) :
  applies values max = true → Forall plain values →
  field_array tag_name (joined values max) = [(tag_name, take (Z.to_nat max) values)]
  ∧ joined values max ≠ [].
Proof.
  intros Ha Hv. pose proof (take_applies values max Ha) as Hne.
  assert (Hv' : Forall plain (take (Z.to_nat max) values)) by (by apply Forall_take).
  split; [by apply field_array_plain|by apply join_plain_nonempty].
Qed.

(** When an album is imported and a record is found for it, the lists of
    the record reach the file of every track: for each tag whose list
    applies and holds plain values, the array assigned for that tag is the
    list cut at its maximum, and for the grouping it is the whole list of
    parent genres.  What the track held in these tags before does not
    matter. *)
Theorem record_lists_reach_every_track lim (cfg : Resolver.config) (gh : option index)
    (release_data : release) album (items : list album_tags) item' :
  item' ∈ (album_imported lim cfg gh (Some release_data) album items).2 →
  (applies (genres release_data) (max_genres lim) = true →
   Forall plain (genres release_data) →
   (py "GENRE", take (Z.to_nat (max_genres lim)) (genres release_data)) ∈ flac_fields item')
  ∧ (applies (secondaryGenres release_data) (max_secondary_genres lim) = true →
     Forall plain (secondaryGenres release_data) →
     (py "SECONDARY_GENRE",
      take (Z.to_nat (max_secondary_genres lim)) (secondaryGenres release_data))
       ∈ flac_fields item')
  ∧ (applies (descriptors release_data) (max_descriptors lim) = true →
     Forall plain (descriptors release_data) →
     (py "DESCRIPTORS", take (Z.to_nat (max_descriptors lim)) (descriptors release_data))
       ∈ flac_fields item')
  ∧ (get_parent_genres cfg gh (genres release_data) ≠ [] →
     Forall plain (get_parent_genres cfg gh (genres release_data)) →
     (py "GROUPING", get_parent_genres cfg gh (genres release_data)) ∈ flac_fields item').
Proof.
  cbn [album_imported snd]. intros Hin.
  apply list_elem_of_fmap in Hin as (item & -> & _).
  unfold flac_fields, apply_rym_tags_to_item, apply_rym_tags.
  cbn [genre secondary_genre descriptor grouping].
  repeat split.
  - intros Ha Hv. rewrite Ha.
    destruct (field_array_joined (py "GENRE") _ _ Ha Hv) as [E N].
    rewrite bool_decide_eq_true_2 by done. rewrite E.
    apply elem_of_app. left. apply list_elem_of_here.
  - intros Ha Hv. rewrite Ha.
    destruct (field_array_joined (py "SECONDARY_GENRE") _ _ Ha Hv) as [E N].
    rewrite (bool_decide_eq_true_2 (joined (secondaryGenres release_data) _ ≠ [])) by done.
    rewrite E. apply elem_of_app. right. apply elem_of_app. left. apply list_elem_of_here.
  - intros Ha Hv. rewrite Ha.
    destruct (field_array_joined (py "DESCRIPTORS") _ _ Ha Hv) as [E N].
    rewrite (bool_decide_eq_true_2 (joined (descriptors release_data) _ ≠ [])) by done.
    rewrite E. apply elem_of_app. right. apply elem_of_app. right.
    apply elem_of_app. left. apply list_elem_of_here.
  - intros Hne Hv.
    rewrite (bool_decide_eq_true_2 (get_parent_genres cfg gh (genres release_data) ≠ []))
      by done.
    rewrite (bool_decide_eq_true_2 (join separator _ ≠ []))
      by (by apply join_plain_nonempty).
    rewrite field_array_plain by done.
    apply elem_of_app. right. apply elem_of_app. right.
    apply elem_of_app. right. apply list_elem_of_here.
Qed.

Lemma record_lists_reach_every_track_witness :
  (py "GENRE", [py "Ambient"; py "Drone"])
    ∈ flac_fields
        (apply_rym_tags_to_item (AlbumTags (py "Rock") [] [] (py "Old"))
           (apply_rym_tags (Limits 2 20 60)
              (Release (py "A") (py "T") [py "Ambient"; py "Drone"; py "Noise"] [] [])
              [] (AlbumTags [] [] [] []))).
Proof.
  refine (proj1 (record_lists_reach_every_track (Limits 2 20 60) (Resolver.Config false 30)
                   None
                   (Release (py "A") (py "T") [py "Ambient"; py "Drone"; py "Noise"] [] [])
                   (AlbumTags [] [] [] []) [AlbumTags (py "Rock") [] [] (py "Old")] _ _)
                eq_refl _).
  - apply list_elem_of_here.
  - apply (bool_decide_unpack _). by vm_compute.
Defined.

End ImportedAlbum.

(** ** The check of an import task *)

Section ImportCheck.
Import Text Matcher ImportHook Scenarios.

Implicit Types (cfg : config) (rym_data : catalog) (task : import_task) (r : release).


(** An album whose first track carries the artist name and the title of a
    record of the catalog (up to blanks around them) passes the check, with
    any threshold up to 1 and whatever else the catalog holds. *)
Theorem exact_match_passes_the_import_check `{U : UnicodeData} (require_rym_match : bool)
    cfg rym_data task first_item rest r :
  items task = first_item :: rest →
  r ∈ scanned rym_data →
  strip (artistName r) = task_artist first_item → task_artist first_item ≠ [] →
  strip (releaseTitle r) = strip (task_album first_item) →
  strip (task_album first_item) ≠ [] →
  (similarity_threshold cfg <= 1)%Q →
  on_import_task_created require_rym_match cfg rym_data task = [task].
Proof.
  intros Hi Hr Ha Hane Ht Htne Hthr. unfold on_import_task_created.
  destruct require_rym_match; cbn [negb]; [|done].
  destruct (is_album task); [|done]. rewrite Hi.
  destruct (find_rym_release_exact cfg rym_data (task_artist first_item)
              (task_album first_item) r Hr Ha Hane Ht Htne Hthr) as [[r0 Hs] _].
  by rewrite Hs.
Qed.

Lemma exact_match_passes_the_import_check_witness :
  @on_import_task_created ascii_tables true (Config (8 # 10) true (95 # 100))
    [(py "k", Some [(py "a", Some alt_name_release)])]
    (ImportTask true [Track (Some (py "Alt Name")) None (Some (py "Title"))])
  = [ImportTask true [Track (Some (py "Alt Name")) None (Some (py "Title"))]].
Proof.
  refine (@exact_match_passes_the_import_check ascii_tables true
            (Config (8 # 10) true (95 # 100))
            [(py "k", Some [(py "a", Some alt_name_release)])]
            (ImportTask true [Track (Some (py "Alt Name")) None (Some (py "Title"))])
            (Track (Some (py "Alt Name")) None (Some (py "Title"))) [] alt_name_release
            eq_refl _ _ _ _ _ _); try (by vm_compute).
  apply list_elem_of_here.
Defined.

End ImportCheck.
